(** * A shallow embedding of SeaHorn's bit-precise operational semantics

    The development follows [lib/seahorn/BvOpSem2.cc] and
    [lib/seahorn/BvOpSem2Context.hh] (the symbolic machine [Bv2OpSemContext],
    the instruction visitor [OpSemVisitor], the PHI visitor
    [OpSemPhiVisitor] and the edge semantics of [Bv2OpSem]) and
    [lib/ufo/Smt/Yices2Impl.cc] (the Yices solver context).

    C++ objects are identified by their address ([ValuePtr]); a null [Expr]
    is [None]; [llvm_unreachable], a failed [assert] and
    [report_fatal_error] end the run ([Unreachable]); diagnostics written
    to the log streams are collected next to the result. *)

From Stdlib Require Import ZArith String List.
From stdpp Require Import gmap strings list.

Local Open Scope string_scope.
Local Open Scope list_scope.

(** ** The input program (LLVM IR) *)

(** Address of an [llvm::Value]. *)
Definition ValuePtr := positive.
Bind Scope positive_scope with ValuePtr.

(** [llvm::Type], with the payload the interpreter looks at. *)
Inductive Type_ :=
| VoidTy | HalfTy | FloatTy | DoubleTy | X86_FP80Ty | FP128Ty | PPC_FP128Ty
| LabelTy | MetadataTy | X86_MMXTy | TokenTy
| IntegerTy (bits : N)
| FunctionTy | StructTy | ArrayTy
| PointerTy (elem : Type_)
| VectorTy.

Definition isPointerTy (ty : Type_) : bool :=
  match ty with PointerTy _ => true | _ => false end.

Definition isIntegerTy (ty : Type_) : bool :=
  match ty with IntegerTy _ => true | _ => false end.

(** [Type::isIntegerTy(unsigned)] *)
Definition isIntegerTyN (ty : Type_) (n : N) : bool :=
  match ty with IntegerTy b => N.eqb b n | _ => false end.

(** The instruction classes the modelled code distinguishes. *)
Inductive Opcode :=
| PHI (incoming : list (ValuePtr * ValuePtr))   (* (incoming block, value) *)
| Br (succ0 : ValuePtr)
| CondBr (cond succ0 succ1 : ValuePtr)
| Load (ptr : ValuePtr) (align : N)
| Store (val ptr : ValuePtr) (align : N)
| OtherTerminator
| OtherInst.

(** The dynamic class of a value, as seen by [dyn_cast]/[isa]. *)
Inductive ValueKind :=
| BasicBlockVal (parent : ValuePtr) (insts : list ValuePtr)
| FunctionVal (name : string)
| GlobalVariableVal
| ConstantIntVal (value : Z)
| ConstantPointerNullVal
| UndefValueVal
| ConstantExprVal (isNull : bool)     (* every other [llvm::Constant] *)
| ArgumentVal
| InstructionVal (parent : ValuePtr) (op : Opcode).

Record Value := mkValue {
  kind : ValueKind;
  getType : Type_;
  (** [shadow_dsa::isShadowMem(V, &scalar)]: [None] when it answers false,
      otherwise the unique scalar it reports (possibly null). *)
  shadowMem : option (option ValuePtr);
  (** [V] has one use and that use is a call to a [shadow.mem*] function. *)
  onlyUsedByShadowMem : bool
}.

(** The module under analysis: what is stored at each value address. *)
Definition Module := ValuePtr -> Value.

Definition isConstant (k : ValueKind) : bool :=
  match k with
  | FunctionVal _ | GlobalVariableVal | ConstantIntVal _
  | ConstantPointerNullVal | UndefValueVal | ConstantExprVal _ => true
  | _ => false
  end.

(** [Constant::isNullValue] *)
Definition isNullValue (k : ValueKind) : bool :=
  match k with
  | ConstantIntVal z => Z.eqb z 0
  | ConstantPointerNullVal => true
  | ConstantExprVal b => b
  | _ => false
  end.

Definition isConstantPointerNull (k : ValueKind) : bool :=
  match k with ConstantPointerNullVal => true | _ => false end.

Definition isPHINode (k : ValueKind) : option (list (ValuePtr * ValuePtr)) :=
  match k with InstructionVal _ (PHI inc) => Some inc | _ => None end.

(** ** Expressions *)

(** The expression DAG of [ufo/Expr]: only the operators built by the
    modelled code, and a few more for the memory manager and ALU to build
    theirs. *)
Inductive Expr :=
| TRUE | FALSE
| VALUE (v : ValuePtr)               (* mkTerm<const Value *> *)
| BASICBLOCK (bb : ValuePtr)         (* mkTerm<const BasicBlock *> *)
| MPZ (k : Z)                        (* mkTerm<mpz_class> *)
| STRING (s : string)                (* mkTerm<std::string> *)
| BOOL_TY
| BVSORT (width : N)
| ARRAY_TY (idx val : Expr)
| FAPP (name sort : Expr)            (* bind::mkConst (name, sort) *)
| VARIANT (n : nat) (e : Expr)       (* a fresh version of a register *)
| BVNUM (k : Z) (width : N)
| NEG (e : Expr)
| OR (a b : Expr)
| EQ (a b : Expr)
| ITE (c a b : Expr)
| SELECT (a i : Expr)                (* op::array::select *)
| STORE (a i v : Expr)
| CONST_ARRAY (sort val : Expr).     (* op::array::constArray *)

#[global] Instance Expr_eq_dec : EqDecision Expr.
Proof.
  unfold EqDecision, Decision.
  decide equality;
    try apply Z.eq_dec; try apply N.eq_dec; try apply Pos.eq_dec;
    try apply Nat.eq_dec; try apply string_dec.
Defined.

Definition mkConst (name sort : Expr) : Expr := FAPP name sort.
Definition boolConst (name : Expr) : Expr := mkConst name BOOL_TY.

(** ** Diagnostics *)

Inductive Diag :=
| LOG (tag msg : string)     (* LOG(tag, errs() << msg): printed if [tag] is on *)
| WARN (msg : string)
| ERR (msg : string).

(** ** The symbolic store *)

(** Modelled from the spec: [SymStore] (seahorn/SymStore.hh) is not among
    the sources. The spec describes it as "a mapping from register to its
    current symbolic value, append-only in effect (each write is a fresh
    logical term referencing the prior value, never an in-place mutation of
    history)", read by "materializing the environment's current value for
    that logical register", and havoc as giving a register "a fresh
    nondeterministic value". The history is kept newest first. *)
Definition SymStore := list (Expr * Expr).

Fixpoint store_get (s : SymStore) (r : Expr) : option Expr :=
  match s with
  | [] => None
  | (k, v) :: s' => if decide (k = r) then Some v else store_get s' r
  end.

Definition store_havoc (s : SymStore) (r : Expr) : Expr * SymStore :=
  let v := VARIANT (length s) r in (v, (r, v) :: s).

Definition store_read (s : SymStore) (r : Expr) : Expr * SymStore :=
  match store_get s r with
  | Some v => (v, s)
  | None => store_havoc s r
  end.

Definition store_write (s : SymStore) (r u : Expr) : SymStore := (r, u) :: s.

(** ** The symbolic machine *)

(** [Bv2OpSemContext] (BvOpSem2Context.hh), together with the two
    references of its base class: the store [m_values] and the
    side-condition vector [m_side]. [m_inst] is the instruction iterator: a
    block and a position in it. The ALU and the memory manager are shared
    by a whole lineage (a fork reaches them through [m_parent]); they are
    the interfaces [OpSemAlu] and [OpSemMemManager] below. [m_parent] is a
    pointer to a const context: a fork reads its parent through it and has
    no way to write it; the field holds the parent as the fork sees it. *)
#[warnings="-register-all"]
Inductive Bv2OpSemContext := mkContext {
  m_values : SymStore;
  m_side : list Expr;
  m_func : option ValuePtr;
  m_bb : option ValuePtr;
  m_inst : option (ValuePtr * nat);
  m_prev : option ValuePtr;
  m_readRegister : option Expr;
  m_writeRegister : option Expr;
  m_scalar : bool;
  m_trfrReadReg : option Expr;
  m_fparams : list Expr;
  m_ignored : gset ValuePtr;
  m_registers : list Expr;
  m_valueToRegister : gmap ValuePtr Expr;
  m_parent : option Bv2OpSemContext
}.

Definition set_values (s : SymStore) (c : Bv2OpSemContext) :=
  mkContext s (m_side c) (m_func c) (m_bb c) (m_inst c) (m_prev c)
    (m_readRegister c) (m_writeRegister c) (m_scalar c) (m_trfrReadReg c)
    (m_fparams c) (m_ignored c) (m_registers c) (m_valueToRegister c)
    (m_parent c).

Definition set_side (s : list Expr) (c : Bv2OpSemContext) :=
  mkContext (m_values c) s (m_func c) (m_bb c) (m_inst c) (m_prev c)
    (m_readRegister c) (m_writeRegister c) (m_scalar c) (m_trfrReadReg c)
    (m_fparams c) (m_ignored c) (m_registers c) (m_valueToRegister c)
    (m_parent c).

Definition set_position (f b : option ValuePtr) (i : option (ValuePtr * nat))
    (p : option ValuePtr) (c : Bv2OpSemContext) :=
  mkContext (m_values c) (m_side c) f b i p
    (m_readRegister c) (m_writeRegister c) (m_scalar c) (m_trfrReadReg c)
    (m_fparams c) (m_ignored c) (m_registers c) (m_valueToRegister c)
    (m_parent c).

Definition set_readRegister (r : option Expr) (c : Bv2OpSemContext) :=
  mkContext (m_values c) (m_side c) (m_func c) (m_bb c) (m_inst c) (m_prev c)
    r (m_writeRegister c) (m_scalar c) (m_trfrReadReg c)
    (m_fparams c) (m_ignored c) (m_registers c) (m_valueToRegister c)
    (m_parent c).

Definition set_writeRegister (r : option Expr) (c : Bv2OpSemContext) :=
  mkContext (m_values c) (m_side c) (m_func c) (m_bb c) (m_inst c) (m_prev c)
    (m_readRegister c) r (m_scalar c) (m_trfrReadReg c)
    (m_fparams c) (m_ignored c) (m_registers c) (m_valueToRegister c)
    (m_parent c).

Definition set_trfrReadReg (r : option Expr) (c : Bv2OpSemContext) :=
  mkContext (m_values c) (m_side c) (m_func c) (m_bb c) (m_inst c) (m_prev c)
    (m_readRegister c) (m_writeRegister c) (m_scalar c) r
    (m_fparams c) (m_ignored c) (m_registers c) (m_valueToRegister c)
    (m_parent c).

Definition set_ignored (s : gset ValuePtr) (c : Bv2OpSemContext) :=
  mkContext (m_values c) (m_side c) (m_func c) (m_bb c) (m_inst c) (m_prev c)
    (m_readRegister c) (m_writeRegister c) (m_scalar c) (m_trfrReadReg c)
    (m_fparams c) s (m_registers c) (m_valueToRegister c)
    (m_parent c).

Definition set_registers (rs : list Expr) (m : gmap ValuePtr Expr)
    (c : Bv2OpSemContext) :=
  mkContext (m_values c) (m_side c) (m_func c) (m_bb c) (m_inst c) (m_prev c)
    (m_readRegister c) (m_writeRegister c) (m_scalar c) (m_trfrReadReg c)
    (m_fparams c) (m_ignored c) rs m (m_parent c).

(** ** Results: a run returns, or reaches [llvm_unreachable] *)

(** What a function that does not touch the machine gives: a value and the
    diagnostics it printed, or the end of the run. *)
Inductive Outcome (A : Type) :=
| Ok (a : A) (log : list Diag)
| Fatal (msg : string).
Arguments Ok {A} a log.
Arguments Fatal {A} msg.

(** What a function on the machine gives: a value, the machine after it and
    the diagnostics printed, or the end of the run. *)
Inductive Res (A : Type) :=
| Done (a : A) (c : Bv2OpSemContext) (log : list Diag)
| Unreachable (msg : string).
Arguments Done {A} a c log.
Arguments Unreachable {A} msg.

Definition M (A : Type) := Bv2OpSemContext -> Res A.

Definition ret {A} (a : A) : M A := fun c => Done a c [].

Definition bind {A B} (m : M A) (f : A -> M B) : M B :=
  fun c =>
    match m c with
    | Done a c1 l1 =>
        match f a c1 with
        | Done b c2 l2 => Done b c2 (l1 ++ l2)
        | Unreachable msg => Unreachable msg
        end
    | Unreachable msg => Unreachable msg
    end.

Declare Scope opsem_scope.
Delimit Scope opsem_scope with opsem.
Notation "x <- m ;; k" := (bind m (fun x => k))
  (at level 100, m at next level, right associativity) : opsem_scope.
Notation "m ;; k" := (bind m (fun _ => k))
  (at level 100, right associativity) : opsem_scope.
Local Open Scope opsem_scope.

Definition lift {A} (o : Outcome A) : M A :=
  fun c => match o with Ok a l => Done a c l | Fatal msg => Unreachable msg end.

Definition gets {A} (f : Bv2OpSemContext -> A) : M A := fun c => Done (f c) c [].
Definition modify (f : Bv2OpSemContext -> Bv2OpSemContext) : M unit :=
  fun c => Done tt (f c) [].
Definition emit (d : Diag) : M unit := fun c => Done tt c [d].
Definition llvm_unreachable {A} (msg : string) : M A := fun _ => Unreachable msg.
Definition assert_ (b : bool) (msg : string) : M unit :=
  if b then ret tt else llvm_unreachable msg.

(** *** The base class [OpSemContext] *)

(** Modelled from the spec: [OpSemContext] (seahorn/OperationalSemantics.hh)
    is not among the sources. Its [read], [havoc] and [write] are those of
    the store; the spec has a side-condition "appended" to the
    side-condition list ([addSide], [addScopedSide]), a definition of the
    written memory register as one more side-condition ([addDef]) and, for
    an infeasible edge, "all accumulated side-conditions for this edge are
    discarded" ([resetSide]). *)
Definition ctx_read (r : Expr) : M Expr :=
  fun c => let '(v, s) := store_read (m_values c) r in Done v (set_values s c) [].

Definition ctx_havoc (r : Expr) : M Expr :=
  fun c => let '(v, s) := store_havoc (m_values c) r in Done v (set_values s c) [].

Definition OpSemContext_write (r u : Expr) : M unit :=
  modify (fun c => set_values (store_write (m_values c) r u) c).

Definition addSide (v : Expr) : M unit :=
  modify (fun c => set_side (m_side c ++ [v]) c).

Definition addScopedSide (v : Expr) : M unit := addSide v.

Definition addDef (v u : Expr) : M unit := addSide (EQ v u).

Definition resetSide : M unit := modify (set_side []).

(** *** Accessors of [Bv2OpSemContext] (BvOpSem2Context.hh) *)

Definition getMemReadRegister : M (option Expr) := gets m_readRegister.
Definition getMemWriteRegister : M (option Expr) := gets m_writeRegister.
Definition getMemTrsfrReadReg : M (option Expr) := gets m_trfrReadReg.
Definition setMemReadRegister (r : option Expr) : M unit := modify (set_readRegister r).
Definition setMemWriteRegister (r : option Expr) : M unit := modify (set_writeRegister r).
Definition setMemTrsfrReadReg (r : option Expr) : M unit := modify (set_trfrReadReg r).
Definition isMemScalar : M bool := gets m_scalar.
Definition getCurrBb : M (option ValuePtr) := gets m_bb.
Definition getPrevBb : M (option ValuePtr) := gets m_prev.
Definition isIgnored (inst : ValuePtr) : M bool :=
  gets (fun c => bool_decide (inst ∈ m_ignored c)).
Definition ignore (inst : ValuePtr) : M unit :=
  modify (fun c => set_ignored ({[inst]} ∪ m_ignored c) c).

(** [operator++] *)
Definition next_inst : M unit :=
  modify (fun c =>
    set_position (m_func c) (m_bb c)
      (match m_inst c with Some (b, i) => Some (b, S i) | None => None end)
      (m_prev c) c).

(** [getRegister]: the register of [v] declared here or by an ancestor. *)
Fixpoint getRegister (c : Bv2OpSemContext) (v : ValuePtr) : option Expr :=
  match c with
  | mkContext _ _ _ _ _ _ _ _ _ _ _ _ _ v2r parent =>
      match v2r !! v with
      | Some r => Some r
      | None =>
          match parent with
          | Some p => getRegister p v
          | None => None
          end
      end
  end.

(** [declareRegister]: [m_registers] is a set. *)
Definition declareRegister (r : Expr) (rs : list Expr) : list Expr :=
  if bool_decide (r ∈ rs) then rs else r :: rs.

Definition isKnownRegister (c : Bv2OpSemContext) (r : Expr) : bool :=
  bool_decide (r ∈ m_registers c).

(** The value a register term names. *)
Definition registerValue (r : Expr) : option ValuePtr :=
  match r with
  | FAPP (VALUE v) _ | FAPP (BASICBLOCK v) _ | FAPP (SELECT (VALUE v) _) _ =>
      Some v
  | _ => None
  end.

(** The forking constructor [Bv2OpSemContext(values, side, o)]: everything
    is copied but the value-to-register map, the ALU and the memory
    manager, which are reached through [m_parent]. *)
Definition fork (values : SymStore) (side : list Expr) (o : Bv2OpSemContext)
    : Bv2OpSemContext :=
  mkContext values side (m_func o) (m_bb o) (m_inst o) (m_prev o)
    (m_readRegister o) (m_writeRegister o) (m_scalar o) (m_trfrReadReg o)
    (m_fparams o) (m_ignored o) (m_registers o) ∅ (Some o).

(** ** Configuration and collaborators *)

(** The command-line options of BvOpSem2.cc that the modelled code reads. *)
Record Options := mkOptions {
  EnableUniqueScalars2 : bool;     (* horn-bv2-singleton-aliases *)
  IgnoreCalloc2 : bool;            (* horn-bv2-ignore-calloc *)
  SimplifyOnWrite : bool           (* horn-bv2-simplify *)
}.

(** [llvm::GenericValue], reduced to its integer component. *)
Record GenericValue := mkGenericValue { IntVal : Z }.

(** [OpSemAlu] (BvOpSem2Context.hh): the abstract ALU, reduced to the
    operations the modelled code calls. *)
Class OpSemAlu := {
  intTy : N -> Expr;
  si : Z -> N -> Expr;
  boolToBv1 : Expr -> Expr;
  bv1ToBool : Expr -> Expr
}.

(** [OpSemMemManager] (BvOpSem2Context.hh): declared there, defined outside
    the sources. Its memory operations may write the store, print and end
    the run, so they live in [M]. *)
Class OpSemMemManager := {
  ptrSort : Expr;
  nullPtr : Expr;
  mkPtrRegisterSort : ValuePtr -> Expr;
  mkMemRegisterSort : ValuePtr -> Expr;
  coerce : Expr -> Expr -> Expr;
  mem_loadValueFromMem : Expr -> Expr -> Type_ -> N -> M (option Expr);
  mem_storeValueToMem :
    Expr -> Expr -> Expr -> Expr -> Type_ -> N -> M (option Expr);
  mem_MemSet : Expr -> Expr -> N -> Expr -> Expr -> N -> M (option Expr);
  mem_MemCpy : Expr -> Expr -> N -> Expr -> Expr -> Expr -> N -> M (option Expr)
}.

(** Declarations the modelled code uses whose definitions are outside the
    sources: the enumerators of [TrackLevel], the error flag of the base
    class [OperationalSemantics], [boolop::lor], [toMpz], the Z3 simplifier
    and, from [Bv2OpSem::getConstantValue], the evaluation of constant
    expressions and of floating-point and aggregate constants on LLVM's
    [APInt]/[APFloat]. *)
Class Externals := {
  PTR : nat;
  MEM : nat;
  OperationalSemantics_errorFlag : ValuePtr -> Expr;
  boolop_lor : Expr -> Expr -> Expr;
  toMpz : Z -> Z;
  z3_simplify : Expr -> Expr;
  foldConstantExpr : ValuePtr -> Outcome (option GenericValue)
}.

(** [Bv2OpSem]: the semantics object, with the module its values live in
    and the data layout's [getTypeSizeInBits]. *)
Record Bv2OpSem := mkBv2OpSem {
  theModule : Module;
  m_trackLvl : nat;
  m_canFail : option (ValuePtr -> bool);
  sizeInBits : Type_ -> N
}.

Section Semantics.

Context {alu : OpSemAlu} {mem : OpSemMemManager} {ext : Externals}.
Variable opts : Options.
Variable m_sem : Bv2OpSem.

(** The value stored at an address. *)
Definition valueAt (v : ValuePtr) : Value := theModule m_sem v.

(** [BasicBlock::getParent] and [Instruction::getParent]. *)
Definition getParent (v : ValuePtr) : ValuePtr :=
  match kind (valueAt v) with
  | BasicBlockVal p _ => p
  | InstructionVal p _ => p
  | _ => v
  end.

Definition instructions (bb : ValuePtr) : list ValuePtr :=
  match kind (valueAt bb) with
  | BasicBlockVal _ insts => insts
  | _ => []
  end.

(** The wrapper [isShadowMem] of the anonymous namespace: the scalar is
    handed out only under [EnableUniqueScalars2]; callers start from a
    null [scalar]. *)
Definition isShadowMem (v : ValuePtr) : bool * option ValuePtr :=
  match shadowMem (valueAt v) with
  | Some scalar => (true, if EnableUniqueScalars2 opts then scalar else None)
  | None => (false, None)
  end.

(** [Bv2OpSem::isSkipped] *)
Definition isSkipped (v : ValuePtr) : Outcome bool :=
  let '(sm, scalar) := isShadowMem v in
  if sm then Ok (bool_decide (scalar = None) && Nat.ltb (m_trackLvl m_sem) MEM) []
  else
    match getType (valueAt v) with
    | PointerTy _ =>
        if onlyUsedByShadowMem (valueAt v) then Ok true []
        else Ok (Nat.ltb (m_trackLvl m_sem) PTR) []
    | VoidTy => Ok false []
    | HalfTy | FloatTy | DoubleTy | X86_FP80Ty | FP128Ty | PPC_FP128Ty =>
        Ok true []
    | LabelTy => Fatal "Unexpected label type"
    | MetadataTy => Fatal "Unexpected metadata type"
    | X86_MMXTy => Ok true [LOG "opsem" "Unsupported X86 type"]
    | TokenTy => Fatal "Unexpected token type"
    | IntegerTy _ => Ok false []
    | FunctionTy => Fatal "Unexpected function type"
    | StructTy => Ok true [LOG "opsem" "Unsupported struct type"]
    | ArrayTy => Ok true [LOG "opsem" "Unsupported array type"]
    | VectorTy => Ok true [LOG "opsem" "Unsupported vector type"]
    end.

(** [Bv2OpSem::getConstantValue], on simple constants; constant
    expressions go to [foldConstantExpr]. *)
Definition Bv2OpSem_getConstantValue (C : ValuePtr) : Outcome (option GenericValue) :=
  match kind (valueAt C) with
  | UndefValueVal => Ok (Some (mkGenericValue 0)) []
  | ConstantExprVal _ => foldConstantExpr C
  | ConstantIntVal z => Ok (Some (mkGenericValue z)) []
  | ConstantPointerNullVal => Ok (Some (mkGenericValue 0)) []
  | FunctionVal _ =>
      Ok None [WARN "Unhandled function pointer in a constant expression"]
  | GlobalVariableVal =>
      Ok None [WARN "Unhandled global variable in a constant expression"]
  | _ => Fatal "Unknown constant pointer type!"
  end.

(** [Bv2OpSem::errorFlag] *)
Definition errorFlag (BB : ValuePtr) : Expr :=
  match m_canFail m_sem with
  | Some canFail =>
      if negb (canFail (getParent BB)) then FALSE
      else OperationalSemantics_errorFlag BB
  | None => OperationalSemantics_errorFlag BB
  end.

(** The value [Bv2OpSemContext::write] stores for [u]: [u] itself, or
    what the simplifier makes of it under [SimplifyOnWrite]. *)
Definition written (u : Expr) : Expr :=
  if SimplifyOnWrite opts then z3_simplify u else u.

(** [Bv2OpSemContext::write] *)
Definition ctx_write (v u : Expr) : M unit :=
  OpSemContext_write v (written u).

(** [getMemManager () != nullptr]: the constructor of a root context
    installs a memory manager, the forking constructor leaves it null. *)
Definition hasMemManager (c : Bv2OpSemContext) : bool :=
  match m_parent c with None => true | Some _ => false end.

(** [Bv2OpSemContext::getConstantValue] *)
Definition ctx_getConstantValue (c : ValuePtr) : M (option Expr) :=
  let V := valueAt c in
  if isNullValue (kind V) || isConstantPointerNull (kind V) then
    ret (Some (if isIntegerTyN (getType V) 1 then si 0 1 else nullPtr))
  else
    match kind V with
    | ConstantIntVal z =>
        if isIntegerTyN (getType V) 1 then
          ret (Some (if Z.eqb z 1 then si 1 1 else si 0 1))
        else ret (Some (si (toMpz z) (sizeInBits m_sem (getType V))))
    | _ =>
        if isIntegerTy (getType V) then
          GVO <- lift (Bv2OpSem_getConstantValue c);;
          match GVO with
          | Some gv =>
              ret (Some (si (toMpz (IntVal gv)) (sizeInBits m_sem (getType V))))
          | None => ret None
          end
        else if isPointerTy (getType V) then
          emit (LOG "opsem" "unhandled constant pointer");; ret None
        else
          emit (LOG "opsem" "unhandled constant");; ret None
    end.

(** *** Registers: [Bv2OpSemContext::mkRegister] *)

(** The tail shared by the four overloads: declare the register and map
    the value to it ([DenseMap::insert] keeps an entry already there). *)
Definition insertRegister (v : ValuePtr) (reg : Expr) : M Expr :=
  modify (fun c =>
    set_registers (declareRegister reg (m_registers c))
      (match m_valueToRegister c !! v with
       | Some _ => m_valueToRegister c
       | None => <[v := reg]> (m_valueToRegister c)
       end) c);;
  ret reg.

(** [mkRegister (const llvm::BasicBlock &)] *)
Definition mkRegister_BasicBlock (bb : ValuePtr) : M Expr :=
  r <- gets (fun c => getRegister c bb);;
  match r with
  | Some r => ret r
  | None => insertRegister bb (boolConst (BASICBLOCK bb))
  end.

(** The register a fresh instruction is given, when its type has one. *)
Definition newInstRegister (inst : ValuePtr) : Outcome Expr :=
  let v := VALUE inst in
  let '(sm, scalar) := isShadowMem inst in
  if sm then
    match scalar with
    | Some s =>
        match getType (valueAt s) with
        | PointerTy eTy =>
            Ok (mkConst (SELECT v (VALUE s)) (intTy (sizeInBits m_sem eTy))) []
        | _ => Fatal "scalar->getType()->isPointerTy()"
        end
    | None => Ok (mkConst v (mkMemRegisterSort inst)) []
    end
  else
    match getType (valueAt inst) with
    | IntegerTy _ =>
        Ok (mkConst v (intTy (sizeInBits m_sem (getType (valueAt inst))))) []
    | PointerTy _ => Ok (mkConst v (mkPtrRegisterSort inst)) []
    | _ => Fatal "Error: unhandled type"
    end.

(** [mkRegister (const llvm::Instruction &)] *)
Definition mkRegister_Instruction (inst : ValuePtr) : M Expr :=
  r <- gets (fun c => getRegister c inst);;
  match r with
  | Some r => ret r
  | None => reg <- lift (newInstRegister inst);; insertRegister inst reg
  end.

(** [mkRegister (const llvm::Function &)] *)
Definition mkRegister_Function (fn : ValuePtr) : M Expr :=
  r <- gets (fun c => getRegister c fn);;
  match r with
  | Some r => ret r
  | None => insertRegister fn (mkConst (VALUE fn) (mkPtrRegisterSort fn))
  end.

(** [mkRegister (const llvm::GlobalVariable &)] *)
Definition mkRegister_GlobalVariable (gv : ValuePtr) : M Expr :=
  r <- gets (fun c => getRegister c gv);;
  match r with
  | Some r => ret r
  | None => insertRegister gv (mkConst (VALUE gv) (mkPtrRegisterSort gv))
  end.

(** [mkRegister (const llvm::Value &)] *)
Definition mkRegister (v : ValuePtr) : M Expr :=
  match kind (valueAt v) with
  | BasicBlockVal _ _ => mkRegister_BasicBlock v
  | InstructionVal _ _ => mkRegister_Instruction v
  | FunctionVal _ => mkRegister_Function v
  | GlobalVariableVal => mkRegister_GlobalVariable v
  | _ => llvm_unreachable "cannot make symbolic register"
  end.

(** *** Operands *)

(** [Bv2OpSem::getOperandValue] *)
Definition getOperandValue (v : ValuePtr) : M (option Expr) :=
  match kind (valueAt v) with
  | BasicBlockVal _ _ =>
      reg <- gets (fun c => getRegister c v);;
      match reg with
      | Some reg => e <- ctx_read reg;; ret (Some e)
      | None => ret None
      end
  | FunctionVal _ | GlobalVariableVal =>
      reg <- gets (fun c => getRegister c v);;
      match reg with
      | Some reg => e <- ctx_read reg;; ret (Some e)
      | None => ctx_getConstantValue v
      end
  | ConstantIntVal _ | ConstantPointerNullVal | UndefValueVal
  | ConstantExprVal _ =>
      res <- ctx_getConstantValue v;;
      assert_ (bool_decide (is_Some res)) "res";;
      ret res
  | _ =>
      reg <- gets (fun c => getRegister c v);;
      match reg with
      | Some reg => e <- ctx_read reg;; ret (Some e)
      | None => emit (WARN "Failed to get register for");; ret None
      end
  end.

(** *** [OpSemVisitorBase] *)

Definition lookup (v : ValuePtr) : M (option Expr) := getOperandValue v.

(** [Bv2OpSem::unhandledInst] *)
Definition unhandledInst (inst : ValuePtr) : M unit :=
  ign <- isIgnored inst;;
  if ign then ret tt
  else ignore inst;; emit (LOG "opsem" "unhandled instruction").

(** [Bv2OpSem::unhandledValue] *)
Definition unhandledValue (v : ValuePtr) : M unit :=
  match kind (valueAt v) with
  | InstructionVal _ _ => unhandledInst v
  | _ => emit (LOG "opsem" "unhandled value")
  end.

(** [OpSemVisitorBase::havoc] *)
Definition havoc (v : ValuePtr) : M (option Expr) :=
  sk <- lift (isSkipped v);;
  if sk then ret None
  else
    hm <- gets hasMemManager;;
    assert_ hm "m_ctx.getMemManager()";;
    reg <- gets (fun c => getRegister c v);;
    match reg with
    | Some reg =>
        f <- ctx_havoc reg;;
        let h := coerce reg f in
        ctx_write reg h;; ret (Some h)
    | None =>
        reg <- mkRegister v;;
        f <- ctx_havoc reg;;
        let h := coerce reg f in
        ctx_write reg h;; ret (Some h)
    end.

(** [OpSemVisitorBase::write] *)
Definition write (v : ValuePtr) (val : Expr) : M unit :=
  sk <- lift (isSkipped v);;
  if sk then ret tt
  else
    reg <- gets (fun c => getRegister c v);;
    match reg with
    | Some reg => ctx_write reg val
    | None =>
        assert_ (negb (isConstant (kind (valueAt v)))) "!isa<Constant>(v)";;
        reg <- mkRegister v;;
        ctx_write reg val
    end.

(** [OpSemVisitorBase::setValue] *)
Definition setValue (v : ValuePtr) (e : option Expr) : M unit :=
  match e with
  | Some e => write v e
  | None => unhandledValue v;; _ <- havoc v;; ret tt
  end.

(** [Bv2OpSemContext::onBasicBlockEntry] *)
Definition onBasicBlockEntry (bb : ValuePtr) : M unit :=
  modify (fun c =>
    set_position
      (match m_func c with Some f => Some f | None => Some (getParent bb) end)
      (m_bb c) (m_inst c) (m_prev c) c);;
  f <- gets m_func;;
  assert_ (bool_decide (f = Some (getParent bb))) "m_func == bb.getParent()";;
  modify (fun c =>
    set_position (m_func c) (Some bb) (Some (bb, 0))
      (match m_bb c with Some b => Some b | None => m_prev c end) c).

(** *** Memory operations of the machine *)

(** [Bv2OpSemContext::loadValueFromMem] *)
Definition ctx_loadValueFromMem (ptr : Expr) (ty : Type_) (align : N)
    : M (option Expr) :=
  hm <- gets hasMemManager;;
  assert_ hm "m_memManager";;
  r <- getMemReadRegister;;
  match r with
  | None => llvm_unreachable "getMemReadRegister()"
  | Some r => mem_loadValueFromMem ptr r ty align
  end.

(** [Bv2OpSemContext::storeValueToMem] *)
Definition ctx_storeValueToMem (val ptr : Expr) (ty : Type_) (align : N)
    : M (option Expr) :=
  hm <- gets hasMemManager;;
  assert_ hm "m_memManager";;
  r <- getMemReadRegister;;
  w <- getMemWriteRegister;;
  match r, w with
  | Some r, Some w => mem_storeValueToMem val ptr r w ty align
  | None, _ => llvm_unreachable "getMemReadRegister()"
  | _, None => llvm_unreachable "getMemWriteRegister()"
  end.

(** An [uint64_t] passed for an [unsigned] parameter. *)
Definition to_unsigned (n : N) : N := (n mod 2 ^ 32)%N.

(** [Bv2OpSemContext::MemSet]; [len] arrives as an [unsigned]. *)
Definition ctx_MemSet (ptr val : Expr) (len : N) (align : N) : M (option Expr) :=
  let len := to_unsigned len in
  hm <- gets hasMemManager;;
  assert_ hm "m_memManager";;
  r <- getMemReadRegister;;
  w <- getMemWriteRegister;;
  match r, w with
  | Some r, Some w => mem_MemSet ptr val len r w align
  | None, _ => llvm_unreachable "getMemReadRegister()"
  | _, None => llvm_unreachable "getMemWriteRegister()"
  end.

(** [Bv2OpSemContext::MemCpy]; [len] arrives as an [unsigned]. *)
Definition ctx_MemCpy (dPtr sPtr : Expr) (len : N) (align : N) : M (option Expr) :=
  let len := to_unsigned len in
  hm <- gets hasMemManager;;
  assert_ hm "m_memManager";;
  t <- getMemTrsfrReadReg;;
  r <- getMemReadRegister;;
  w <- getMemWriteRegister;;
  match t, r, w with
  | Some t, Some r, Some w => mem_MemCpy dPtr sPtr len t r w align
  | None, _, _ => llvm_unreachable "getMemTrsfrReadReg()"
  | _, None, _ => llvm_unreachable "getMemReadRegister()"
  | _, _, None => llvm_unreachable "getMemWriteRegister()"
  end.

(** *** [OpSemVisitor]: loads, stores, memset, memcpy, calloc *)

(** [OpSemVisitor::executeLoadInst] *)
Definition executeLoadInst (addr : ValuePtr) (alignment : N) (ty : Type_)
    : M (option Expr) :=
  r <- getMemReadRegister;;
  match r with
  | None => ret None
  | Some rreg =>
      sc <- isMemScalar;;
      res <-
        (if sc then
           v <- ctx_read rreg;;
           ret (Some (if isIntegerTyN ty 1 then bv1ToBool v else v))
         else
           op0 <- lookup addr;;
           match op0 with
           | Some op0 => ctx_loadValueFromMem op0 ty alignment
           | None => ret None
           end);;
      setMemReadRegister None;;
      ret res
  end.

(** [OpSemVisitor::executeStoreInst] *)
Definition executeStoreInst (val addr : ValuePtr) (alignment : N)
    : M (option Expr) :=
  r <- getMemReadRegister;;
  w <- getMemWriteRegister;;
  skip <-
    (match r, w with
     | Some _, Some _ => lift (isSkipped val)
     | _, _ => ret true
     end);;
  if skip : bool then
    emit (LOG "opsem" "Skipping store");;
    setMemReadRegister None;;
    setMemWriteRegister None;;
    ret None
  else
    v <- lookup val;;
    sc <- isMemScalar;;
    res <-
      (match v, sc with
       | Some v, true =>
           let v := if isIntegerTyN (getType (valueAt val)) 1
                    then boolToBv1 v else v in
           wreg <- getMemWriteRegister;;
           match wreg with
           | Some wreg => ctx_write wreg v;; ret (Some v)
           | None => llvm_unreachable "getMemWriteRegister()"
           end
       | _, _ =>
           p <- lookup addr;;
           match v, p with
           | Some v, Some p =>
               ctx_storeValueToMem v p (getType (valueAt val)) alignment
           | _, _ => ret None
           end
       end);;
    (if bool_decide (res = None) then emit (LOG "opsem" "Skipping store")
     else ret tt);;
    setMemReadRegister None;;
    setMemWriteRegister None;;
    ret res.

(** [OpSemVisitor::visitLoadInst] *)
Definition visitLoadInst (I : ValuePtr) : M unit :=
  match kind (valueAt I) with
  | InstructionVal _ (Load ptr align) =>
      res <- executeLoadInst ptr align (getType (valueAt I));;
      setValue I res
  | _ => llvm_unreachable "cast<LoadInst>"
  end.

(** [OpSemVisitor::visitStoreInst] *)
Definition visitStoreInst (I : ValuePtr) : M unit :=
  match kind (valueAt I) with
  | InstructionVal _ (Store val ptr align) =>
      _ <- executeStoreInst val ptr align;; ret tt
  | _ => llvm_unreachable "cast<StoreInst>"
  end.

(** [dyn_cast<const ConstantInt>] followed by [getZExtValue]. *)
Definition asConstantInt (v : ValuePtr) : option N :=
  match kind (valueAt v) with
  | ConstantIntVal z => Some (Z.to_N z)
  | _ => None
  end.

(** [OpSemVisitor::executeMemSetInst] *)
Definition executeMemSetInst (dst val length : ValuePtr) (alignment : N)
    : M (option Expr) :=
  r <- getMemReadRegister;;
  w <- getMemWriteRegister;;
  skip <-
    (match r, w with
     | Some _, Some _ =>
         sd <- lift (isSkipped dst);;
         if sd : bool then ret true else lift (isSkipped val)
     | _, _ => ret true
     end);;
  if skip : bool then
    emit (LOG "opsem" "Skipping memset");;
    setMemReadRegister None;;
    setMemWriteRegister None;;
    ret None
  else
    sc <- isMemScalar;;
    (if sc : bool then llvm_unreachable "memset to scalars is not supported"
     else ret tt);;
    addr <- lookup dst;;
    assert_ (isIntegerTyN (getType (valueAt val)) 8)
      "val.getType()->isIntegerTy(8)";;
    v <- lookup val;;
    len <- lookup length;;
    res <-
      (match v, addr with
       | Some v, Some addr =>
           match asConstantInt length with
           | Some n => ctx_MemSet addr v n alignment
           | None => llvm_unreachable "Unsupported memset with symbolic length"
           end
       | _, _ => ret None
       end);;
    (if bool_decide (res = None) then emit (LOG "opsem" "Skipping memset")
     else ret tt);;
    setMemReadRegister None;;
    setMemWriteRegister None;;
    ret res.

(** [OpSemVisitor::executeMemCpyInst] *)
Definition executeMemCpyInst (dst src length : ValuePtr) (alignment : N)
    : M (option Expr) :=
  r <- getMemReadRegister;;
  w <- getMemWriteRegister;;
  t <- getMemTrsfrReadReg;;
  skip <-
    (match r, w, t with
     | Some _, Some _, Some _ =>
         sd <- lift (isSkipped dst);;
         if sd : bool then ret true else lift (isSkipped src)
     | _, _, _ => ret true
     end);;
  if skip : bool then
    emit (LOG "opsem" "skipping memcpy");;
    setMemTrsfrReadReg None;;
    setMemReadRegister None;;
    setMemWriteRegister None;;
    ret None
  else
    sc <- isMemScalar;;
    (if sc : bool then llvm_unreachable "memcpy to scalars is not supported"
     else ret tt);;
    dstAddr <- lookup dst;;
    srcAddr <- lookup src;;
    len <- lookup length;;
    res <-
      (match dstAddr, srcAddr with
       | Some dstAddr, Some srcAddr =>
           match asConstantInt length with
           | Some n => ctx_MemCpy dstAddr srcAddr n alignment
           | None => llvm_unreachable "Unsupported memcpy with symbolic length"
           end
       | _, _ => ret None
       end);;
    (if bool_decide (res = None) then emit (LOG "opsem" "Skipping memcpy")
     else ret tt);;
    setMemTrsfrReadReg None;;
    setMemReadRegister None;;
    setMemWriteRegister None;;
    ret res.

(** [ctx.read (ctx.getMemWriteRegister ())] and the like: reading through a
    null register has no meaning. *)
Definition readMemRegister (r : option Expr) (what : string) : M Expr :=
  match r with
  | Some r => ctx_read r
  | None => llvm_unreachable what
  end.

(** [OpSemVisitor::visitCallocCall], for the call instruction [inst]. The
    guard tests the read register twice, as the source does. The two
    arguments of [addDef] are evaluated from left to right; the order only
    shows when one of the registers has no value yet. *)
Definition visitCallocCall (inst : ValuePtr) : M unit :=
  r1 <- getMemReadRegister;;
  r2 <- getMemReadRegister;;
  if bool_decide (r1 = None) || bool_decide (r2 = None) then
    emit (LOG "opsem" "treating calloc() as nop")
  else
    sc <- isMemScalar;;
    assert_ (negb sc) "!m_ctx.isMemScalar()";;
    (if IgnoreCalloc2 opts then
       emit (LOG "opsem" "treating calloc() as malloc()");;
       w <- getMemWriteRegister;;
       wv <- readMemRegister w "getMemWriteRegister()";;
       r <- getMemReadRegister;;
       rv <- readMemRegister r "getMemReadRegister()";;
       addDef wv rv
     else
       emit (LOG "opsem"
               "allowing calloc() to zero initialize ALL of its memory region");;
       w <- getMemWriteRegister;;
       wv <- readMemRegister w "getMemWriteRegister()";;
       addDef wv (CONST_ARRAY ptrSort nullPtr));;
    h <- havoc inst;;
    setValue inst h.

(** *** [OpSemPhiVisitor] *)

(** [PHINode::getIncomingValueForBlock] *)
Definition getIncomingValueForBlock (incoming : list (ValuePtr * ValuePtr))
    (bb : option ValuePtr) : M ValuePtr :=
  match bb with
  | None => llvm_unreachable "Invalid basic block argument!"
  | Some bb =>
      match List.find (fun p => Pos.eqb (fst p) bb) incoming with
      | Some p => ret (snd p)
      | None => llvm_unreachable "Invalid basic block argument!"
      end
  end.

(** The first loop of [OpSemPhiVisitor::visitBasicBlock]: the incoming
    values of the tracked PHI nodes that open the block, in order. *)
Fixpoint readIncoming (insts : list ValuePtr) : M (list (option Expr)) :=
  match insts with
  | [] => ret []
  | phi :: rest =>
      match isPHINode (kind (valueAt phi)) with
      | None => ret []
      | Some incoming =>
          sk <- lift (isSkipped phi);;
          if sk : bool then readIncoming rest
          else
            prev <- getPrevBb;;
            v <- getIncomingValueForBlock incoming prev;;
            e <- lookup v;;
            ops <- readIncoming rest;;
            ret (e :: ops)
      end
  end.

(** The second loop: the values are given to the PHI registers. *)
Fixpoint writePhis (insts : list ValuePtr) (ops : list (option Expr)) : M unit :=
  match insts with
  | [] => ret tt
  | phi :: rest =>
      match isPHINode (kind (valueAt phi)) with
      | None => ret tt
      | Some _ =>
          sk <- lift (isSkipped phi);;
          if sk : bool then writePhis rest ops
          else
            match ops with
            | e :: ops' => setValue phi e;; writePhis rest ops'
            | [] => llvm_unreachable "ops[i]"
            end
      end
  end.

(** [OpSemPhiVisitor::visitBasicBlock] *)
Definition visitBasicBlock_Phi (BB : ValuePtr) : M unit :=
  ops <- readIncoming (instructions BB);;
  writePhis (instructions BB) ops.

(** [Bv2OpSem::intraPhi] *)
Definition intraPhi : M unit :=
  prev <- getPrevBb;;
  assert_ (bool_decide (is_Some prev)) "C.getPrevBb()";;
  bb <- getCurrBb;;
  match bb with
  | Some bb => visitBasicBlock_Phi bb
  | None => llvm_unreachable "*C.getCurrBb()"
  end.

(** *** Branches: [Bv2OpSem::intraBr] *)

(** [getCurrentInst]: the instruction under the iterator. *)
Definition getCurrentInst (c : Bv2OpSemContext) : option ValuePtr :=
  match m_inst c with
  | Some (bb, i) => instructions bb !! i
  | None => None
  end.

(** The current value of the error flag of the current block. *)
Definition readErrorFlag : M Expr :=
  bb <- getCurrBb;;
  match bb with
  | Some bb => ctx_read (errorFlag bb)
  | None => llvm_unreachable "*C.getCurrBb()"
  end.

(** [Bv2OpSem::intraBr] *)
Definition intraBr (dst : ValuePtr) : M unit :=
  cur <- gets getCurrentInst;;
  match cur with
  | None => llvm_unreachable "C.getCurrentInst()"
  | Some inst =>
      match kind (valueAt inst) with
      | InstructionVal _ (CondBr c succ0 succ1) =>
          next_inst;;
          if isConstant (kind (valueAt c)) then
            gv <- lift (Bv2OpSem_getConstantValue c);;
            match gv with
            | None => llvm_unreachable "gv.hasValue()"
            | Some gv =>
                if (Z.eqb (IntVal gv) 1 && negb (Pos.eqb succ0 dst))
                   || (Z.eqb (IntVal gv) 0 && negb (Pos.eqb succ1 dst))
                then
                  resetSide;;
                  e <- readErrorFlag;;
                  addScopedSide e
                else ret tt
            end
          else
            target <- getOperandValue c;;
            match target with
            | Some target =>
                let cond := if Pos.eqb succ0 dst then target else NEG target in
                e <- readErrorFlag;;
                addScopedSide (boolop_lor e cond);;
                onBasicBlockEntry dst
            | None => ret tt
            end
      | InstructionVal _ (Br succ0) =>
          next_inst;;
          if negb (Pos.eqb succ0 dst) then
            resetSide;;
            e <- readErrorFlag;;
            addScopedSide e
          else onBasicBlockEntry dst
      | _ => ret tt
      end
  end.

(** *** Edges excluded by the terminator *)

(** The terminator [inst] statically selects a successor other than [dst]:
    an unconditional branch elsewhere, or a conditional branch on a
    constant that evaluates to 1 with another first successor, or to 0 with
    another second successor. *)
Definition staticallyExcluded (inst dst : ValuePtr) : bool :=
  match kind (valueAt inst) with
  | InstructionVal _ (Br succ0) => negb (Pos.eqb succ0 dst)
  | InstructionVal _ (CondBr c succ0 succ1) =>
      isConstant (kind (valueAt c)) &&
      match Bv2OpSem_getConstantValue c with
      | Ok (Some gv) _ =>
          (Z.eqb (IntVal gv) 1 && negb (Pos.eqb succ0 dst))
          || (Z.eqb (IntVal gv) 0 && negb (Pos.eqb succ1 dst))
      | _ => false
      end
  | _ => false
  end.

(** *** PHI nodes: what a parallel assignment speaks of *)

(** One tracked PHI node of a block entered from [prev], seen from the
    state at block entry: the node, its incoming value for [prev], its
    register, and the value of the incoming operand at block entry. *)
Record PhiAssign := mkPhiAssign {
  pa_phi : ValuePtr;
  pa_incoming : ValuePtr;
  pa_reg : Expr;
  pa_val : Expr
}.

(** From [c] to [c1] nothing was written: at most the store changed, and
    there every register that held a value still holds it (a read can
    only give a value to a register that had none). *)
Definition readsOnly (c c1 : Bv2OpSemContext) : Prop :=
  c1 = set_values (m_values c1) c
  /\ forall r a, store_get (m_values c) r = Some a ->
                 store_get (m_values c1) r = Some a.

(** The instructions after the PHI nodes of a block. *)
Definition startsWithoutPhi (rest : list ValuePtr) : Prop :=
  match rest with
  | [] => True
  | i :: _ => isPHINode (kind (valueAt i)) = None
  end.

(** *** Registers of a lineage: what the invariant speaks of *)

(** The kinds of value [mkRegister] has an overload for. *)
Definition registerable (v : ValuePtr) : bool :=
  match kind (valueAt v) with
  | BasicBlockVal _ _ | InstructionVal _ _ | FunctionVal _
  | GlobalVariableVal => true
  | _ => false
  end.

(** The register [mkRegister] builds for a value that has none: a term
    over the value alone. *)
Definition newRegister (v : ValuePtr) : Outcome Expr :=
  match kind (valueAt v) with
  | BasicBlockVal _ _ => Ok (boolConst (BASICBLOCK v)) []
  | InstructionVal _ _ => newInstRegister v
  | FunctionVal _ | GlobalVariableVal =>
      Ok (mkConst (VALUE v) (mkPtrRegisterSort v)) []
  | _ => Fatal "cannot make symbolic register"
  end.

(** Every association a context can see, its own or an ancestor's, is the
    register determined by the value. *)
Fixpoint canonical (c : Bv2OpSemContext) : Prop :=
  match c with
  | mkContext _ _ _ _ _ _ _ _ _ _ _ _ _ v2r parent =>
      (forall v r, v2r !! v = Some r -> exists l, newRegister v = Ok r l)
      /\ match parent with
         | Some p => canonical p
         | None => True
         end
  end.

(** *** The PHI nodes that open a block *)

(** The register of the PHI node of [x]: the one the node has in [c] or,
    when it has none yet, the one [mkRegister] builds for it. *)
Definition phi_register (c : Bv2OpSemContext) (x : PhiAssign) : Prop :=
  getRegister c (pa_phi x) = Some (pa_reg x)
  \/ (getRegister c (pa_phi x) = None
      /\ newRegister (pa_phi x) = Ok (pa_reg x) []).

(** A PHI node the semantics tracks, in a block entered from [prev], seen
    from the state [c] at block entry. Its incoming operand for [prev] is
    resolved in [c]: looking it up gives a term and leaves [c] as it is (a
    constant, or a value whose register holds a value). *)
Definition tracked_phi (c : Bv2OpSemContext) (prev : ValuePtr)
    (x : PhiAssign) : Prop :=
  exists parent incoming b,
    kind (valueAt (pa_phi x)) = InstructionVal parent (PHI incoming)
    /\ isSkipped (pa_phi x) = Ok false []
    /\ List.find (fun p => Pos.eqb (fst p) prev) incoming = Some (b, pa_incoming x)
    /\ phi_register c x
    /\ lookup (pa_incoming x) c = Done (Some (pa_val x)) c [].

(** One of the PHI nodes that open a block: skipped by the semantics (with
    the diagnostics [isSkipped] prints each time it is asked), or
    tracked. *)
Inductive LeadingPhi :=
| SkippedPhi (phi : ValuePtr) (log : list Diag)
| TrackedPhi (x : PhiAssign).

Definition lp_phi (p : LeadingPhi) : ValuePtr :=
  match p with
  | SkippedPhi phi _ => phi
  | TrackedPhi x => pa_phi x
  end.

Definition leading_phi (c : Bv2OpSemContext) (prev : ValuePtr)
    (p : LeadingPhi) : Prop :=
  match p with
  | SkippedPhi phi log =>
      (exists parent incoming,
         kind (valueAt phi) = InstructionVal parent (PHI incoming))
      /\ isSkipped phi = Ok true log
  | TrackedPhi x => tracked_phi c prev x
  end.

(** What the second loop needs of a PHI node in the state [c] it finds:
    the node is skipped, or tracked with a register it has or can be
    given. *)
Definition writable_phi (c : Bv2OpSemContext) (p : LeadingPhi) : Prop :=
  match p with
  | SkippedPhi phi log =>
      (exists parent incoming,
         kind (valueAt phi) = InstructionVal parent (PHI incoming))
      /\ isSkipped phi = Ok true log
  | TrackedPhi x =>
      (exists parent incoming,
         kind (valueAt (pa_phi x)) = InstructionVal parent (PHI incoming))
      /\ isSkipped (pa_phi x) = Ok false []
      /\ phi_register c x
  end.

(** The tracked nodes among them, in the order of the block. *)
Fixpoint assignments (items : list LeadingPhi) : list PhiAssign :=
  match items with
  | [] => []
  | SkippedPhi _ _ :: items => assignments items
  | TrackedPhi x :: items => x :: assignments items
  end.

(** What one pass over them prints: the diagnostics of the skipped ones. *)
Fixpoint skipLog (items : list LeadingPhi) : list Diag :=
  match items with
  | [] => []
  | SkippedPhi _ log :: items => log ++ skipLog items
  | TrackedPhi _ :: items => skipLog items
  end.

(** What [setValue] does to the machine for a tracked PHI node and the
    value of its operand: the node is given its register if it had none,
    and the register is given the value. *)
Definition assignPhi (c : Bv2OpSemContext) (x : PhiAssign) : Bv2OpSemContext :=
  let c1 :=
    match getRegister c (pa_phi x) with
    | Some _ => c
    | None =>
        set_registers (declareRegister (pa_reg x) (m_registers c))
          (<[pa_phi x := pa_reg x]> (m_valueToRegister c)) c
    end in
  set_values (store_write (m_values c1) (pa_reg x) (written (pa_val x))) c1.

(** From [c] to [c'] at most the store and the registers declared
    differ. *)
Definition sameButRegisters (c c' : Bv2OpSemContext) : Prop :=
  c' = set_registers (m_registers c') (m_valueToRegister c')
         (set_values (m_values c') c).

(** A PHI node the two loops get past, in a block entered from [prev] in
    the state [c]: it is skipped; or it is tracked, it has a register or a
    type [mkRegister] has a register for, it has an incoming value for
    [prev] whose lookup returns and, when the lookup gives no term, the
    machine has the memory manager [havoc] asserts. *)
Definition ready_phi (c : Bv2OpSemContext) (prev phi : ValuePtr) : Prop :=
  exists parent incoming,
    kind (valueAt phi) = InstructionVal parent (PHI incoming)
    /\ ((exists l, isSkipped phi = Ok true l)
        \/ (isSkipped phi = Ok false []
            /\ (is_Some (getRegister c phi)
                \/ exists r l, newRegister phi = Ok r l)
            /\ exists b v e c1 l,
                 List.find (fun p => Pos.eqb (fst p) prev) incoming = Some (b, v)
                 /\ lookup v c = Done e c1 l
                 /\ (is_Some e \/ hasMemManager c = true))).

(** From [c] to [c'] nothing was written but to the register of [v]:
    the associations of [c] are kept, they stay the ones determined by the
    values, the parent is the same, and every register other than the one
    of [v] holds what it held. *)
Definition writesOnlyTo (v : ValuePtr) (c c' : Bv2OpSemContext) : Prop :=
  canonical c'
  /\ m_parent c' = m_parent c
  /\ (forall w r0, getRegister c w = Some r0 -> getRegister c' w = Some r0)
  /\ (forall r, getRegister c' v <> Some r ->
        store_get (m_values c') r = store_get (m_values c) r).

(** The register of [phi] is [reg] and holds [u], in a context whose
    associations are the ones determined by the values. *)
Definition holds (phi : ValuePtr) (reg u : Expr) (c : Bv2OpSemContext) : Prop :=
  canonical c
  /\ getRegister c phi = Some reg
  /\ store_get (m_values c) reg = Some u.

End Semantics.

(** ** The Yices solver context (lib/ufo/Smt/Yices2Impl.cc) *)

Module Yices.

(** The [context_t] of the Yices library, which is not part of the
    repository: a stack of assertion levels, innermost first.
    [yices_push] marks a backtrack point by opening a level and
    [yices_pop] goes back to the last one. *)
Record context_t := mkContextT { levels : list (list Expr) }.

Definition yices_push (ctx : context_t) : context_t :=
  mkContextT ([] :: levels ctx).

Definition yices_pop (ctx : context_t) : context_t :=
  mkContextT (tail (levels ctx)).

(** [yices_impl]: the solver object and its context [d_ctx]. *)
Record yices_impl := mkYicesImpl { d_ctx : context_t }.

(** [yices_impl::push] *)
Definition push (y : yices_impl) : yices_impl :=
  mkYicesImpl (yices_push (d_ctx y)).

(** [yices_impl::pop]: the source calls [yices_push] here. *)
Definition pop (y : yices_impl) : yices_impl :=
  mkYicesImpl (yices_push (d_ctx y)).

End Yices.

(** ** A small program to run the semantics on *)

Module Example.

Definition i1 : Type_ := IntegerTy 1.
Definition i8 : Type_ := IntegerTy 8.
Definition i32 : Type_ := IntegerTy 32.

(** A bit-vector ALU. *)
#[export] Instance alu : OpSemAlu := {|
  intTy w := BVSORT w;
  si k w := BVNUM k w;
  boolToBv1 e := ITE e (BVNUM 1 1) (BVNUM 0 1);
  bv1ToBool e := EQ e (BVNUM 1 1)
|}.

(** A memory manager over arrays with 32-bit pointers. *)
#[export] Instance memManager : OpSemMemManager := {|
  ptrSort := BVSORT 32;
  nullPtr := BVNUM 0 32;
  mkPtrRegisterSort _ := BVSORT 32;
  mkMemRegisterSort _ := ARRAY_TY (BVSORT 32) (BVSORT 32);
  coerce _ v := v;
  mem_loadValueFromMem ptr memReg _ _ :=
    (m <- ctx_read memReg;; ret (Some (SELECT m ptr)))%opsem;
  mem_storeValueToMem v ptr memRead memWrite _ _ :=
    (m <- ctx_read memRead;;
     OpSemContext_write memWrite (STORE m ptr v);;
     ret (Some (STORE m ptr v)))%opsem;
  mem_MemSet ptr v _ memRead memWrite _ :=
    (m <- ctx_read memRead;;
     OpSemContext_write memWrite (STORE m ptr v);;
     ret (Some (STORE m ptr v)))%opsem;
  mem_MemCpy dPtr sPtr _ memTrsfr memRead memWrite _ :=
    (t <- ctx_read memTrsfr;;
     m <- ctx_read memRead;;
     OpSemContext_write memWrite (STORE m dPtr (SELECT t sPtr));;
     ret (Some (STORE m dPtr (SELECT t sPtr))))%opsem
|}.

(** [boolop::lor] with its usual simplifications. *)
Definition lor (e1 e2 : Expr) : Expr :=
  if decide (e1 = e2) then e1
  else
    match e1, e2 with
    | TRUE, _ | _, TRUE => TRUE
    | FALSE, _ => e2
    | _, FALSE => e1
    | _, _ => OR e1 e2
    end.

#[export] Instance externals : Externals := {|
  PTR := 1;
  MEM := 2;
  OperationalSemantics_errorFlag _ := boolConst (STRING "error.flag");
  boolop_lor := lor;
  toMpz z := z;
  z3_simplify e := e;
  foldConstantExpr _ := Ok None []
|}.

Definition opts : Options := mkOptions true false false.
Definition opts_ignore_calloc : Options := mkOptions true true false.

Definition val (k : ValueKind) (ty : Type_) : Value := mkValue k ty None false.

(** The function [main] (1) with an [i1] argument (30):
<<
  entry (10):  %c = icmp ...                (20)
               br i1 %c, left, right        (21)
  left (11):   br join                      (22)
  right (12):  br join                      (23)
  join (13):   %x = phi [%y, left], [1, right]      (40)
               %y = phi [%x, left], [2, right]      (41)
               ret                                  (42)
  nswap (16):  %y = phi ... (41) before %x = phi ... (40): the same two
               PHI nodes, declared in the other order
  pre (18):    br mixed                     (24)
  mixed (17):  %f = phi float [1, pre]      (45)
               %p = phi [%q, pre]           (48)
               %s = phi {i32, i32} [1, pre] (46)
               %q = phi [%p, pre]           (49)
               %z = phi [1, pre]            (47)
               ret                          (42)
               two PHI nodes that name each other between PHI nodes the
               semantics skips (a float, a struct), and one more tracked
               PHI node
  const (14):  br i1 true, left, right      (43)
  arg (15):    br i1 %flag, left, right     (44)
>>
    and the operands of the memory operations: a pointer (60), an [i32]
    value (61), an [i8] constant (62), an [i32] length that is not a
    constant (63), a call to calloc (64), a load (65) and a constant
    length (66). *)
Definition program : Module := fun v =>
  match v with
  | 1 => val (FunctionVal "main") (PointerTy FunctionTy)
  | 10 => val (BasicBlockVal 1 [20; 21]) LabelTy
  | 11 => val (BasicBlockVal 1 [22]) LabelTy
  | 12 => val (BasicBlockVal 1 [23]) LabelTy
  | 13 => val (BasicBlockVal 1 [40; 41; 42]) LabelTy
  | 14 => val (BasicBlockVal 1 [43]) LabelTy
  | 15 => val (BasicBlockVal 1 [44]) LabelTy
  | 16 => val (BasicBlockVal 1 [41; 40; 42]) LabelTy
  | 17 => val (BasicBlockVal 1 [45; 48; 46; 49; 47; 42]) LabelTy
  | 18 => val (BasicBlockVal 1 [24]) LabelTy
  | 20 => val (InstructionVal 10 OtherInst) i1
  | 21 => val (InstructionVal 10 (CondBr 20 11 12)) VoidTy
  | 22 => val (InstructionVal 11 (Br 13)) VoidTy
  | 23 => val (InstructionVal 12 (Br 13)) VoidTy
  | 24 => val (InstructionVal 18 (Br 17)) VoidTy
  | 30 => val ArgumentVal i1
  | 40 => val (InstructionVal 13 (PHI [(11, 41); (12, 50)])) i32
  | 41 => val (InstructionVal 13 (PHI [(11, 40); (12, 51)])) i32
  | 42 => val (InstructionVal 13 OtherTerminator) VoidTy
  | 43 => val (InstructionVal 14 (CondBr 52 11 12)) VoidTy
  | 44 => val (InstructionVal 15 (CondBr 30 11 12)) VoidTy
  | 45 => val (InstructionVal 17 (PHI [(18, 50)])) FloatTy
  | 46 => val (InstructionVal 17 (PHI [(18, 50)])) StructTy
  | 47 => val (InstructionVal 17 (PHI [(18, 50)])) i32
  | 48 => val (InstructionVal 17 (PHI [(18, 49)])) i32
  | 49 => val (InstructionVal 17 (PHI [(18, 48)])) i32
  | 50 => val (ConstantIntVal 1) i32
  | 51 => val (ConstantIntVal 2) i32
  | 52 => val (ConstantIntVal 1) i1
  | 60 => val (InstructionVal 10 OtherInst) (PointerTy i32)
  | 61 => val (InstructionVal 10 OtherInst) i32
  | 62 => val (ConstantIntVal 0) i8
  | 63 => val (InstructionVal 10 OtherInst) i32
  | 64 => val (InstructionVal 10 OtherInst) (PointerTy i8)
  | 65 => val (InstructionVal 10 (Load 60 4)) i32
  | 66 => val (ConstantIntVal 16) i32
  | _ => val UndefValueVal VoidTy
  end%positive.

Definition sem : Bv2OpSem :=
  mkBv2OpSem program 2 None
    (fun ty => match ty with
               | IntegerTy b => b
               | PointerTy _ => 32%N
               | _ => 0%N
               end).

(** A root context with nothing in it. *)
Definition root : Bv2OpSemContext :=
  mkContext [] [] None None None None None None false None [] ∅ [] ∅ None.

(** The register of an [i32] or pointer instruction. *)
Definition reg (v : ValuePtr) : Expr := mkConst (VALUE v) (BVSORT 32).
Definition reg1 (v : ValuePtr) : Expr := mkConst (VALUE v) (BVSORT 1).

(** Memory registers of two shadow-memory tags. *)
Definition memIn : Expr := mkConst (VALUE 70) (ARRAY_TY (BVSORT 32) (BVSORT 32)).
Definition memOut : Expr := mkConst (VALUE 71) (ARRAY_TY (BVSORT 32) (BVSORT 32)).
Definition memTr : Expr := mkConst (VALUE 72) (ARRAY_TY (BVSORT 32) (BVSORT 32)).

(** [root] after [mkRegister] was asked for the values of [vs]: their
    registers are declared, one after the other. *)
Definition declare (c : Bv2OpSemContext) (v : ValuePtr) (r : Expr)
    : Bv2OpSemContext :=
  set_registers (declareRegister r (m_registers c))
    (<[v := r]> (m_valueToRegister c)) c.

(** The state at the end of [left], about to enter [join]: the two PHI
    registers hold [a] and [b]. *)
Definition a : Expr := BVNUM 7 32.
Definition b : Expr := BVNUM 9 32.

Definition atLeft : Bv2OpSemContext :=
  set_position (Some 1%positive) (Some 13%positive) (Some (13%positive, 0))
    (Some 11%positive)
    (set_values [(reg 41, b); (reg 40, a)]
       (declare (declare root 40 (reg 40)) 41 (reg 41))).

(** The state at the end of [pre], about to enter [mixed]: the registers
    of [%p] and [%q] hold [a] and [b], [%z] has no register yet. *)
Definition atPre : Bv2OpSemContext :=
  set_position (Some 1%positive) (Some 17%positive) (Some (17%positive, 0))
    (Some 18%positive)
    (set_values [(reg 49, b); (reg 48, a)]
       (declare (declare root 48 (reg 48)) 49 (reg 49))).

(** The PHI nodes of [mixed], entered from [pre] in [atPre]: the float
    and the struct are skipped, [%p] and [%q] name each other, [%z] gets
    the constant 1. *)
Definition mixedPhis : list LeadingPhi :=
  [SkippedPhi 45 [];
   TrackedPhi (mkPhiAssign 48 49 (reg 48) b);
   SkippedPhi 46 [LOG "opsem" "Unsupported struct type"];
   TrackedPhi (mkPhiAssign 49 48 (reg 49) a);
   TrackedPhi (mkPhiAssign 47 50 (reg 47) (BVNUM 1 32))].

(** The state at the terminator of a block [bb], with side-conditions
    [side] accumulated and the registers of [%c] and of the memory
    operands declared. *)
Definition atTerminator (bb : ValuePtr) (i : nat) (side : list Expr)
    : Bv2OpSemContext :=
  set_position (Some 1%positive) (Some bb) (Some (bb, i)) None
    (set_side side
       (set_values [(reg1 20, VARIANT 0 (reg1 20))]
          (declare root 20 (reg1 20)))).

(** A state in which the operands of the memory operations have registers
    and values, between a shadow-memory tag and the memory operation. *)
Definition memState (r w t : option Expr) (scalar : bool) : Bv2OpSemContext :=
  let c :=
    set_values
      [(memOut, VARIANT 4 memOut); (memIn, VARIANT 3 memIn);
       (reg 63, VARIANT 2 (reg 63)); (reg 61, VARIANT 1 (reg 61));
       (reg 60, VARIANT 0 (reg 60))]
      (declare (declare (declare root 60 (reg 60)) 61 (reg 61)) 63 (reg 63)) in
  mkContext (m_values c) (m_side c) (m_func c) (m_bb c) (m_inst c) (m_prev c)
    r w scalar t (m_fparams c) (m_ignored c) (m_registers c)
    (m_valueToRegister c) (m_parent c).

End Example.

(** ** More of the machine, of the visitors and of the edge semantics *)

Definition set_scalar (b : bool) (c : Bv2OpSemContext) :=
  mkContext (m_values c) (m_side c) (m_func c) (m_bb c) (m_inst c) (m_prev c)
    (m_readRegister c) (m_writeRegister c) b (m_trfrReadReg c)
    (m_fparams c) (m_ignored c) (m_registers c) (m_valueToRegister c)
    (m_parent c).

Definition set_fparams (ps : list Expr) (c : Bv2OpSemContext) :=
  mkContext (m_values c) (m_side c) (m_func c) (m_bb c) (m_inst c) (m_prev c)
    (m_readRegister c) (m_writeRegister c) (m_scalar c) (m_trfrReadReg c)
    ps (m_ignored c) (m_registers c) (m_valueToRegister c)
    (m_parent c).

(** More accessors of [Bv2OpSemContext] (BvOpSem2Context.hh). *)
Definition setMemScalar (v : bool) : M unit := modify (set_scalar v).

Definition pushParameter (v : Expr) : M unit :=
  modify (fun c => set_fparams (m_fparams c ++ [v]) c).

Definition setPrevBb (prev : ValuePtr) : M unit :=
  modify (fun c => set_position (m_func c) (m_bb c) (m_inst c) (Some prev) c).

(** What stays of a context when only the store, the side-conditions and
    the position move: the registers, the meta-registers, the parameter
    stack, the ignored instructions and the parent. *)
Definition sameRegisters (c c' : Bv2OpSemContext) : Prop :=
  m_registers c' = m_registers c
  /\ m_valueToRegister c' = m_valueToRegister c
  /\ m_parent c' = m_parent c.

Definition sameMetaRegisters (c c' : Bv2OpSemContext) : Prop :=
  m_readRegister c' = m_readRegister c
  /\ m_writeRegister c' = m_writeRegister c
  /\ m_trfrReadReg c' = m_trfrReadReg c
  /\ m_scalar c' = m_scalar c.

(** Only the store, the side-conditions and the position may differ
    between [c] and [c']. *)
Definition onlyMoves (c c' : Bv2OpSemContext) : Prop :=
  sameRegisters c c' /\ sameMetaRegisters c c'
  /\ m_ignored c' = m_ignored c /\ m_fparams c' = m_fparams c.

(** In a root context, every register a value is mapped to is declared. *)
Definition declared (c : Bv2OpSemContext) : Prop :=
  forall v r, m_valueToRegister c !! v = Some r -> r ∈ m_registers c.

(** A call site ([llvm::CallSite]) as the visitor sees it: the called
    function found by [getCalledFunction] of the anonymous namespace (null
    for an indirect call), with what is asked of it. *)
Record CalledFunction := mkCalledFunction {
  fn_name : string;                 (* getName () *)
  fn_isIntrinsic : bool;
  fn_isDeclaration : bool;
  fn_arg_empty : bool;
  fn_returnsVoid : bool             (* getFunctionType ()->getReturnType ()->isVoidTy () *)
}.

Record CallSite := mkCallSite {
  cs_isCall : bool;
  cs_instruction : ValuePtr;                  (* getInstruction () *)
  cs_calledFunction : option CalledFunction;
  cs_arguments : list ValuePtr;               (* getArgument (i) *)
  cs_shadowMemMetadata : bool;                (* getMetadata ("shadow.mem") *)
  (** [shadow_dsa::extractUniqueScalar (CS)] *)
  cs_uniqueScalar : option ValuePtr
}.

(** What the call visitors use that is defined outside the sources:
    [boolop::lneg], the test that a function has a summary
    ([OperationalSemantics::hasFunctionInfo]), [bind::typeOf] and the
    application [bind::fapp (bind::fdecl (name, sorts), args)] of an
    uninterpreted function named after the callee. *)
Class CallExternals := {
  boolop_lneg : Expr -> Expr;
  hasFunctionInfo : CalledFunction -> bool;
  typeOf : Expr -> option Expr;
  fapp_fdecl : CalledFunction -> list Expr -> list Expr -> Expr
}.

(** The two options of BvOpSem2.cc read by [visitExternalCall]. *)
Record ExternalCallOptions := mkExternalCallOptions {
  EnableModelExternalCalls2 : bool;          (* horn-bv2-enable-external-calls *)
  IgnoreExternalFunctions2 : list string     (* horn-bv2-ignore-external-functions *)
}.

(** One step of a [gep_type_iterator]: the operand, and either the struct
    type it indexes or the indexed type of a sequential step. *)
Inductive GepStep :=
| StructStep (operand : ValuePtr) (STy : Type_)
| SequentialStep (operand : ValuePtr) (indexedTy : Type_).

(** The data-layout queries of [Bv2OpSem] and the two bit-vector operators
    built by [symbolicIndexedOffset]. *)
Class GepExternals := {
  pointerSizeInBits : N;
  storageSize : Type_ -> N;           (* an [unsigned] *)
  fieldOff : Type_ -> N -> N;         (* an [unsigned] *)
  BMUL : Expr -> Expr -> Expr;
  BADD : Expr -> Expr -> Expr
}.

(** The calls [visitShadowMemCall] tells apart by the name of the callee,
    without [shadow.mem.arg.ref] and [shadow.mem.arg.mod], which push a
    possibly null term on the parameter stack, and
    [shadow.mem.global.init], which copies concrete memory. *)
Inductive ShadowMemCall :=
| shadow_mem_init
| shadow_mem_load
| shadow_mem_trsfr_load
| shadow_mem_store
| shadow_mem_arg_new
| shadow_mem_in
| shadow_mem_out
| shadow_mem_arg_init.

Definition shadowMemCallOf (name : string) : option ShadowMemCall :=
  if String.eqb name "shadow.mem.init" then Some shadow_mem_init
  else if String.eqb name "shadow.mem.load" then Some shadow_mem_load
  else if String.eqb name "shadow.mem.trsfr.load" then Some shadow_mem_trsfr_load
  else if String.eqb name "shadow.mem.store" then Some shadow_mem_store
  else if String.eqb name "shadow.mem.arg.new" then Some shadow_mem_arg_new
  else if String.eqb name "shadow.mem.in" then Some shadow_mem_in
  else if String.eqb name "shadow.mem.out" then Some shadow_mem_out
  else if String.eqb name "shadow.mem.arg.init" then Some shadow_mem_arg_init
  else None.

Section MoreSemantics.

Context {alu : OpSemAlu} {mem : OpSemMemManager} {ext : Externals}.
Context {cext : CallExternals} {gext : GepExternals}.
Variable opts : Options.
Variable xopts : ExternalCallOptions.
Variable m_sem : Bv2OpSem.

(** *** [OpSemVisitorBase::read] *)
Definition read (v : ValuePtr) : M (option Expr) :=
  sk <- lift (isSkipped opts m_sem v);;
  if sk : bool then ret None
  else
    reg <- gets (fun c => getRegister c v);;
    match reg with
    | Some reg => e <- ctx_read reg;; ret (Some e)
    | None =>
        if isConstant (kind (valueAt m_sem v)) then ctx_getConstantValue m_sem v
        else
          reg <- mkRegister opts m_sem v;;
          e <- ctx_read reg;; ret (Some e)
    end.

(** *** Skipped instructions: [Bv2OpSem::skipInst] *)
Definition skipInst (inst : ValuePtr) : M unit :=
  if fst (isShadowMem opts m_sem inst) then ret tt
  else
    ign <- isIgnored inst;;
    if ign then ret tt
    else ignore inst;; emit (LOG "opsem" "skipping instruction").

(** *** Registers the semantics recognises *)

(** [Bv2OpSem::isSymReg]. The test of the base class
    ([OperationalSemantics::isSymReg]) is outside the sources and is
    passed in. A term built by [mkConst] over anything but a value falls
    off the end of the function, which returns nothing there: the
    behaviour is undefined and the run ends. *)
Definition isSymReg (base_isSymReg : Expr -> bool) (v : Expr)
    (C : Bv2OpSemContext) : Outcome bool :=
  if base_isSymReg v then Ok true []
  else if isKnownRegister C v then Ok true []
  else
    match v with
    | FAPP (VALUE _) _ => Ok true []
    | FAPP _ _ => Fatal "Unexpected symbolic value"
    | _ => Ok false []
    end.

Definition isOpX_FAPP (e : Expr) : bool :=
  match e with FAPP _ _ => true | _ => false end.

Definition isOpX_VALUE (e : Expr) : bool :=
  match e with VALUE _ => true | _ => false end.

(** [Bv2OpSem::conc]: both assertions are made of the same term [v], and
    the value is taken from [v]. *)
Definition conc (v : Expr) : Outcome ValuePtr :=
  if negb (isOpX_FAPP v) then Fatal "isOpX<FAPP>(v)"
  else if negb (isOpX_VALUE v) then Fatal "isOpX<VALUE>(v)"
  else
    match v with
    | VALUE x => Ok x []
    | _ => Fatal "getTerm<const Value *>(v)"
    end.

(** *** Positions: [setInstruction], [getTerminator] *)

(** The position of an instruction in the list of its block. *)
Fixpoint indexOf (inst : ValuePtr) (insts : list ValuePtr) : option nat :=
  match insts with
  | [] => None
  | i :: rest =>
      if Pos.eqb i inst then Some 0%nat
      else match indexOf inst rest with
           | Some n => Some (S n)
           | None => None
           end
  end.

(** [Bv2OpSemContext::setInstruction]: the iterator is made from the
    instruction, which sits in the list of its parent block. *)
Definition setInstruction (inst : ValuePtr) : M unit :=
  match indexOf inst (instructions m_sem (getParent m_sem inst)) with
  | Some i =>
      modify (fun c =>
        set_position (m_func c) (m_bb c) (Some (getParent m_sem inst, i))
          (m_prev c) c)
  | None => llvm_unreachable "BasicBlock::const_iterator(&inst)"
  end.

Definition isTerminator (k : ValueKind) : bool :=
  match k with
  | InstructionVal _ (Br _) | InstructionVal _ (CondBr _ _ _)
  | InstructionVal _ OtherTerminator => true
  | _ => false
  end.

(** [BasicBlock::getTerminator]: the last instruction, when it is a
    terminator. *)
Definition getTerminator (bb : ValuePtr) : option ValuePtr :=
  match last (instructions m_sem bb) with
  | Some t => if isTerminator (kind (valueAt m_sem t)) then Some t else None
  | None => None
  end.

(** *** Edges: [Bv2OpSem::execBr], [Bv2OpSem::execPhi] *)

Definition execBr (src dst : ValuePtr) : M unit :=
  onBasicBlockEntry m_sem src;;
  match getTerminator src with
  | Some t => setInstruction t
  | None => llvm_unreachable "*src.getTerminator()"
  end;;
  intraBr m_sem dst.

Definition execPhi (bb from : ValuePtr) : M unit :=
  onBasicBlockEntry m_sem bb;;
  setPrevBb from;;
  intraPhi opts m_sem.

(** *** Single steps: [Bv2OpSem::intraStep] *)

(** [Bv2OpSemContext::isAtBbEnd]: the iterator is compared with the end
    of the current block. *)
Definition isAtBbEnd : M bool :=
  bb <- getCurrBb;;
  match bb with
  | None => llvm_unreachable "m_bb->end()"
  | Some bb =>
      i <- gets m_inst;;
      ret (match i with
           | Some (b, n) =>
               Pos.eqb b bb && Nat.eqb n (length (instructions m_sem bb))
           | None => false
           end)
  end.

Definition isBranchInst (k : ValueKind) : bool :=
  match k with
  | InstructionVal _ (Br _) | InstructionVal _ (CondBr _ _ _) => true
  | _ => false
  end.

(** [Bv2OpSem::intraStep]. The dispatch of [InstVisitor::visit] over the
    instruction classes is passed in as [visit]. *)
Definition intraStep (visit : ValuePtr -> M unit) : M bool :=
  atEnd <- isAtBbEnd;;
  if atEnd : bool then ret false
  else
    cur <- gets (getCurrentInst m_sem);;
    match cur with
    | None => llvm_unreachable "C.getCurrentInst()"
    | Some inst =>
        let k := kind (valueAt m_sem inst) in
        if isTerminator k && negb (isBranchInst k) then ret false
        else
          sk <- lift (isSkipped opts m_sem inst);;
          (if sk : bool then skipInst inst else visit inst);;
          if negb (isTerminator k) then next_inst;; ret true
          else ret false
    end.

(** *** Bit casts *)

Definition isVectorTy (ty : Type_) : bool :=
  match ty with VectorTy => true | _ => false end.

Definition isFloatTy (ty : Type_) : bool :=
  match ty with FloatTy => true | _ => false end.

Definition isDoubleTy (ty : Type_) : bool :=
  match ty with DoubleTy => true | _ => false end.

(** [OpSemVisitor::executeBitCastInst] *)
Definition executeBitCastInst (op : ValuePtr) (ty : Type_) : M (option Expr) :=
  let opTy := getType (valueAt m_sem op) in
  if isVectorTy opTy || isVectorTy ty then
    llvm_unreachable "Vector types are unsupported"
  else
    res <- lookup m_sem op;;
    match res with
    | None => ret None
    | Some res =>
        if isPointerTy ty then ret (Some res)
        else if isIntegerTy ty then
          if isFloatTy opTy then
            llvm_unreachable "bitcast from float to int is not supported"
          else if isDoubleTy opTy then
            llvm_unreachable "bitcast from double to int is not supported"
          else if isIntegerTy opTy then ret (Some res)
          else llvm_unreachable "Invalid bitcast"
        else if isFloatTy ty then
          if isIntegerTy opTy then
            llvm_unreachable "bitcast to float not supported"
          else ret (Some res)
        else if isDoubleTy ty then
          if isIntegerTy opTy then
            llvm_unreachable "bitcast to double not supported"
          else ret (Some res)
        else llvm_unreachable "Invalid bitcast"
    end.

(** [OpSemVisitor::visitBitCastInst], for the instruction [I] with
    operand [op]. *)
Definition visitBitCastInst (I op : ValuePtr) : M unit :=
  res <- executeBitCastInst op (getType (valueAt m_sem I));;
  setValue opts m_sem I res.

(** *** Calls *)

(** [extractUniqueScalar] of the anonymous namespace. *)
Definition extractUniqueScalar (CS : CallSite) : option ValuePtr :=
  if EnableUniqueScalars2 opts then cs_uniqueScalar CS else None.

(** [CallSite::getArgument] *)
Definition getArgument (CS : CallSite) (i : nat) : M ValuePtr :=
  match cs_arguments CS !! i with
  | Some a => ret a
  | None => llvm_unreachable "getArgument"
  end.

(** [OpSemVisitor::visitIndirectCall] *)
Definition visitIndirectCall (CS : CallSite) : M unit :=
  setValue opts m_sem (cs_instruction CS) None.

Definition isOpX_TRUE (e : Expr) : bool :=
  match e with TRUE => true | _ => false end.

(** [OpSemVisitor::visitVerifierAssumeCall] *)
Definition visitVerifierAssumeCall (CS : CallSite) : M unit :=
  match cs_calledFunction CS with
  | None => llvm_unreachable "*getCalledFunction(CS)"
  | Some f =>
      a <- getArgument CS 0;;
      op <- lookup m_sem a;;
      match op with
      | None => llvm_unreachable "op"
      | Some op =>
          let op := if String.eqb (fn_name f) "verifier.assume.not"
                    then boolop_lneg op else op in
          if isOpX_TRUE op then ret tt
          else
            e <- ctx_read
                   (errorFlag m_sem (getParent m_sem (cs_instruction CS)));;
            addScopedSide (boolop_lor e op)
      end
  end.

(** [OpSemVisitor::visitNondetCall] *)
Definition visitNondetCall (CS : CallSite) : M unit :=
  let inst := cs_instruction CS in
  match getType (valueAt m_sem inst) with
  | VoidTy => ret tt
  | _ =>
      reg <- mkRegister opts m_sem inst;;
      h <- ctx_havoc reg;;
      setValue opts m_sem inst (Some h)
  end.

(** The loop of [visitExternalCall] over the arguments: the terms and the
    sorts collected, and whether every term had a sort. *)
Fixpoint externalCallArgs (args : list ValuePtr) (fargs sorts : list Expr)
    : M (list Expr * list Expr * bool) :=
  match args with
  | [] => ret (fargs, sorts, true)
  | a :: rest =>
      sk <- lift (isSkipped opts m_sem a);;
      if sk : bool then externalCallArgs rest fargs sorts
      else
        e <- lookup m_sem a;;
        match e with
        | None => externalCallArgs rest fargs sorts
        | Some e =>
            match typeOf e with
            | None => ret (fargs ++ [e], sorts, false)
            | Some s => externalCallArgs rest (fargs ++ [e]) (sorts ++ [s])
            end
        end
  end.

(** [OpSemVisitor::visitExternalCall] *)
Definition visitExternalCall (CS : CallSite) : M unit :=
  match cs_calledFunction CS with
  | None => llvm_unreachable "*getCalledFunction(CS)"
  | Some F =>
      if fn_returnsVoid F then ret tt
      else
        let inst := cs_instruction CS in
        if negb (EnableModelExternalCalls2 xopts)
           || bool_decide (fn_name F ∈ IgnoreExternalFunctions2 xopts)
        then setValue opts m_sem inst None
        else
          collected <- externalCallArgs (cs_arguments CS) [] [];;
          let '(fargs, sorts, is_typed) := collected in
          res <-
            (if is_typed : bool then
               symReg <- mkRegister opts m_sem inst;;
               match typeOf symReg with
               | None => ret None
               | Some ty =>
                   emit (LOG "opsem" "Modelling with an uninterpreted function");;
                   ret (Some (fapp_fdecl F (sorts ++ [ty]) fargs))
               end
             else ret None);;
          setValue opts m_sem inst res
  end.

(** [OpSemVisitor::visitShadowMemCall], for the call [which]. *)
Definition visitShadowMemCall (which : ShadowMemCall) (CS : CallSite)
    : M unit :=
  let inst := cs_instruction CS in
  let inMain :=
    match kind (valueAt m_sem (getParent m_sem (getParent m_sem inst))) with
    | FunctionVal name => String.eqb name "main"
    | _ => false
    end in
  let havocInMain (lookupElsewhere : bool) : M unit :=
    if inMain then h <- havoc opts m_sem inst;; setValue opts m_sem inst h
    else if lookupElsewhere then
      a <- getArgument CS 1;; _ <- lookup m_sem a;; ret tt
    else ret tt in
  match which with
  | shadow_mem_init =>
      h <- havoc opts m_sem inst;; setValue opts m_sem inst h
  | shadow_mem_load =>
      v <- getArgument CS 1;;
      reg <- mkRegister opts m_sem v;;
      _ <- ctx_read reg;;
      setMemReadRegister (Some reg);;
      setMemScalar (bool_decide (is_Some (extractUniqueScalar CS)))
  | shadow_mem_trsfr_load =>
      v <- getArgument CS 1;;
      reg <- mkRegister opts m_sem v;;
      _ <- ctx_read reg;;
      setMemTrsfrReadReg (Some reg);;
      if bool_decide (is_Some (extractUniqueScalar CS)) then
        emit (WARN "unexpected unique scalar in mem.trsfr.load");;
        llvm_unreachable "unexpected unique scalar in mem.trsfr.load"
      else ret tt
  | shadow_mem_store =>
      memOut <- mkRegister opts m_sem inst;;
      a <- getArgument CS 1;;
      memIn <- gets (fun c => getRegister c a);;
      _ <- readMemRegister memIn "m_ctx.read(memIn)";;
      h <- havoc opts m_sem inst;;
      setValue opts m_sem inst h;;
      setMemReadRegister memIn;;
      setMemWriteRegister (Some memOut);;
      setMemScalar (bool_decide (is_Some (extractUniqueScalar CS)));;
      emit (LOG "opsem.mem.store" "mem.store")
  | shadow_mem_arg_new =>
      reg <- mkRegister opts m_sem inst;;
      h <- ctx_havoc reg;;
      pushParameter h
  | shadow_mem_in => havocInMain true
  | shadow_mem_out => havocInMain true
  | shadow_mem_arg_init => havocInMain false
  end.

(** [OpSemVisitor::visitCallSite]. The summary-based call
    [visitKnownFunctionCall] works on [FunctionInfo], which is outside the
    sources, and is passed in; [visitCallSite] does not return after it.
    A [shadow.mem] call that [visitShadowMemCall] is not modelled for is
    passed to [otherShadowMemCall]. *)
Definition visitCallSite (visitKnownFunctionCall : CallSite -> M unit)
    (otherShadowMemCall : CallSite -> M unit) (CS : CallSite) : M unit :=
  if negb (cs_isCall CS) then
    llvm_unreachable "invoke instructions are not supported and must be lowered"
  else
    match cs_calledFunction CS with
    | None => visitIndirectCall CS
    | Some f =>
        assert_ (negb (fn_isIntrinsic f)) "!f->isIntrinsic()";;
        let shadowMemCall : M unit :=
          match shadowMemCallOf (fn_name f) with
          | Some which => visitShadowMemCall which CS
          | None => otherShadowMemCall CS
          end in
        if String.prefix "verifier.assume" (fn_name f) then
          visitVerifierAssumeCall CS
        else if String.eqb (fn_name f) "calloc" then
          visitCallocCall opts m_sem (cs_instruction CS)
        else if cs_shadowMemMetadata CS then shadowMemCall
        else if String.prefix "shadow.mem" (fn_name f) then
          emit (WARN "missing metadata on shadow.mem functions");;
          shadowMemCall
        else if fn_isDeclaration f then
          if fn_arg_empty f
             && (String.prefix "nd" (fn_name f)
                 || String.prefix "nondet." (fn_name f)
                 || String.prefix "verifier.nondet" (fn_name f)
                 || String.prefix "__VERIFIER_nondet" (fn_name f))
          then visitNondetCall CS
          else visitExternalCall CS
        else
          (if hasFunctionInfo f then visitKnownFunctionCall CS else ret tt);;
          emit (ERR "unhandled call instruction");;
          llvm_unreachable "unhandled call instruction"
    end.

(** *** Offsets of a GEP: [Bv2OpSem::symbolicIndexedOffset] *)

(** [ConstantInt::getSExtValue], of a constant of [bits] bits whose
    [ConstantIntVal] holds the unsigned value. *)
Definition getSExtValue (bits : N) (z : Z) : Z :=
  if Z.ltb z (2 ^ (Z.of_N bits - 1)) then z else z - 2 ^ Z.of_N bits.

(** A [uint64_t]. *)
Definition to_uint64 (z : Z) : Z := z mod 2 ^ 64.

(** The loop: the numeric offset [noffset] and the symbolic offset
    [soffset] after the steps. *)
Fixpoint gepOffsets (steps : list GepStep) (noffset : Z)
    (soffset : option Expr) : M (Z * option Expr) :=
  match steps with
  | [] => ret (noffset, soffset)
  | StructStep CurVal STy :: rest =>
      match kind (valueAt m_sem CurVal) with
      | ConstantIntVal z =>
          let fieldNo := to_unsigned (Z.to_N z) in
          gepOffsets rest
            (to_uint64 (noffset + Z.of_N (fieldOff STy fieldNo))) soffset
      | _ => llvm_unreachable "cast<ConstantInt>(CurVal)"
      end
  | SequentialStep CurVal ty :: rest =>
      let sz := storageSize ty in
      match kind (valueAt m_sem CurVal) with
      | ConstantIntVal z =>
          let arrayIdx :=
            match getType (valueAt m_sem CurVal) with
            | IntegerTy bits => getSExtValue bits z
            | _ => z
            end in
          gepOffsets rest (to_uint64 (noffset + to_uint64 arrayIdx * Z.of_N sz))
            soffset
      | _ =>
          a <- getOperandValue m_sem CurVal;;
          match a with
          | None => llvm_unreachable "a"
          | Some a =>
              let a := BMUL a (BVNUM (Z.of_N sz) pointerSizeInBits) in
              gepOffsets rest noffset
                (Some (match soffset with
                       | Some s => BADD s a
                       | None => a
                       end))
          end
      end
  end.

Definition symbolicIndexedOffset (steps : list GepStep) : M Expr :=
  offsets <- gepOffsets steps 0 None;;
  let '(noffset, soffset) := offsets in
  let res :=
    if Z.ltb 0 noffset then Some (BVNUM noffset pointerSizeInBits) else None in
  let res :=
    match soffset with
    | Some s => Some (match res with Some r => BADD s r | None => s end)
    | None => res
    end in
  match res with
  | Some res => ret res
  | None =>
      assert_ (Z.eqb noffset 0) "noffset == 0";;
      assert_ (negb (bool_decide (is_Some soffset))) "!soffset";;
      ret (BVNUM noffset pointerSizeInBits)
  end.

(** What a step whose operand is a constant integer adds to the numeric
    offset, before the wrap-around of [uint64_t]. *)
Definition constantStepOffset (step : GepStep) : option Z :=
  match step with
  | StructStep CurVal STy =>
      match kind (valueAt m_sem CurVal) with
      | ConstantIntVal z =>
          Some (Z.of_N (fieldOff STy (to_unsigned (Z.to_N z))))
      | _ => None
      end
  | SequentialStep CurVal ty =>
      match kind (valueAt m_sem CurVal) with
      | ConstantIntVal z =>
          Some (match getType (valueAt m_sem CurVal) with
                | IntegerTy bits => getSExtValue bits z
                | _ => z
                end * Z.of_N (storageSize ty))%Z
      | _ => None
      end
  end.

Definition sumZ (zs : list Z) : Z := fold_right Z.add 0%Z zs.

End MoreSemantics.

(** ** The rest of the Yices solver context (lib/ufo/Smt/Yices2Impl.cc) *)

Module YicesImpl.

Import Yices.

(** The library behind [yices_init]: how many times it was initialised. *)
Record library := mkLibrary {
  s_yices_lib_initialized : bool;
  yices_init_calls : nat
}.

(** [yices_library_initialize] *)
Definition yices_library_initialize (l : library) : library :=
  if negb (s_yices_lib_initialized l) then
    mkLibrary true (S (yices_init_calls l))
  else l.

(** The constructor [yices_impl::yices_impl]: the library is initialised
    and a context is made. [yices_new_context] is of the Yices library;
    a new context has one level, with no assertion. *)
Definition yices_new_context : context_t := mkContextT [[]].

Definition new_yices_impl (l : library) : library * yices_impl :=
  (yices_library_initialize l, mkYicesImpl yices_new_context).

Inductive result := SAT | UNSAT | UNKNOWN.

(** [yices_impl::add]: nothing reaches the context. *)
Definition add (y : yices_impl) (exp : Expr) : bool * yices_impl := (false, y).

(** [yices_impl::check] *)
Definition check (y : yices_impl) : result := UNKNOWN.

(** The calls a client makes on a solver. *)
Inductive call := Add (exp : Expr) | Push | Pop.

Definition do_call (y : yices_impl) (k : call) : yices_impl :=
  match k with
  | Add exp => snd (add y exp)
  | Push => push y
  | Pop => pop y
  end.

Definition do_calls (y : yices_impl) (ks : list call) : yices_impl :=
  fold_left do_call ks y.

Definition isAdd (k : call) : bool :=
  match k with Add _ => true | _ => false end.

End YicesImpl.

(** ** Logging (lib/seahorn/Support/SeaDebug.cc) *)

Module SeaDebug.

(** The two globals [SeaLogFlag] and [SeaLog]. *)
Record state := mkState {
  SeaLogFlag : bool;
  SeaLog : gset string
}.

Definition initial : state := mkState false ∅.

(** [seahorn::SeaEnableLog] *)
Definition SeaEnableLog (x : string) (s : state) : state :=
  if String.eqb x "" then s
  else mkState true ({[x]} ∪ SeaLog s).

End SeaDebug.

(** ** Calls, shadow memory and offsets to run the semantics on *)

Module Example2.

Import Example.

(** [boolop::lneg] with its usual simplifications. *)
Definition lneg (e : Expr) : Expr :=
  match e with
  | TRUE => FALSE
  | FALSE => TRUE
  | NEG e => e
  | _ => NEG e
  end.

(** The sort of a constant or of a numeral; an uninterpreted function
    applied to its arguments, one after the other. *)
#[export] Instance callExternals : CallExternals := {|
  boolop_lneg := lneg;
  hasFunctionInfo _ := false;
  typeOf e :=
    match e with
    | FAPP _ s => Some s
    | BVNUM _ w => Some (BVSORT w)
    | _ => None
    end;
  fapp_fdecl F sorts args :=
    fold_left SELECT args (FAPP (STRING (fn_name F)) (List.last sorts BOOL_TY))
|}.

(** A 32-bit data layout with 4-byte struct fields; the product and the
    sum of bit-vectors are written as terms over their name. *)
#[export] Instance gepExternals : GepExternals := {|
  pointerSizeInBits := 32;
  storageSize ty :=
    match ty with
    | IntegerTy b => ((b + 7) / 8)%N
    | PointerTy _ => 4%N
    | _ => 0%N
    end;
  fieldOff _ n := (4 * n)%N;
  BMUL a b := STORE (STRING "bvmul") a b;
  BADD a b := STORE (STRING "bvadd") a b
|}.

Definition xopts : ExternalCallOptions := mkExternalCallOptions false [].

Definition i64 : Type_ := IntegerTy 64.

(** The program of [Example] with, in [entry], a call that returns a
    float (80) and one that returns nothing (81), the calls
    [shadow.mem.init] (83), [shadow.mem.store] (82) and [shadow.mem.load]
    (88) on the memory of the global [@g] (84), which is a unique scalar,
    the index [-1] as an [i32] (85), the length [2^32 + 16] as an
    [i64] (86), the bit cast of the pointer [%60] to an [i8*] (89), and
    a block (90) made of a float instruction (91) and a terminator that
    is not a branch (92). *)
Definition program2 : Module := fun v =>
  match v with
  | 80 => val (InstructionVal 10 OtherInst) FloatTy
  | 81 => val (InstructionVal 10 OtherInst) VoidTy
  | 82 => mkValue (InstructionVal 10 OtherInst) i32 (Some (Some 84)) false
  | 83 => mkValue (InstructionVal 10 OtherInst) i32 (Some (Some 84)) false
  | 84 => val GlobalVariableVal (PointerTy i32)
  | 85 => val (ConstantIntVal 4294967295) i32
  | 86 => val (ConstantIntVal 4294967312) i64
  | 88 => mkValue (InstructionVal 10 OtherInst) i32 (Some (Some 84)) false
  | 89 => val (InstructionVal 10 OtherInst) (PointerTy i8)
  | 90 => val (BasicBlockVal 1 [91; 92]) LabelTy
  | 91 => val (InstructionVal 90 OtherInst) FloatTy
  | 92 => val (InstructionVal 90 OtherTerminator) VoidTy
  | _ => program v
  end%positive.

Definition sem2 : Bv2OpSem :=
  mkBv2OpSem program2 2 None (sizeInBits sem).

(** The register of a version of the memory of [@g]. *)
Definition scalarReg (v : ValuePtr) : Expr :=
  mkConst (SELECT (VALUE v) (VALUE 84)) (BVSORT 32).

Definition externalFunction (name : string) (noArgs returnsVoid : bool)
    : CalledFunction :=
  mkCalledFunction name false true noArgs returnsVoid.

(** [%61 = call i32 %fp ()], [%61 = call i32 @ext (i32 1)] with [@ext]
    declared only, and [%61 = call i32 @helper (i32 1)] with [@helper]
    defined in the module. *)
Definition cs_indirect : CallSite := mkCallSite true 61 None [] false None.

Definition cs_external : CallSite :=
  mkCallSite true 61 (Some (externalFunction "ext" false false))
    [50%positive] false None.

Definition cs_defined : CallSite :=
  mkCallSite true 61 (Some (mkCalledFunction "helper" false false false false))
    [50%positive] false None.

(** Calls of [nd] functions that return an [i32], a float, nothing. *)
Definition cs_nondet (inst : ValuePtr) : CallSite :=
  mkCallSite true inst (Some (externalFunction "nd" true false)) [] false None.

(** [call void @verifier.assume (i1 %c)] and
    [call void @verifier.assume.not (i1 %c)] in [entry]. *)
Definition cs_assume (name : string) : CallSite :=
  mkCallSite true 81 (Some (externalFunction name false true))
    [20%positive] false None.

(** [%82 = call i32 @shadow.mem.store (i32 0, i32 %83, i8* @g)] and
    [call void @shadow.mem.load (i32 0, i32 %82, i8* @g)]. *)
Definition cs_mem_store : CallSite :=
  mkCallSite true 82 (Some (externalFunction "shadow.mem.store" false false))
    [62; 83; 84]%positive true (Some 84%positive).

Definition cs_mem_load : CallSite :=
  mkCallSite true 88 (Some (externalFunction "shadow.mem.load" false true))
    [62; 82; 84]%positive true (Some 84%positive).

(** A state in which [%61] holds 5 and the memory of [@g] has the
    version [%83]. *)
Definition five : Expr := BVNUM 5 32.

Definition beforeStore : Bv2OpSemContext :=
  set_values [(reg 61, five)]
    (declare (declare root 83 (scalarReg 83)) 61 (reg 61)).

End Example2.

(** * Properties *)

(** ** Reasoning about runs *)

Lemma bind_Done {A B} (m : M A) (f : A -> M B) c a c1 l1 :
  m c = Done a c1 l1 ->
  bind m f c =
    match f a c1 with
    | Done b c2 l2 => Done b c2 (l1 ++ l2)
    | Unreachable msg => Unreachable msg
    end.
Proof. intros H. unfold bind. now rewrite H. Qed.

Lemma bind_Unreachable {A B} (m : M A) (f : A -> M B) c msg :
  m c = Unreachable msg -> bind m f c = Unreachable msg.
Proof. intros H. unfold bind. now rewrite H. Qed.

Lemma bind_inv {A B} (m : M A) (f : A -> M B) c b c2 l :
  bind m f c = Done b c2 l ->
  exists a c1 l1 l2, m c = Done a c1 l1 /\ f a c1 = Done b c2 l2 /\ l = l1 ++ l2.
Proof.
  unfold bind. destruct (m c) as [a c1 l1|msg]; [|discriminate].
  destruct (f a c1) as [b' c2' l2|msg] eqn:Hf; [|discriminate].
  intros [= -> -> <-]. now exists a, c1, l1, l2.
Qed.

(** ** Registers of a lineage *)

Lemma getRegister_eq (c : Bv2OpSemContext) (v : ValuePtr) :
  getRegister c v =
    match m_valueToRegister c !! v with
    | Some r => Some r
    | None =>
        match m_parent c with
        | Some p => getRegister p v
        | None => None
        end
    end.
Proof. destruct c; reflexivity. Qed.

Lemma getRegister_set_registers rs (m : gmap ValuePtr Expr) c v :
  getRegister (set_registers rs m c) v =
    match m !! v with
    | Some r => Some r
    | None =>
        match m_parent c with
        | Some p => getRegister p v
        | None => None
        end
    end.
Proof. destruct c; reflexivity. Qed.

Lemma getRegister_fork values side c v :
  getRegister (fork values side c) v = getRegister c v.
Proof.
  unfold fork. rewrite getRegister_eq. cbn. now rewrite lookup_empty.
Qed.

Section RegisterFacts.

Context {alu : OpSemAlu} {mem : OpSemMemManager} {ext : Externals}.
Variable opts : Options.
Variable m_sem : Bv2OpSem.


Lemma insertRegister_fresh v reg c :
  m_valueToRegister c !! v = None ->
  insertRegister v reg c =
    Done reg
      (set_registers (declareRegister reg (m_registers c))
         (<[v := reg]> (m_valueToRegister c)) c) [].
Proof.
  intros H. unfold insertRegister, bind, modify, ret. now rewrite H.
Qed.

Lemma getRegister_None_local c v :
  getRegister c v = None -> m_valueToRegister c !! v = None.
Proof.
  rewrite getRegister_eq. now destruct (m_valueToRegister c !! v).
Qed.

(** When [v] has a register, [mkRegister] hands it out and touches
    nothing. *)
Lemma mkRegister_found c v r :
  registerable m_sem v = true ->
  getRegister c v = Some r ->
  mkRegister opts m_sem v c = Done r c [].
Proof.
  unfold registerable, mkRegister. intros Hk Hg.
  destruct (kind (valueAt m_sem v)); try discriminate;
    unfold mkRegister_BasicBlock, mkRegister_Instruction,
      mkRegister_Function, mkRegister_GlobalVariable, bind, gets;
    now rewrite Hg.
Qed.

(** When it has none, the register is the one determined by the value, and
    only the context's own map gains an entry. *)
Lemma mkRegister_fresh c v :
  getRegister c v = None ->
  mkRegister opts m_sem v c =
    match newRegister opts m_sem v with
    | Ok reg l =>
        Done reg
          (set_registers (declareRegister reg (m_registers c))
             (<[v := reg]> (m_valueToRegister c)) c) l
    | Fatal msg => Unreachable msg
    end.
Proof.
  intros Hg. pose proof (getRegister_None_local _ _ Hg) as Hl.
  unfold mkRegister, newRegister.
  destruct (kind (valueAt m_sem v)); try reflexivity;
    unfold mkRegister_BasicBlock, mkRegister_Instruction,
      mkRegister_Function, mkRegister_GlobalVariable, bind, gets;
    rewrite Hg; try (rewrite (insertRegister_fresh _ _ _ Hl); reflexivity).
  unfold lift. destruct (newInstRegister opts m_sem v) as [reg l|msg]; [|reflexivity].
  rewrite (insertRegister_fresh _ _ _ Hl). now rewrite app_nil_r.
Qed.

Lemma mkRegister_registerable c v r c' l :
  mkRegister opts m_sem v c = Done r c' l -> registerable m_sem v = true.
Proof.
  unfold mkRegister, registerable.
  destruct (kind (valueAt m_sem v)); try reflexivity; discriminate.
Qed.

Lemma getRegister_insert rs c v reg w :
  getRegister (set_registers rs (<[v := reg]> (m_valueToRegister c)) c) w =
    if decide (v = w) then Some reg else getRegister c w.
Proof.
  rewrite getRegister_set_registers, lookup_insert.
  destruct (decide (v = w)); [reflexivity|].
  now rewrite (getRegister_eq c w).
Qed.


Lemma canonical_eq c :
  canonical opts m_sem c <->
    (forall v r, m_valueToRegister c !! v = Some r ->
                 exists l, newRegister opts m_sem v = Ok r l)
    /\ match m_parent c with Some p => canonical opts m_sem p | None => True end.
Proof. destruct c; reflexivity. Qed.

Lemma canonical_getRegister c :
  canonical opts m_sem c ->
  forall v r, getRegister c v = Some r -> exists l, newRegister opts m_sem v = Ok r l.
Proof.
  revert c.
  fix IH 1. intros [? ? ? ? ? ? ? ? ? ? ? ? ? v2r parent] [Hown Hpar] v r.
  cbn. destruct (v2r !! v) as [r'|] eqn:Hl.
  - intros [= <-]. eauto.
  - destruct parent as [p|]; [|discriminate]. now apply IH.
Qed.

Lemma canonical_fork values side c : canonical opts m_sem c -> canonical opts m_sem (fork values side c).
Proof.
  intros H. unfold fork. cbn. split; [|exact H].
  intros v r. now rewrite lookup_empty.
Qed.

(** Two contexts that went through [mkRegister] and [fork] alone, in one
    lineage or not, cannot disagree on the register of a value. *)
Lemma canonical_agree c1 c2 v r1 r2 :
  canonical opts m_sem c1 -> canonical opts m_sem c2 ->
  getRegister c1 v = Some r1 -> getRegister c2 v = Some r2 -> r1 = r2.
Proof.
  intros H1 H2 G1 G2.
  destruct (canonical_getRegister _ H1 _ _ G1) as [l1 E1].
  destruct (canonical_getRegister _ H2 _ _ G2) as [l2 E2].
  congruence.
Qed.

Lemma canonical_insert rs c v reg l :
  canonical opts m_sem c ->
  newRegister opts m_sem v = Ok reg l ->
  canonical opts m_sem (set_registers rs (<[v := reg]> (m_valueToRegister c)) c).
Proof.
  intros Hc Hn. apply canonical_eq in Hc as [Hown Hpar].
  apply canonical_eq. cbn. split; [|exact Hpar].
  intros w r. rewrite lookup_insert.
  destruct (decide (v = w)) as [<-|]; [|now apply Hown].
  intros [= <-]. eauto.
Qed.

(** C7. For every value, a context lineage associates at most one symbolic
    register: [mkRegister] returns the register already declared for the
    value, by the context itself or by an ancestor reached through the
    parent chain, and leaves the context as it is; it creates a register,
    the one determined by the value, only when there is none, adding it to
    the context's own map; no association made before is changed; asking
    again gives the same register; the parent is never changed; a fork
    sees exactly the registers of its parent; and the contexts built by
    [mkRegister] and [fork], whose associations are all determined by the
    value, never disagree on the register of a value. *)
Theorem mkRegister_one_register_per_value (c : Bv2OpSemContext) (v : ValuePtr) :
  (forall r, registerable m_sem v = true -> getRegister c v = Some r ->
     mkRegister opts m_sem v c = Done r c [])
  /\ (forall reg l, getRegister c v = None ->
        newRegister opts m_sem v = Ok reg l ->
        exists c', mkRegister opts m_sem v c = Done reg c' l
                   /\ m_valueToRegister c' = <[v := reg]> (m_valueToRegister c))
  /\ (forall r c' l, mkRegister opts m_sem v c = Done r c' l ->
        getRegister c' v = Some r
        /\ (forall w r0, getRegister c w = Some r0 -> getRegister c' w = Some r0)
        /\ (forall w, w <> v -> getRegister c' w = getRegister c w)
        /\ (is_Some (getRegister c v) -> c' = c)
        /\ m_parent c' = m_parent c
        /\ mkRegister opts m_sem v c' = Done r c' []
        /\ (canonical opts m_sem c -> canonical opts m_sem c'))
  /\ (forall values side w,
        getRegister (fork values side c) w = getRegister c w)
  /\ (forall values side, canonical opts m_sem c ->
        canonical opts m_sem (fork values side c))
  /\ (forall c2 r1 r2,
        canonical opts m_sem c -> canonical opts m_sem c2 ->
        getRegister c v = Some r1 -> getRegister c2 v = Some r2 -> r1 = r2).
Proof.
  split; [|split; [|split; [|split; [|split]]]].
  6: { intros c2 r1 r2 H1 H2 G1 G2.
       exact (canonical_agree c c2 v r1 r2 H1 H2 G1 G2). }
  5: { intros values side H. now apply canonical_fork. }
  - intros r Hk Hg. now apply mkRegister_found.
  - intros reg l Hg Hn. rewrite (mkRegister_fresh c v Hg), Hn.
    eexists. split; reflexivity.
  - intros r c' l Hmk.
    pose proof (mkRegister_registerable _ _ _ _ _ Hmk) as Hk.
    destruct (getRegister c v) as [r0|] eqn:Hg.
    + rewrite (mkRegister_found c v r0 Hk Hg) in Hmk.
      injection Hmk as <- <- <-.
      split_and!; auto. now apply mkRegister_found.
    + rewrite (mkRegister_fresh c v Hg) in Hmk.
      destruct (newRegister opts m_sem v) as [reg l'|msg] eqn:Hn; [|discriminate].
      injection Hmk as <- <- <-.
      assert (Hv : getRegister
                (set_registers (declareRegister reg (m_registers c))
                   (<[v := reg]> (m_valueToRegister c)) c) v = Some reg).
      { rewrite getRegister_insert. now destruct (decide (v = v)). }
      split_and!.
      * exact Hv.
      * intros w r0 Hw. rewrite getRegister_insert.
        destruct (decide (v = w)) as [<-|]; [congruence|exact Hw].
      * intros w Hne. rewrite getRegister_insert.
        destruct (decide (v = w)); [congruence|reflexivity].
      * intros [x Hx]. discriminate.
      * reflexivity.
      * now apply mkRegister_found.
      * intros Hc. now apply canonical_insert with (l := l').
  - intros values side w. apply getRegister_fork.
Qed.

End RegisterFacts.

(** ** Branches *)

Section BranchFacts.

Context {alu : OpSemAlu} {mem : OpSemMemManager} {ext : Externals}.
Variable opts : Options.
Variable m_sem : Bv2OpSem.

Lemma readErrorFlag_eq c bb :
  m_bb c = Some bb ->
  readErrorFlag m_sem c =
    Done (fst (store_read (m_values c) (errorFlag m_sem bb)))
      (set_values (snd (store_read (m_values c) (errorFlag m_sem bb))) c) [].
Proof.
  intros H. unfold readErrorFlag, bind, getCurrBb, gets, ctx_read. rewrite H.
  now destruct (store_read (m_values c) (errorFlag m_sem bb)).
Qed.

(** What an excluded edge leaves: the error flag alone. *)
Lemma excluded_edge_side c bb :
  m_bb c = Some bb ->
  (resetSide;; e <- readErrorFlag m_sem;; addScopedSide e)%opsem c =
    Done tt
      (set_side [fst (store_read (m_values c) (errorFlag m_sem bb))]
         (set_values (snd (store_read (m_values c) (errorFlag m_sem bb))) c)) [].
Proof.
  intros H. unfold bind at 1. unfold resetSide, modify.
  rewrite (bind_Done _ _ _ _ _ _ (readErrorFlag_eq (set_side [] c) bb H)).
  destruct c; reflexivity.
Qed.

(** C2. When the terminator statically selects a successor other than
    [dst] (an unconditional branch to another block, or a conditional
    branch on a compile-time constant whose value picks the other
    successor), the branch step returns normally, and the side-conditions
    accumulated so far are discarded and replaced by the current value of
    the error flag of the current block alone; [dst] is not entered. *)
Theorem intraBr_excluded_edge (c : Bv2OpSemContext) (inst bb dst : ValuePtr) :
  getCurrentInst m_sem c = Some inst ->
  m_bb c = Some bb ->
  staticallyExcluded m_sem inst dst = true ->
  exists c' log,
    intraBr m_sem dst c = Done tt c' log
    /\ m_side c' = [fst (store_read (m_values c) (errorFlag m_sem bb))]
    /\ m_values c' = snd (store_read (m_values c) (errorFlag m_sem bb))
    /\ m_bb c' = Some bb.
Proof.
  intros Hcur Hbb Hex. unfold staticallyExcluded in Hex.
  unfold intraBr. unfold bind at 1. unfold gets. rewrite Hcur.
  destruct (kind (valueAt m_sem inst)) as [| | | | | | | |p op]; try discriminate.
  destruct op as [|succ0|cnd succ0 succ1| | | |]; try discriminate.
  - (* unconditional branch to another block *)
    unfold bind at 1. unfold next_inst, modify. rewrite Hex.
    rewrite excluded_edge_side with (bb := bb) by (destruct c; exact Hbb).
    eexists _, _. split; [reflexivity|].
    destruct c; cbn in *. auto.
  - (* conditional branch on a constant *)
    apply andb_prop in Hex as [Hc Hv].
    unfold bind at 1. unfold next_inst, modify. rewrite Hc.
    unfold bind at 1. unfold lift.
    destruct (Bv2OpSem_getConstantValue m_sem cnd) as [[gv|] lg|]; try discriminate.
    rewrite Hv.
    rewrite excluded_edge_side with (bb := bb) by (destruct c; exact Hbb).
    eexists _, _. split; [reflexivity|].
    destruct c; cbn in *. auto.
Qed.

(** C10. An unconditional branch to exactly [dst] appends no
    side-condition: the branch step leaves the side-condition list and
    the store as they are (the error flag is not even read), and the
    context enters [dst]. *)
Theorem intraBr_unconditional_taken (c : Bv2OpSemContext)
    (inst parent dst : ValuePtr) :
  getCurrentInst m_sem c = Some inst ->
  kind (valueAt m_sem inst) = InstructionVal parent (Br dst) ->
  (m_func c = None \/ m_func c = Some (getParent m_sem dst)) ->
  exists c',
    intraBr m_sem dst c = Done tt c' []
    /\ m_side c' = m_side c
    /\ m_values c' = m_values c
    /\ m_bb c' = Some dst
    /\ m_inst c' = Some (dst, 0)
    /\ m_prev c' = match m_bb c with Some b => Some b | None => m_prev c end
    /\ c' = set_position (Some (getParent m_sem dst)) (Some dst) (Some (dst, 0))
              (match m_bb c with Some b => Some b | None => m_prev c end) c.
Proof.
  intros Hcur Hk Hf.
  unfold intraBr. unfold bind at 1. unfold gets. rewrite Hcur, Hk.
  rewrite Pos.eqb_refl. cbn [negb].
  unfold bind at 1. unfold next_inst, modify.
  unfold onBasicBlockEntry, bind, modify, gets, assert_.
  destruct c as [vs sd f b i pv rr wr sc tr fp ig rs v2r par]; cbn in *.
  destruct Hf as [-> | ->]; cbn.
  - rewrite bool_decide_true by reflexivity. cbn.
    eexists. split; [reflexivity|]. cbn. split_and!; reflexivity.
  - rewrite bool_decide_true by reflexivity. cbn.
    eexists. split; [reflexivity|]. cbn. split_and!; reflexivity.
Qed.

Lemma getOperandValue_register c v reg :
  isConstant (kind (valueAt m_sem v)) = false ->
  getRegister c v = Some reg ->
  getOperandValue m_sem v c =
    Done (Some (fst (store_read (m_values c) reg)))
      (set_values (snd (store_read (m_values c) reg)) c) [].
Proof.
  intros Hk Hg. unfold getOperandValue.
  destruct (kind (valueAt m_sem v)); try discriminate;
    unfold bind, gets, ctx_read, ret; rewrite Hg;
    destruct (store_read (m_values c) reg); reflexivity.
Qed.

Lemma getOperandValue_no_register c v :
  isConstant (kind (valueAt m_sem v)) = false ->
  getRegister c v = None ->
  exists log, getOperandValue m_sem v c = Done None c log.
Proof.
  intros Hk Hg. unfold getOperandValue.
  destruct (kind (valueAt m_sem v)); try discriminate;
    unfold bind, gets, ret, emit; rewrite Hg; eexists; reflexivity.
Qed.

(** C3, as the code has it. For a conditional branch on a non-constant
    condition whose value can be resolved (the condition has a register),
    the branch step appends exactly one side-condition, the logical OR of
    the current value of the block's error flag with the condition when
    [dst] is the first ("true") successor and with its negation otherwise,
    and then enters [dst]. When the condition has no register, nothing is
    appended and [dst] is not entered. *)
Theorem intraBr_symbolic_condition (c : Bv2OpSemContext)
    (inst parent cnd succ0 succ1 bb dst : ValuePtr) :
  getCurrentInst m_sem c = Some inst ->
  kind (valueAt m_sem inst) = InstructionVal parent (CondBr cnd succ0 succ1) ->
  isConstant (kind (valueAt m_sem cnd)) = false ->
  m_bb c = Some bb ->
  (m_func c = None \/ m_func c = Some (getParent m_sem dst)) ->
  (forall reg, getRegister c cnd = Some reg ->
     let target := fst (store_read (m_values c) reg) in
     let s1 := snd (store_read (m_values c) reg) in
     let e := fst (store_read s1 (errorFlag m_sem bb)) in
     let s2 := snd (store_read s1 (errorFlag m_sem bb)) in
     exists c',
       intraBr m_sem dst c = Done tt c' []
       /\ m_side c' =
            m_side c ++
              [boolop_lor e (if Pos.eqb succ0 dst then target else NEG target)]
       /\ m_values c' = s2
       /\ m_bb c' = Some dst
       /\ m_inst c' = Some (dst, 0)
       /\ m_prev c' = Some bb)
  /\ (getRegister c cnd = None ->
      exists c' log,
        intraBr m_sem dst c = Done tt c' log
        /\ m_side c' = m_side c
        /\ m_values c' = m_values c
        /\ m_bb c' = Some bb).
Proof.
  intros Hcur Hk Hc Hbb Hf. split.
  - intros reg Hg target s1 e s2.
    unfold intraBr. unfold bind at 1. unfold gets. rewrite Hcur, Hk.
    unfold bind at 1. unfold next_inst, modify. rewrite Hc.
    set (c1 := set_position _ _ _ _ c).
    assert (Hg1 : getRegister c1 cnd = Some reg) by (destruct c; exact Hg).
    rewrite (bind_Done _ _ _ _ _ _ (getOperandValue_register c1 cnd reg Hc Hg1)).
    set (c2 := set_values _ c1).
    assert (Hbb2 : m_bb c2 = Some bb) by (destruct c; exact Hbb).
    rewrite (bind_Done _ _ _ _ _ _ (readErrorFlag_eq c2 bb Hbb2)).
    unfold bind at 1. unfold addScopedSide, addSide, modify.
    unfold onBasicBlockEntry, bind, modify, gets, assert_.
    subst c2 c1 target s1 e s2.
    destruct c as [vs sd f b i pv rr wr sc tr fp ig rs v2r par]; cbn in *.
    subst b.
    destruct Hf as [-> | ->]; cbn;
      rewrite bool_decide_true by reflexivity; cbn;
      (eexists; split; [reflexivity|]); cbn; split_and!; reflexivity.
  - intros Hg.
    unfold intraBr. unfold bind at 1. unfold gets. rewrite Hcur, Hk.
    unfold bind at 1. unfold next_inst, modify. rewrite Hc.
    set (c1 := set_position _ _ _ _ c).
    assert (Hg1 : getRegister c1 cnd = None) by (destruct c; exact Hg).
    destruct (getOperandValue_no_register c1 cnd Hc Hg1) as [log Hop].
    rewrite (bind_Done _ _ _ _ _ _ Hop). unfold ret.
    eexists _, _. split; [reflexivity|].
    subst c1. destruct c; cbn in *. auto.
Qed.

End BranchFacts.

(** ** Loads and stores *)

Section MemoryFacts.

Context {alu : OpSemAlu} {mem : OpSemMemManager} {ext : Externals}.
Variable opts : Options.
Variable m_sem : Bv2OpSem.

Lemma set_readRegister_None_id c :
  m_readRegister c = None -> set_readRegister None c = c.
Proof. destruct c; cbn. now intros ->. Qed.

Lemma set_both_None_id c :
  m_readRegister c = None -> m_writeRegister c = None ->
  set_writeRegister None (set_readRegister None c) = c.
Proof. destruct c; cbn. now intros -> ->. Qed.

(** A load without a read register: nothing happens at all. *)
Lemma executeLoadInst_missing c addr al ty :
  m_readRegister c = None ->
  executeLoadInst m_sem addr al ty c = Done None c [].
Proof.
  intros H. unfold executeLoadInst, bind, getMemReadRegister, gets.
  now rewrite H.
Qed.

(** A store without its read or its write register: skipped, both
    registers cleared, one diagnostic. *)
Lemma executeStoreInst_missing c val addr al :
  m_readRegister c = None \/ m_writeRegister c = None ->
  executeStoreInst opts m_sem val addr al c =
    Done None (set_writeRegister None (set_readRegister None c))
      [LOG "opsem" "Skipping store"].
Proof.
  intros H.
  unfold executeStoreInst, bind, getMemReadRegister, getMemWriteRegister, gets.
  destruct H as [H|H]; rewrite H.
  - reflexivity.
  - destruct (m_readRegister c); reflexivity.
Qed.

Lemma executeLoadInst_clears c addr al ty res c' l :
  executeLoadInst m_sem addr al ty c = Done res c' l ->
  m_readRegister c' = None.
Proof.
  unfold executeLoadInst. intros H.
  apply bind_inv in H as (r & c1 & l1 & l2 & Hr & H & _).
  unfold getMemReadRegister, gets in Hr. injection Hr as <- <- <-.
  destruct (m_readRegister c) as [rreg|] eqn:Hrr.
  - apply bind_inv in H as (sc & c1 & l1 & l3 & _ & H & _).
    apply bind_inv in H as (res0 & c2 & l4 & l5 & _ & H & _).
    apply bind_inv in H as (u & c3 & l6 & l7 & Hs & H & _).
    unfold setMemReadRegister, modify in Hs. injection Hs as _ <- _.
    unfold ret in H. injection H as _ <- _.
    now destruct c2.
  - unfold ret in H. injection H as _ <- _. exact Hrr.
Qed.

Lemma executeStoreInst_clears c val addr al res c' l :
  executeStoreInst opts m_sem val addr al c = Done res c' l ->
  m_readRegister c' = None /\ m_writeRegister c' = None.
Proof.
  unfold executeStoreInst. intros H.
  apply bind_inv in H as (r & c1 & l1 & l2 & _ & H & _).
  apply bind_inv in H as (w & c2 & l3 & l4 & _ & H & _).
  apply bind_inv in H as (skip & c3 & l5 & l6 & _ & H & _).
  destruct skip.
  - apply bind_inv in H as (u1 & c4 & ? & ? & _ & H & _).
    apply bind_inv in H as (u2 & c5 & ? & ? & Hs1 & H & _).
    apply bind_inv in H as (u3 & c6 & ? & ? & Hs2 & H & _).
    unfold setMemReadRegister, modify in Hs1. injection Hs1 as _ <- _.
    unfold setMemWriteRegister, modify in Hs2. injection Hs2 as _ <- _.
    unfold ret in H. injection H as _ <- _.
    now destruct c4.
  - apply bind_inv in H as (v & c4 & ? & ? & _ & H & _).
    apply bind_inv in H as (sc & c5 & ? & ? & _ & H & _).
    apply bind_inv in H as (res0 & c6 & ? & ? & _ & H & _).
    apply bind_inv in H as (u1 & c7 & ? & ? & _ & H & _).
    apply bind_inv in H as (u2 & c8 & ? & ? & Hs1 & H & _).
    apply bind_inv in H as (u3 & c9 & ? & ? & Hs2 & H & _).
    unfold setMemReadRegister, modify in Hs1. injection Hs1 as _ <- _.
    unfold setMemWriteRegister, modify in Hs2. injection Hs2 as _ <- _.
    unfold ret in H. injection H as _ <- _.
    now destruct c7.
Qed.

(** The scalar shortcut of a load returns. *)
Lemma executeLoadInst_scalar c addr al ty rreg :
  m_readRegister c = Some rreg -> m_scalar c = true ->
  exists res c', executeLoadInst m_sem addr al ty c = Done (Some res) c' [].
Proof.
  intros Hr Hs.
  unfold executeLoadInst, bind, getMemReadRegister, isMemScalar, gets,
    ctx_read, setMemReadRegister, modify, ret.
  rewrite Hr, Hs. destruct (store_read (m_values c) rreg). cbn.
  eexists _, _. reflexivity.
Qed.

(** An ordinary load returns whenever the address is resolved and the
    memory manager returns. *)
Lemma executeLoadInst_ordinary c addr al ty rreg p c1 l1 res c2 l2 :
  m_readRegister c = Some rreg -> m_scalar c = false ->
  lookup m_sem addr c = Done (Some p) c1 l1 ->
  ctx_loadValueFromMem p ty al c1 = Done res c2 l2 ->
  exists l, executeLoadInst m_sem addr al ty c =
              Done res (set_readRegister None c2) l.
Proof.
  intros Hr Hs Hl Hm.
  unfold executeLoadInst, bind, getMemReadRegister, isMemScalar, gets,
    setMemReadRegister, modify, ret.
  rewrite Hr, Hs, Hl, Hm. eexists. reflexivity.
Qed.

(** The scalar shortcut of a store returns. *)
Lemma executeStoreInst_scalar c val addr al rreg wreg ls v c1 lv w1 :
  m_readRegister c = Some rreg -> m_writeRegister c = Some wreg ->
  isSkipped opts m_sem val = Ok false ls ->
  lookup m_sem val c = Done (Some v) c1 lv ->
  m_scalar c1 = true -> m_writeRegister c1 = Some w1 ->
  exists res c' l,
    executeStoreInst opts m_sem val addr al c = Done (Some res) c' l.
Proof.
  intros Hr Hw Hsk Hl Hs Hw1.
  unfold executeStoreInst, bind, getMemReadRegister, getMemWriteRegister,
    isMemScalar, gets, lift, ctx_write, OpSemContext_write,
    setMemReadRegister, setMemWriteRegister, modify, ret, emit.
  rewrite Hr, Hw, Hsk, Hl, Hs, Hw1. cbn.
  eexists _, _, _. reflexivity.
Qed.

(** An ordinary store returns whenever the operands are resolved and the
    memory manager returns. *)
Lemma executeStoreInst_ordinary c val addr al rreg wreg ls v c1 lv p c2 lp
    res c3 l3 :
  m_readRegister c = Some rreg -> m_writeRegister c = Some wreg ->
  isSkipped opts m_sem val = Ok false ls ->
  lookup m_sem val c = Done (Some v) c1 lv ->
  m_scalar c1 = false ->
  lookup m_sem addr c1 = Done (Some p) c2 lp ->
  ctx_storeValueToMem v p (getType (valueAt m_sem val)) al c2 = Done res c3 l3 ->
  exists l,
    executeStoreInst opts m_sem val addr al c =
      Done res (set_writeRegister None (set_readRegister None c3)) l.
Proof.
  intros Hr Hw Hsk Hl Hs Hp Hm.
  unfold executeStoreInst, bind, getMemReadRegister, getMemWriteRegister,
    isMemScalar, gets, lift, setMemReadRegister, setMemWriteRegister, modify,
    ret, emit.
  rewrite Hr, Hw, Hsk, Hl, Hs, Hp, Hm.
  destruct (bool_decide (res = None)); eexists; reflexivity.
Qed.

(** C9. Every load that returns leaves the memory read meta-register
    unset, and every store that returns leaves the read and the write
    meta-registers unset, whichever path was taken; each of the paths
    (missing register, scalar shortcut, ordinary memory access) does
    return; hence a load or store that follows without a fresh tag finds
    the meta-registers unset and is skipped. *)
Theorem load_store_consume_meta_registers :
  (forall c addr al ty res c' l,
     executeLoadInst m_sem addr al ty c = Done res c' l ->
     m_readRegister c' = None
     /\ (forall addr2 al2 ty2,
           executeLoadInst m_sem addr2 al2 ty2 c' = Done None c' []))
  /\ (forall c val addr al res c' l,
        executeStoreInst opts m_sem val addr al c = Done res c' l ->
        m_readRegister c' = None /\ m_writeRegister c' = None
        /\ (forall val2 addr2 al2,
              executeStoreInst opts m_sem val2 addr2 al2 c' =
                Done None c' [LOG "opsem" "Skipping store"])
        /\ (forall addr2 al2 ty2,
              executeLoadInst m_sem addr2 al2 ty2 c' = Done None c' []))
  /\ (forall c addr al ty,
        (m_readRegister c = None ->
           executeLoadInst m_sem addr al ty c = Done None c [])
        /\ (forall rreg, m_readRegister c = Some rreg -> m_scalar c = true ->
              exists res c',
                executeLoadInst m_sem addr al ty c = Done (Some res) c' [])
        /\ (forall rreg p c1 l1 res c2 l2,
              m_readRegister c = Some rreg -> m_scalar c = false ->
              lookup m_sem addr c = Done (Some p) c1 l1 ->
              ctx_loadValueFromMem p ty al c1 = Done res c2 l2 ->
              exists l, executeLoadInst m_sem addr al ty c =
                          Done res (set_readRegister None c2) l))
  /\ (forall c val addr al,
        (m_readRegister c = None \/ m_writeRegister c = None ->
           executeStoreInst opts m_sem val addr al c =
             Done None (set_writeRegister None (set_readRegister None c))
               [LOG "opsem" "Skipping store"])
        /\ (forall rreg wreg ls v c1 lv w1,
              m_readRegister c = Some rreg -> m_writeRegister c = Some wreg ->
              isSkipped opts m_sem val = Ok false ls ->
              lookup m_sem val c = Done (Some v) c1 lv ->
              m_scalar c1 = true -> m_writeRegister c1 = Some w1 ->
              exists res c' l,
                executeStoreInst opts m_sem val addr al c = Done (Some res) c' l)
        /\ (forall rreg wreg ls v c1 lv p c2 lp res c3 l3,
              m_readRegister c = Some rreg -> m_writeRegister c = Some wreg ->
              isSkipped opts m_sem val = Ok false ls ->
              lookup m_sem val c = Done (Some v) c1 lv ->
              m_scalar c1 = false ->
              lookup m_sem addr c1 = Done (Some p) c2 lp ->
              ctx_storeValueToMem v p (getType (valueAt m_sem val)) al c2 =
                Done res c3 l3 ->
              exists l,
                executeStoreInst opts m_sem val addr al c =
                  Done res (set_writeRegister None (set_readRegister None c3)) l)).
Proof.
  split_and!.
  - intros c addr al ty res c' l H.
    pose proof (executeLoadInst_clears _ _ _ _ _ _ _ H) as Hr.
    split; [exact Hr|]. intros. now apply executeLoadInst_missing.
  - intros c val addr al res c' l H.
    destruct (executeStoreInst_clears _ _ _ _ _ _ _ H) as [Hr Hw].
    split_and!; [exact Hr|exact Hw| |].
    + intros. rewrite executeStoreInst_missing by (now left).
      now rewrite set_both_None_id.
    + intros. now apply executeLoadInst_missing.
  - intros c addr al ty. split_and!.
    + apply executeLoadInst_missing.
    + intros. eapply executeLoadInst_scalar; eassumption.
    + intros. eapply executeLoadInst_ordinary; eassumption.
  - intros c val addr al. split_and!.
    + apply executeStoreInst_missing.
    + intros. eapply executeStoreInst_scalar; eassumption.
    + intros. eapply executeStoreInst_ordinary; eassumption.
Qed.

(** C5, as the code has it. A store executed while its read or its write
    meta-register is unset is skipped: it returns the empty result, clears
    both meta-registers and logs one diagnostic (under the [opsem] tag),
    and the store is left as it was. A load executed while its read
    meta-register is unset is skipped too, but silently: it returns the
    empty result and leaves the whole context as it is, so that a write
    meta-register that happens to be set stays set and nothing is
    logged. *)
Theorem missing_meta_register_skips (c : Bv2OpSemContext) :
  (forall val addr al,
     m_readRegister c = None \/ m_writeRegister c = None ->
     exists c',
       executeStoreInst opts m_sem val addr al c =
         Done None c' [LOG "opsem" "Skipping store"]
       /\ m_readRegister c' = None /\ m_writeRegister c' = None
       /\ m_trfrReadReg c' = m_trfrReadReg c
       /\ m_values c' = m_values c /\ m_side c' = m_side c)
  /\ (forall addr al ty,
        m_readRegister c = None ->
        executeLoadInst m_sem addr al ty c = Done None c []).
Proof.
  split.
  - intros val addr al H. rewrite executeStoreInst_missing by exact H.
    eexists. split; [reflexivity|]. destruct c; cbn. auto.
  - intros. now apply executeLoadInst_missing.
Qed.

End MemoryFacts.

(** ** memset and memcpy *)

Section MemTransferFacts.

Context {alu : OpSemAlu} {mem : OpSemMemManager} {ext : Externals}.
Variable opts : Options.
Variable m_sem : Bv2OpSem.

Lemma executeMemSetInst_symbolic c dst val length al rreg wreg l1 l2
    a c1 la v c2 lv len c3 ll :
  m_readRegister c = Some rreg -> m_writeRegister c = Some wreg ->
  isSkipped opts m_sem dst = Ok false l1 ->
  isSkipped opts m_sem val = Ok false l2 ->
  m_scalar c = false ->
  isIntegerTyN (getType (valueAt m_sem val)) 8 = true ->
  lookup m_sem dst c = Done (Some a) c1 la ->
  lookup m_sem val c1 = Done (Some v) c2 lv ->
  lookup m_sem length c2 = Done len c3 ll ->
  asConstantInt m_sem length = None ->
  executeMemSetInst opts m_sem dst val length al c =
    Unreachable "Unsupported memset with symbolic length".
Proof.
  intros Hr Hw Hd Hv Hs Hty Ha Hlv Hll Hn.
  unfold executeMemSetInst, bind, getMemReadRegister, getMemWriteRegister,
    isMemScalar, gets, lift, ret, assert_.
  rewrite Hr, Hw, Hd, Hv, Hs. cbn. rewrite Ha, Hty. cbn.
  rewrite Hlv, Hll, Hn. reflexivity.
Qed.

Lemma executeMemSetInst_result c dst val length al res c' l :
  executeMemSetInst opts m_sem dst val length al c = Done (Some res) c' l ->
  exists n, asConstantInt m_sem length = Some n.
Proof.
  intros H. destruct (asConstantInt m_sem length) as [n|] eqn:Hn; [eauto|].
  exfalso. unfold executeMemSetInst in H. rewrite Hn in H.
  apply bind_inv in H as (r & ? & ? & ? & _ & H & _).
  apply bind_inv in H as (w & ? & ? & ? & _ & H & _).
  apply bind_inv in H as (skip & ? & ? & ? & _ & H & _).
  destruct skip.
  - apply bind_inv in H as (? & ? & ? & ? & _ & H & _).
    apply bind_inv in H as (? & ? & ? & ? & _ & H & _).
    apply bind_inv in H as (? & ? & ? & ? & _ & H & _).
    discriminate.
  - apply bind_inv in H as (sc & ? & ? & ? & _ & H & _).
    apply bind_inv in H as (? & ? & ? & ? & _ & H & _).
    apply bind_inv in H as (addr & ? & ? & ? & _ & H & _).
    apply bind_inv in H as (? & ? & ? & ? & _ & H & _).
    apply bind_inv in H as (v & ? & ? & ? & _ & H & _).
    apply bind_inv in H as (len & ? & ? & ? & _ & H & _).
    apply bind_inv in H as (res0 & ? & ? & ? & Hres & H & _).
    apply bind_inv in H as (? & ? & ? & ? & _ & H & _).
    apply bind_inv in H as (? & ? & ? & ? & _ & H & _).
    apply bind_inv in H as (? & ? & ? & ? & _ & H & _).
    unfold ret in H. injection H as -> _ _.
    destruct v, addr; try discriminate Hres; unfold ret in Hres; discriminate.
Qed.

Lemma executeMemCpyInst_symbolic c dst src length al rreg wreg treg l1 l2
    a c1 la s c2 ls len c3 ll :
  m_readRegister c = Some rreg -> m_writeRegister c = Some wreg ->
  m_trfrReadReg c = Some treg ->
  isSkipped opts m_sem dst = Ok false l1 ->
  isSkipped opts m_sem src = Ok false l2 ->
  m_scalar c = false ->
  lookup m_sem dst c = Done (Some a) c1 la ->
  lookup m_sem src c1 = Done (Some s) c2 ls ->
  lookup m_sem length c2 = Done len c3 ll ->
  asConstantInt m_sem length = None ->
  executeMemCpyInst opts m_sem dst src length al c =
    Unreachable "Unsupported memcpy with symbolic length".
Proof.
  intros Hr Hw Ht Hd Hv Hs Ha Hls Hll Hn.
  unfold executeMemCpyInst, bind, getMemReadRegister, getMemWriteRegister,
    getMemTrsfrReadReg, isMemScalar, gets, lift, ret.
  rewrite Hr, Hw, Ht, Hd, Hv, Hs. cbn. rewrite Ha, Hls, Hll, Hn. reflexivity.
Qed.

Lemma executeMemCpyInst_result c dst src length al res c' l :
  executeMemCpyInst opts m_sem dst src length al c = Done (Some res) c' l ->
  exists n, asConstantInt m_sem length = Some n.
Proof.
  intros H. destruct (asConstantInt m_sem length) as [n|] eqn:Hn; [eauto|].
  exfalso. unfold executeMemCpyInst in H. rewrite Hn in H.
  apply bind_inv in H as (r & ? & ? & ? & _ & H & _).
  apply bind_inv in H as (w & ? & ? & ? & _ & H & _).
  apply bind_inv in H as (t & ? & ? & ? & _ & H & _).
  apply bind_inv in H as (skip & ? & ? & ? & _ & H & _).
  destruct skip.
  - apply bind_inv in H as (? & ? & ? & ? & _ & H & _).
    apply bind_inv in H as (? & ? & ? & ? & _ & H & _).
    apply bind_inv in H as (? & ? & ? & ? & _ & H & _).
    apply bind_inv in H as (? & ? & ? & ? & _ & H & _).
    discriminate.
  - apply bind_inv in H as (sc & ? & ? & ? & _ & H & _).
    apply bind_inv in H as (? & ? & ? & ? & _ & H & _).
    apply bind_inv in H as (d & ? & ? & ? & _ & H & _).
    apply bind_inv in H as (s & ? & ? & ? & _ & H & _).
    apply bind_inv in H as (len & ? & ? & ? & _ & H & _).
    apply bind_inv in H as (res0 & ? & ? & ? & Hres & H & _).
    apply bind_inv in H as (? & ? & ? & ? & _ & H & _).
    apply bind_inv in H as (? & ? & ? & ? & _ & H & _).
    apply bind_inv in H as (? & ? & ? & ? & _ & H & _).
    apply bind_inv in H as (? & ? & ? & ? & _ & H & _).
    unfold ret in H. injection H as -> _ _.
    destruct d, s; try discriminate Hres; unfold ret in Hres; discriminate.
Qed.

(** C6. A memset or memcpy whose length operand is not a constant integer,
    with the meta-registers set, the operands tracked and resolved and the
    memory not a scalar, ends the run with the explicit "Unsupported ...
    with symbolic length" abort; and whenever memset or memcpy returns a
    result term, the length was a constant integer. *)
Theorem memset_memcpy_symbolic_length_unsupported :
  (forall c dst val length al rreg wreg l1 l2 a c1 la v c2 lv len c3 ll,
     m_readRegister c = Some rreg -> m_writeRegister c = Some wreg ->
     isSkipped opts m_sem dst = Ok false l1 ->
     isSkipped opts m_sem val = Ok false l2 ->
     m_scalar c = false ->
     isIntegerTyN (getType (valueAt m_sem val)) 8 = true ->
     lookup m_sem dst c = Done (Some a) c1 la ->
     lookup m_sem val c1 = Done (Some v) c2 lv ->
     lookup m_sem length c2 = Done len c3 ll ->
     asConstantInt m_sem length = None ->
     executeMemSetInst opts m_sem dst val length al c =
       Unreachable "Unsupported memset with symbolic length")
  /\ (forall c dst src length al rreg wreg treg l1 l2 a c1 la s c2 ls len c3 ll,
        m_readRegister c = Some rreg -> m_writeRegister c = Some wreg ->
        m_trfrReadReg c = Some treg ->
        isSkipped opts m_sem dst = Ok false l1 ->
        isSkipped opts m_sem src = Ok false l2 ->
        m_scalar c = false ->
        lookup m_sem dst c = Done (Some a) c1 la ->
        lookup m_sem src c1 = Done (Some s) c2 ls ->
        lookup m_sem length c2 = Done len c3 ll ->
        asConstantInt m_sem length = None ->
        executeMemCpyInst opts m_sem dst src length al c =
          Unreachable "Unsupported memcpy with symbolic length")
  /\ (forall c dst val length al res c' l,
        executeMemSetInst opts m_sem dst val length al c = Done (Some res) c' l ->
        exists n, asConstantInt m_sem length = Some n)
  /\ (forall c dst src length al res c' l,
        executeMemCpyInst opts m_sem dst src length al c = Done (Some res) c' l ->
        exists n, asConstantInt m_sem length = Some n).
Proof.
  split_and!.
  - intros. eapply executeMemSetInst_symbolic; eassumption.
  - intros. eapply executeMemCpyInst_symbolic; eassumption.
  - intros. eapply executeMemSetInst_result; eassumption.
  - intros. eapply executeMemCpyInst_result; eassumption.
Qed.

End MemTransferFacts.

(** ** calloc *)

Section CallocFacts.

Context {alu : OpSemAlu} {mem : OpSemMemManager} {ext : Externals}.
Variable opts : Options.
Variable m_sem : Bv2OpSem.

Lemma isSkipped_pointer_inst inst elem :
  getType (valueAt m_sem inst) = PointerTy elem ->
  shadowMem (valueAt m_sem inst) = None ->
  exists b, isSkipped opts m_sem inst = Ok b [].
Proof.
  intros Hty Hsm. unfold isSkipped, isShadowMem. rewrite Hsm, Hty.
  destruct (onlyUsedByShadowMem (valueAt m_sem inst)); eexists; reflexivity.
Qed.

(** Giving the call its fresh pointer returns and adds no side-condition. *)
Lemma calloc_fresh_pointer c inst parent op elem :
  hasMemManager c = true ->
  kind (valueAt m_sem inst) = InstructionVal parent op ->
  getType (valueAt m_sem inst) = PointerTy elem ->
  shadowMem (valueAt m_sem inst) = None ->
  exists c' l,
    (h <- havoc opts m_sem inst;; setValue opts m_sem inst h)%opsem c =
      Done tt c' l
    /\ m_side c' = m_side c.
Proof.
  intros Hm Hk Hty Hsm.
  destruct (isSkipped_pointer_inst inst elem Hty Hsm) as [b Hb].
  unfold bind at 1. unfold havoc at 1. unfold bind at 1. unfold lift at 1.
  rewrite Hb. destruct b.
  - (* the pointer is not tracked *)
    cbn. unfold setValue, unhandledValue. rewrite Hk.
    unfold bind, unhandledInst, isIgnored, ignore, gets, modify, emit, havoc,
      lift, ret. rewrite Hb. cbn.
    destruct (bool_decide (inst ∈ m_ignored c)); cbn;
      (eexists _, _; split; [reflexivity|]); destruct c; reflexivity.
  - unfold bind at 1. unfold gets at 1. rewrite Hm. cbn [assert_].
    unfold bind at 1. unfold ret at 1.
    unfold bind at 1. unfold gets at 1.
    destruct (getRegister c inst) as [reg|] eqn:Hg.
    + unfold bind, ctx_havoc, ctx_write, OpSemContext_write, modify, ret,
        setValue, write, lift, gets.
      rewrite Hb.
      destruct c as [vs sd f b i pv rr wr sc tr fp ig rs v2r par].
      cbn in *. rewrite Hg. cbn.
      eexists _, _; split; reflexivity.
    + assert (Hn : newRegister opts m_sem inst =
                     Ok (mkConst (VALUE inst) (mkPtrRegisterSort inst)) []).
      { unfold newRegister, newInstRegister, isShadowMem.
        now rewrite Hk, Hsm, Hty. }
      unfold bind at 1.
      rewrite (mkRegister_fresh opts m_sem c inst Hg), Hn.
      unfold bind, ctx_havoc, ctx_write, OpSemContext_write, modify, ret,
        setValue, write, lift, gets.
      rewrite Hb.
      destruct c as [vs sd f b i pv rr wr sc tr fp ig rs v2r par].
      cbn in *. rewrite lookup_insert_eq. cbn.
      eexists _, _; split; reflexivity.
Qed.

(** C4. For a call to calloc interpreted with both memory meta-registers
    set (on a memory that is not a scalar), exactly one side-condition is
    added, a definition of the current value of the written memory
    register: with [IgnoreCalloc2] on it is defined equal to the current
    value of the read memory register and nothing speaks of zeros; with
    the option off it is defined equal to the constant array that holds
    the null pointer (zero) at every address. *)
Theorem visitCallocCall_zero_fill_toggle (c : Bv2OpSemContext)
    (inst parent : ValuePtr) (op : Opcode) (elem : Type_) (rreg wreg : Expr) :
  m_readRegister c = Some rreg ->
  m_writeRegister c = Some wreg ->
  m_scalar c = false ->
  hasMemManager c = true ->
  kind (valueAt m_sem inst) = InstructionVal parent op ->
  getType (valueAt m_sem inst) = PointerTy elem ->
  shadowMem (valueAt m_sem inst) = None ->
  let wv := fst (store_read (m_values c) wreg) in
  let s1 := snd (store_read (m_values c) wreg) in
  exists c' log,
    visitCallocCall opts m_sem inst c = Done tt c' log
    /\ m_side c' =
         m_side c ++
           [EQ wv (if IgnoreCalloc2 opts then fst (store_read s1 rreg)
                   else CONST_ARRAY ptrSort nullPtr)].
Proof.
  intros Hr Hw Hs Hm Hk Hty Hsm wv s1.
  unfold visitCallocCall.
  unfold bind at 1. unfold getMemReadRegister at 1. unfold gets at 1.
  unfold bind at 1. unfold getMemReadRegister at 1. unfold gets at 1.
  rewrite Hr. cbn [bool_decide decide_rel orb].
  rewrite bool_decide_false by discriminate. cbn [orb].
  unfold bind at 1. unfold isMemScalar at 1. unfold gets at 1.
  rewrite Hs. cbn [negb assert_].
  unfold bind at 1. unfold ret at 1.
  unfold bind at 1.
  destruct (IgnoreCalloc2 opts).
  - unfold bind at 1. unfold emit at 1.
    unfold bind at 1. unfold getMemWriteRegister at 1. unfold gets at 1.
    rewrite Hw. unfold readMemRegister at 1.
    unfold bind at 1. unfold ctx_read at 1.
    destruct (store_read (m_values c) wreg) as [wv0 s0] eqn:Hsr.
    unfold bind at 1. unfold getMemReadRegister at 1. unfold gets at 1.
    replace (m_readRegister (set_values s0 c)) with (Some rreg)
      by (destruct c; cbn in *; congruence).
    unfold readMemRegister at 1.
    unfold bind at 1. unfold ctx_read at 1.
    replace (m_values (set_values s0 c)) with s0 by (destruct c; reflexivity).
    destruct (store_read s0 rreg) as [rv s2] eqn:Hsr2.
    unfold addDef, addSide, modify.
    match goal with
    | |- context [(h <- havoc opts m_sem inst;; setValue opts m_sem inst h)%opsem ?c1] =>
        destruct (calloc_fresh_pointer c1 inst parent op elem) as (c' & l & Hrun & Hside);
          [destruct c; exact Hm | exact Hk | exact Hty | exact Hsm |]
    end.
    rewrite Hrun. eexists _, _. split; [reflexivity|].
    rewrite Hside. subst wv s1. rewrite ?Hsr. cbn. rewrite ?Hsr2.
    destruct c; reflexivity.
  - unfold bind at 1. unfold emit at 1.
    unfold bind at 1. unfold getMemWriteRegister at 1. unfold gets at 1.
    rewrite Hw. unfold readMemRegister at 1.
    unfold bind at 1. unfold ctx_read at 1.
    destruct (store_read (m_values c) wreg) as [wv0 s0] eqn:Hsr.
    unfold addDef, addSide, modify.
    match goal with
    | |- context [(h <- havoc opts m_sem inst;; setValue opts m_sem inst h)%opsem ?c1] =>
        destruct (calloc_fresh_pointer c1 inst parent op elem) as (c' & l & Hrun & Hside);
          [destruct c; exact Hm | exact Hk | exact Hty | exact Hsm |]
    end.
    rewrite Hrun. eexists _, _. split; [reflexivity|].
    rewrite Hside. subst wv s1. rewrite ?Hsr. cbn. rewrite ?Hsr2.
    destruct c; reflexivity.
Qed.

End CallocFacts.

(** ** The store *)

Lemma store_get_app (s1 s2 : SymStore) r :
  store_get (s1 ++ s2) r =
    match store_get s1 r with
    | Some v => Some v
    | None => store_get s2 r
    end.
Proof.
  induction s1 as [|[k v] s1 IH]; cbn; [reflexivity|].
  destruct (decide (k = r)); [reflexivity|exact IH].
Qed.

Lemma store_get_not_in (s : SymStore) r :
  r ∉ map fst s -> store_get s r = None.
Proof.
  induction s as [|[k v] s IH]; cbn; [reflexivity|].
  intros Hn. apply not_elem_of_cons in Hn as [Hne Hn].
  destruct (decide (k = r)); [congruence|auto].
Qed.

Lemma store_get_NoDup (s : SymStore) r v :
  NoDup (map fst s) -> (r, v) ∈ s -> store_get s r = Some v.
Proof.
  induction s as [|[k u] s IH]; cbn; intros Hnd Hin.
  - now apply elem_of_nil in Hin.
  - apply NoDup_cons in Hnd as [Hk Hnd].
    apply elem_of_cons in Hin as [[= -> ->]|Hin].
    + now destruct (decide (k = k)).
    + destruct (decide (k = r)) as [->|]; [|auto].
      exfalso. apply Hk. apply list_elem_of_fmap. now exists (r, v).
Qed.

(** Reading never changes the value a register holds. *)
Lemma store_read_preserves (s : SymStore) k r a :
  store_get s r = Some a -> store_get (snd (store_read s k)) r = Some a.
Proof.
  intros H. unfold store_read, store_havoc.
  destruct (store_get s k) eqn:Hk; cbn; [exact H|].
  destruct (decide (k = r)) as [->|]; [congruence|exact H].
Qed.

Lemma store_read_defined (s : SymStore) r v :
  store_get s r = Some v -> store_read s r = (v, s).
Proof. intros H. unfold store_read. now rewrite H. Qed.

(** ** PHI nodes *)

Section PhiFacts.

Context {alu : OpSemAlu} {mem : OpSemMemManager} {ext : Externals}.
Variable opts : Options.
Variable m_sem : Bv2OpSem.

(** The first loop only reads: with every incoming operand resolved in the
    entry state, it collects the values of the operands of the tracked
    PHI nodes there, passes over the skipped ones and leaves the state as
    it is. *)
Lemma readIncoming_pure c prev items rest :
  m_prev c = Some prev ->
  Forall (leading_phi opts m_sem c prev) items ->
  startsWithoutPhi m_sem rest ->
  readIncoming opts m_sem (map lp_phi items ++ rest) c =
    Done (map (fun x => Some (pa_val x)) (assignments items)) c (skipLog items).
Proof.
  intros Hprev Hall Hrest.
  induction Hall as [|[phi lg|x] items Hx Hall IH]; cbn [map app lp_phi].
  - destruct rest as [|i rest]; [reflexivity|].
    cbn in *. now rewrite Hrest.
  - destruct Hx as [(parent & incoming & Hk) Hsk].
    cbn [readIncoming assignments skipLog]. rewrite Hk. cbn [isPHINode].
    unfold bind at 1. unfold lift at 1. rewrite Hsk. rewrite IH. reflexivity.
  - destruct Hx as (parent & incoming & b & Hk & Hsk & Hfind & Hreg & Hlook).
    cbn [readIncoming assignments skipLog map]. rewrite Hk. cbn [isPHINode].
    unfold bind at 1. unfold lift at 1. rewrite Hsk.
    unfold bind at 1. unfold getPrevBb at 1. unfold gets at 1. rewrite Hprev.
    unfold bind at 1. unfold getIncomingValueForBlock at 1. rewrite Hfind.
    unfold ret at 1. cbn [snd].
    unfold bind at 1. rewrite Hlook.
    unfold bind at 1. rewrite IH. unfold ret. cbn. now rewrite app_nil_r.
Qed.

Lemma leading_writable c prev p :
  leading_phi opts m_sem c prev p -> writable_phi opts m_sem c p.
Proof.
  destruct p as [phi lg|x]; [exact id|].
  intros (parent & incoming & b & Hk & Hsk & _ & Hreg & _).
  split_and!; eauto.
Qed.

Lemma getRegister_set_values s c v :
  getRegister (set_values s c) v = getRegister c v.
Proof. now destruct c. Qed.

Lemma assignPhi_getRegister c x w :
  getRegister (assignPhi opts c x) w =
    match getRegister c (pa_phi x) with
    | Some _ => getRegister c w
    | None => if decide (pa_phi x = w) then Some (pa_reg x) else getRegister c w
    end.
Proof.
  unfold assignPhi. rewrite getRegister_set_values.
  destruct (getRegister c (pa_phi x)); [reflexivity|].
  apply getRegister_insert.
Qed.

(** Associations are kept. *)
Lemma assignPhi_mono c x w r0 :
  getRegister c w = Some r0 -> getRegister (assignPhi opts c x) w = Some r0.
Proof.
  intros Hw. rewrite assignPhi_getRegister.
  destruct (getRegister c (pa_phi x)) eqn:Hx; [exact Hw|].
  destruct (decide (pa_phi x = w)) as [<-|]; [congruence|exact Hw].
Qed.

Lemma assignPhi_other c x w :
  w <> pa_phi x -> getRegister (assignPhi opts c x) w = getRegister c w.
Proof.
  intros Hw. rewrite assignPhi_getRegister.
  destruct (getRegister c (pa_phi x)); [reflexivity|].
  destruct (decide (pa_phi x = w)); [congruence|reflexivity].
Qed.

Lemma assignPhi_self c x :
  phi_register opts m_sem c x ->
  getRegister (assignPhi opts c x) (pa_phi x) = Some (pa_reg x).
Proof.
  intros [Hx|[Hx _]]; rewrite assignPhi_getRegister, Hx; [reflexivity|].
  now destruct (decide (pa_phi x = pa_phi x)).
Qed.

Lemma phi_register_assignPhi c x y :
  phi_register opts m_sem c x -> phi_register opts m_sem c y ->
  phi_register opts m_sem (assignPhi opts c x) y.
Proof.
  intros Hx [Hy|[Hy Hn]].
  - left. now apply assignPhi_mono.
  - destruct (decide (pa_phi y = pa_phi x)) as [E|Hne].
    + left. rewrite E. rewrite (assignPhi_self c x Hx).
      destruct Hx as [Hx|[_ Hx]]; congruence.
    + right. split; [|exact Hn]. now rewrite assignPhi_other.
Qed.

Lemma writable_assignPhi c x p :
  phi_register opts m_sem c x -> writable_phi opts m_sem c p ->
  writable_phi opts m_sem (assignPhi opts c x) p.
Proof.
  intros Hx. destruct p as [phi lg|y]; [exact id|].
  intros (Hk & Hsk & Hy). split_and!; try assumption.
  now apply phi_register_assignPhi.
Qed.

(** [setValue] on a tracked PHI node. *)
Lemma setValue_assignPhi c x parent incoming :
  kind (valueAt m_sem (pa_phi x)) = InstructionVal parent (PHI incoming) ->
  isSkipped opts m_sem (pa_phi x) = Ok false [] ->
  phi_register opts m_sem c x ->
  setValue opts m_sem (pa_phi x) (Some (pa_val x)) c =
    Done tt (assignPhi opts c x) [].
Proof.
  intros Hk Hsk Hreg. unfold setValue, write, assignPhi.
  unfold bind at 1. unfold lift at 1. rewrite Hsk.
  unfold bind at 1. unfold gets at 1.
  destruct Hreg as [Hreg|[Hreg Hnew]]; rewrite Hreg.
  - reflexivity.
  - rewrite Hk. cbn [isConstant negb assert_].
    unfold bind at 1. unfold ret at 1.
    unfold bind at 1. rewrite (mkRegister_fresh opts m_sem c _ Hreg), Hnew.
    reflexivity.
Qed.

(** The second loop only writes, one PHI register after the other, the
    values collected by the first, and passes over the skipped nodes
    without consuming a value. *)
Lemma writePhis_run c items rest :
  Forall (writable_phi opts m_sem c) items ->
  startsWithoutPhi m_sem rest ->
  writePhis opts m_sem (map lp_phi items ++ rest)
      (map (fun x => Some (pa_val x)) (assignments items)) c =
    Done tt (fold_left (assignPhi opts) (assignments items) c) (skipLog items).
Proof.
  intros Hall Hrest. revert c Hall.
  induction items as [|[phi lg|x] items IH]; intros c Hall; cbn [map app lp_phi].
  - destruct rest as [|i rest]; [reflexivity|].
    cbn in *. now rewrite Hrest.
  - apply Forall_cons in Hall as [[(parent & incoming & Hk) Hsk] Hall].
    cbn [writePhis assignments skipLog]. rewrite Hk. cbn [isPHINode].
    unfold bind at 1. unfold lift at 1. rewrite Hsk.
    rewrite (IH c Hall). reflexivity.
  - apply Forall_cons in Hall as [((parent & incoming & Hk) & Hsk & Hreg) Hall].
    cbn [writePhis assignments skipLog map fold_left]. rewrite Hk. cbn [isPHINode].
    unfold bind at 1. unfold lift at 1. rewrite Hsk.
    unfold bind at 1.
    rewrite (setValue_assignPhi c x parent incoming Hk Hsk Hreg).
    rewrite IH; [reflexivity|].
    eapply Forall_impl; [exact Hall|].
    intros p. now apply writable_assignPhi.
Qed.

Lemma visitBasicBlock_Phi_run c BB prev items rest :
  instructions m_sem BB = map lp_phi items ++ rest ->
  startsWithoutPhi m_sem rest ->
  m_prev c = Some prev ->
  Forall (leading_phi opts m_sem c prev) items ->
  visitBasicBlock_Phi opts m_sem BB c =
    Done tt (fold_left (assignPhi opts) (assignments items) c)
      (skipLog items ++ skipLog items).
Proof.
  intros Hi Hrest Hprev Hall.
  unfold visitBasicBlock_Phi. rewrite Hi.
  rewrite (bind_Done _ _ _ _ _ _
             (readIncoming_pure c prev items rest Hprev Hall Hrest)).
  rewrite writePhis_run; [reflexivity| |exact Hrest].
  eapply Forall_impl; [exact Hall|].
  intros p. apply leading_writable.
Qed.

Lemma fold_assignPhi_values xs c :
  m_values (fold_left (assignPhi opts) xs c) =
    rev (map (fun x => (pa_reg x, written opts (pa_val x))) xs) ++ m_values c.
Proof.
  revert c. induction xs as [|x xs IH]; intros c; cbn [fold_left map rev].
  - reflexivity.
  - rewrite IH, <- app_assoc. cbn [app]. f_equal.
    unfold assignPhi, store_write.
    destruct (getRegister c (pa_phi x)); now destruct c.
Qed.

Lemma sameButRegisters_refl c : sameButRegisters c c.
Proof. unfold sameButRegisters. now destruct c. Qed.

Lemma sameButRegisters_trans c c1 c2 :
  sameButRegisters c c1 -> sameButRegisters c1 c2 -> sameButRegisters c c2.
Proof.
  unfold sameButRegisters. intros E1 E2. rewrite E2, E1. now destruct c.
Qed.

Lemma fold_assignPhi_same xs c :
  sameButRegisters c (fold_left (assignPhi opts) xs c).
Proof.
  revert c. induction xs as [|x xs IH]; intros c; cbn [fold_left].
  - apply sameButRegisters_refl.
  - eapply sameButRegisters_trans; [|apply IH].
    unfold sameButRegisters, assignPhi.
    destruct (getRegister c (pa_phi x)); now destruct c.
Qed.

Lemma fold_assignPhi_mono xs c w r0 :
  getRegister c w = Some r0 ->
  getRegister (fold_left (assignPhi opts) xs c) w = Some r0.
Proof.
  revert c. induction xs as [|x xs IH]; intros c Hw; cbn [fold_left].
  - exact Hw.
  - apply IH. now apply assignPhi_mono.
Qed.

Lemma fold_assignPhi_other xs c w :
  w ∉ map pa_phi xs ->
  getRegister (fold_left (assignPhi opts) xs c) w = getRegister c w.
Proof.
  revert c. induction xs as [|x xs IH]; intros c Hw; cbn [fold_left].
  - reflexivity.
  - cbn in Hw. apply not_elem_of_cons in Hw as [Hne Hw].
    rewrite IH by exact Hw. now apply assignPhi_other.
Qed.

Lemma fold_assignPhi_self xs c x :
  Forall (phi_register opts m_sem c) xs -> x ∈ xs ->
  getRegister (fold_left (assignPhi opts) xs c) (pa_phi x) = Some (pa_reg x).
Proof.
  revert c. induction xs as [|y xs IH]; intros c Hall Hx; cbn [fold_left].
  - now apply elem_of_nil in Hx.
  - apply Forall_cons in Hall as [Hy Hall].
    assert (Hall' : Forall (phi_register opts m_sem (assignPhi opts c y)) xs).
    { eapply Forall_impl; [exact Hall|].
      intros z. now apply phi_register_assignPhi. }
    apply elem_of_cons in Hx as [->|Hx].
    + apply fold_assignPhi_mono. now apply assignPhi_self.
    + now apply IH.
Qed.

Lemma tracked_assignments c prev items :
  Forall (leading_phi opts m_sem c prev) items ->
  Forall (tracked_phi opts m_sem c prev) (assignments items).
Proof.
  induction 1 as [|[phi lg|x] items Hx Hall IH]; cbn [assignments].
  - constructor.
  - exact IH.
  - constructor; assumption.
Qed.

Lemma tracked_phi_register c prev x :
  tracked_phi opts m_sem c prev x -> phi_register opts m_sem c x.
Proof. now intros (? & ? & ? & _ & _ & _ & H & _). Qed.

Lemma phi_parallel_assignment c BB prev items rest :
  instructions m_sem BB = map lp_phi items ++ rest ->
  startsWithoutPhi m_sem rest ->
  m_prev c = Some prev ->
  Forall (leading_phi opts m_sem c prev) items ->
  NoDup (map pa_reg (assignments items)) ->
  exists c',
    visitBasicBlock_Phi opts m_sem BB c =
      Done tt c' (skipLog items ++ skipLog items)
    /\ (forall x, x ∈ assignments items ->
          getRegister c' (pa_phi x) = Some (pa_reg x)
          /\ store_get (m_values c') (pa_reg x) = Some (written opts (pa_val x)))
    /\ (forall r, r ∉ map pa_reg (assignments items) ->
          store_get (m_values c') r = store_get (m_values c) r)
    /\ (forall w r0, getRegister c w = Some r0 -> getRegister c' w = Some r0)
    /\ (forall w, w ∉ map pa_phi (assignments items) ->
          getRegister c' w = getRegister c w)
    /\ sameButRegisters c c'.
Proof.
  intros Hi Hrest Hprev Hall Hnd.
  rewrite (visitBasicBlock_Phi_run c BB prev items rest Hi Hrest Hprev Hall).
  eexists. split; [reflexivity|].
  set (xs := assignments items) in *.
  set (ws := rev (map (fun x => (pa_reg x, written opts (pa_val x))) xs)).
  assert (Hfst : map fst ws = rev (map pa_reg xs)).
  { subst ws. rewrite map_rev, map_map. reflexivity. }
  assert (Hregs : Forall (phi_register opts m_sem c) xs).
  { eapply Forall_impl; [apply (tracked_assignments c prev items Hall)|].
    intros x. apply tracked_phi_register. }
  rewrite fold_assignPhi_values. fold ws.
  split_and!.
  - intros x Hx. split; [now apply fold_assignPhi_self|].
    rewrite store_get_app.
    rewrite (store_get_NoDup ws (pa_reg x) (written opts (pa_val x))).
    + reflexivity.
    + rewrite Hfst. apply NoDup_ListNoDup, NoDup_rev. now apply NoDup_ListNoDup.
    + subst ws. apply list_elem_of_In. rewrite <- in_rev.
      apply (in_map (fun x => (pa_reg x, written opts (pa_val x)))).
      now apply list_elem_of_In.
  - intros r Hr. rewrite store_get_app.
    rewrite store_get_not_in; [reflexivity|].
    rewrite Hfst. now rewrite list_elem_of_In, <- in_rev, <- list_elem_of_In.
  - intros w r0. apply fold_assignPhi_mono.
  - intros w. apply fold_assignPhi_other.
  - apply fold_assignPhi_same.
Qed.
Lemma readsOnly_refl c : readsOnly c c.
Proof. split; [now destruct c|auto]. Qed.

Lemma readsOnly_trans c c1 c2 :
  readsOnly c c1 -> readsOnly c1 c2 -> readsOnly c c2.
Proof.
  intros [E1 H1] [E2 H2]. split; [|auto].
  rewrite E2, E1. now destruct c.
Qed.

Lemma ctx_read_readsOnly r c v c1 l :
  ctx_read r c = Done v c1 l -> readsOnly c c1.
Proof.
  unfold ctx_read. destruct (store_read (m_values c) r) as [v' s'] eqn:Hs.
  intros [= <- <- <-]. split; [now destruct c|].
  intros r0 a Ha. replace (m_values (set_values s' c)) with s'
    by (now destruct c).
  change s' with (snd (v', s')). rewrite <- Hs. now apply store_read_preserves.
Qed.

Lemma lift_same {A} (o : Outcome A) c a c1 l :
  lift o c = Done a c1 l -> c1 = c.
Proof. unfold lift. destruct o; [|discriminate]. now intros [= <- <- <-]. Qed.

Lemma ctx_getConstantValue_same v c res c1 l :
  ctx_getConstantValue m_sem v c = Done res c1 l -> c1 = c.
Proof.
  unfold ctx_getConstantValue.
  destruct (isNullValue _ || isConstantPointerNull _).
  { now intros [= <- <- <-]. }
  destruct (kind (valueAt m_sem v));
    repeat match goal with
      | |- context [if ?b then _ else _] => destruct b
      end;
    try (now intros [= <- <- <-]);
    try (unfold bind, emit, ret; now intros [= <- <- <-]);
    (intros H; apply bind_inv in H as (g & c2 & l1 & l2 & Hl & H & _);
     apply lift_same in Hl as ->; destruct g; now injection H as <- <- <-).
Qed.

Lemma getOperandValue_readsOnly v c res c1 l :
  getOperandValue m_sem v c = Done res c1 l -> readsOnly c c1.
Proof.
  unfold getOperandValue.
  destruct (kind (valueAt m_sem v)); intros H;
    apply bind_inv in H as (x & c2 & l1 & l2 & Hx & H & _);
    try (unfold gets in Hx; injection Hx as <- <- <-;
         destruct (getRegister c v) as [reg|];
         [ apply bind_inv in H as (e & c3 & ? & ? & He & H & _);
           unfold ret in H; injection H as <- <- <-;
           now apply ctx_read_readsOnly in He
         | first [ apply ctx_getConstantValue_same in H as ->
                 | unfold ret in H; injection H as <- <- <-
                 | unfold bind, emit, ret in H; injection H as <- <- <- ];
           apply readsOnly_refl ]);
    try (apply ctx_getConstantValue_same in Hx as ->;
         apply bind_inv in H as (u & c3 & ? & ? & Hu & H & _);
         unfold assert_ in Hu; destruct (bool_decide _); [|discriminate];
         unfold ret in Hu, H; injection Hu as <- <- <-; injection H as <- <- <-;
         apply readsOnly_refl).
Qed.

(** The first loop writes no register: it leaves every value held by a
    register in place. *)
Lemma readIncoming_readsOnly insts c ops c1 l :
  readIncoming opts m_sem insts c = Done ops c1 l -> readsOnly c c1.
Proof.
  revert c ops c1 l.
  induction insts as [|phi rest IH]; intros c ops c1 l; cbn [readIncoming].
  - intros [= <- <- <-]. apply readsOnly_refl.
  - destruct (isPHINode (kind (valueAt m_sem phi))) as [incoming|].
    2: { intros [= <- <- <-]. apply readsOnly_refl. }
    intros H. apply bind_inv in H as (sk & c2 & ? & ? & Hsk & H & _).
    apply lift_same in Hsk as ->. destruct sk; [now apply IH in H|].
    apply bind_inv in H as (prev & c3 & ? & ? & Hp & H & _).
    unfold getPrevBb, gets in Hp. injection Hp as <- <- <-.
    apply bind_inv in H as (v & c4 & ? & ? & Hv & H & _).
    assert (c4 = c) as ->.
    { unfold getIncomingValueForBlock in Hv. destruct (m_prev c); [|discriminate].
      match type of Hv with
      | context [match ?f with _ => _ end] => destruct f; [|discriminate]
      end.
      now injection Hv as <- <- <-. }
    apply bind_inv in H as (e & c5 & ? & ? & He & H & _).
    apply getOperandValue_readsOnly in He.
    apply bind_inv in H as (es & c6 & ? & ? & Hes & H & _).
    apply IH in Hes. unfold ret in H. injection H as <- <- <-.
    now apply readsOnly_trans with (c1 := c5).
Qed.

(** The register built for a value names the value. *)
Lemma newRegister_names v r l :
  newRegister opts m_sem v = Ok r l -> registerValue r = Some v.
Proof.
  unfold newRegister, newInstRegister, isShadowMem, mkConst, boolConst.
  intros H. repeat case_match; simplify_eq; reflexivity.
Qed.

Lemma newRegister_inj v1 v2 r l1 l2 :
  newRegister opts m_sem v1 = Ok r l1 ->
  newRegister opts m_sem v2 = Ok r l2 ->
  v1 = v2.
Proof.
  intros H1 H2.
  apply newRegister_names in H1. apply newRegister_names in H2. congruence.
Qed.

Lemma canonical_distinct c v1 v2 r1 r2 :
  canonical opts m_sem c -> v1 <> v2 ->
  getRegister c v1 = Some r1 -> getRegister c v2 = Some r2 ->
  r1 <> r2.
Proof.
  intros Hc Hne H1 H2 ->.
  destruct (canonical_getRegister opts m_sem c Hc _ _ H1) as [l1 E1].
  destruct (canonical_getRegister opts m_sem c Hc _ _ H2) as [l2 E2].
  apply Hne. eapply newRegister_inj; eassumption.
Qed.

(** An instruction whose register holds a value is looked up without any
    change to the machine. *)
Lemma lookup_instruction_defined c v parent op reg a :
  kind (valueAt m_sem v) = InstructionVal parent op ->
  getRegister c v = Some reg ->
  store_get (m_values c) reg = Some a ->
  lookup m_sem v c = Done (Some a) c [].
Proof.
  intros Hk Hg Hs. unfold lookup.
  rewrite (getOperandValue_register m_sem c v reg) by (now rewrite ?Hk).
  rewrite (store_read_defined _ _ _ Hs). cbn. now destruct c.
Qed.

(** *** Every returning run *)

Lemma canonical_values s c :
  canonical opts m_sem (set_values s c) <-> canonical opts m_sem c.
Proof. now destruct c. Qed.

Lemma canonical_ignored s c :
  canonical opts m_sem (set_ignored s c) <-> canonical opts m_sem c.
Proof. now destruct c. Qed.

Lemma ctx_getConstantValue_position v c c' :
  ctx_getConstantValue m_sem v c' =
    match ctx_getConstantValue m_sem v c with
    | Done r _ l => Done r c' l
    | Unreachable msg => Unreachable msg
    end.
Proof.
  unfold ctx_getConstantValue.
  destruct (isNullValue _ || isConstantPointerNull _); [reflexivity|].
  destruct (kind (valueAt m_sem v));
    repeat match goal with
      | |- context [if ?b then _ else _] => destruct b
      end;
    try reflexivity;
    unfold bind, lift; destruct (Bv2OpSem_getConstantValue m_sem v) as [[g|] lg|];
    reflexivity.
Qed.

(** A register that is read in a state it leaves as it is holds the value
    read. *)
Lemma ctx_read_unchanged r c a l :
  ctx_read r c = Done a c l -> store_get (m_values c) r = Some a.
Proof.
  unfold ctx_read, store_read, store_havoc.
  destruct (store_get (m_values c) r) as [u|].
  - now intros [= <- _ _].
  - intros [= _ E _]. apply (f_equal m_values) in E.
    replace (m_values (set_values _ c)) with
      ((r, VARIANT (length (m_values c)) r) :: m_values c) in E
      by now destruct c.
    apply (f_equal (@length _)) in E. cbn in E. lia.
Qed.

(** An operand resolved in the entry state is looked up as the same term
    after any number of reads. *)
Lemma lookup_resolved_stable c ci v a e ci' li :
  readsOnly c ci ->
  lookup m_sem v c = Done (Some a) c [] ->
  lookup m_sem v ci = Done e ci' li ->
  e = Some a.
Proof.
  intros [Hci Hpres]. unfold lookup, getOperandValue.
  assert (Hg : getRegister ci v = getRegister c v).
  { rewrite Hci. apply getRegister_set_values. }
  assert (Hreg : forall (k : M (option Expr)),
    (k c = Done (Some a) c [] -> k ci = Done e ci' li -> e = Some a) ->
    (reg <- gets (fun c => getRegister c v);;
     match reg with
     | Some reg => e <- ctx_read reg;; ret (Some e)
     | None => k
     end) c = Done (Some a) c [] ->
    (reg <- gets (fun c => getRegister c v);;
     match reg with
     | Some reg => e <- ctx_read reg;; ret (Some e)
     | None => k
     end) ci = Done e ci' li ->
    e = Some a).
  { intros k Hk H0 H1.
    apply bind_inv in H0 as (x0 & c0 & l0 & l0' & Hx0 & H0 & E0).
    unfold gets in Hx0. injection Hx0 as <- <- <-.
    apply bind_inv in H1 as (x1 & c1 & l1 & l1' & Hx1 & H1 & E1).
    unfold gets in Hx1. injection Hx1 as <- <- <-.
    rewrite Hg in H1. cbn in E0, E1. subst l0' li.
    destruct (getRegister c v) as [reg|]; [|now apply Hk].
    apply bind_inv in H0 as (e0 & c3 & l3 & l3' & He & Hr & E3).
    unfold ret in Hr. injection Hr as -> -> <-.
    apply ctx_read_unchanged in He. apply Hpres in He.
    apply bind_inv in H1 as (e1 & c4 & l4 & l4' & He1 & Hr1 & E4).
    unfold ret in Hr1. injection Hr1 as <- _ _.
    unfold ctx_read, store_read in He1. rewrite He in He1.
    now injection He1 as <- _ _. }
  assert (Hconst : ctx_getConstantValue m_sem v c = Done (Some a) c [] ->
                   ctx_getConstantValue m_sem v ci = Done e ci' li ->
                   e = Some a).
  { intros H0 H1. rewrite (ctx_getConstantValue_position v c ci), H0 in H1.
    now injection H1 as <- _ _. }
  assert (Hassert :
    (res <- ctx_getConstantValue m_sem v;;
     assert_ (bool_decide (is_Some res)) "res";; ret res) c
      = Done (Some a) c [] ->
    (res <- ctx_getConstantValue m_sem v;;
     assert_ (bool_decide (is_Some res)) "res";; ret res) ci
      = Done e ci' li ->
    e = Some a).
  { intros H0 H1.
    apply bind_inv in H0 as (x0 & c0 & l0 & l0' & Hx0 & H0 & E0).
    apply bind_inv in H1 as (x1 & c1 & l1 & l1' & Hx1 & H1 & E1).
    rewrite (ctx_getConstantValue_position v c ci), Hx0 in Hx1.
    injection Hx1 as <- <- <-.
    apply bind_inv in H0 as (u0 & c3 & l3 & l3' & Ha0 & Hr0 & E3).
    apply bind_inv in H1 as (u1 & c4 & l4 & l4' & Ha1 & Hr1 & E4).
    unfold ret in Hr0, Hr1. injection Hr0 as -> _ _. now injection Hr1 as <- _ _. }
  destruct (kind (valueAt m_sem v)).
  - apply Hreg. discriminate.
  - apply Hreg, Hconst.
  - apply Hreg, Hconst.
  - apply Hassert.
  - apply Hassert.
  - apply Hassert.
  - apply Hassert.
  - apply Hreg. unfold bind, emit, ret. discriminate.
  - apply Hreg. unfold bind, emit, ret. discriminate.
Qed.

Lemma writesOnlyTo_refl v c : canonical opts m_sem c -> writesOnlyTo opts m_sem v c c.
Proof. intros H. split_and!; auto. Qed.

Lemma writesOnlyTo_trans v c c1 c2 :
  writesOnlyTo opts m_sem v c c1 -> writesOnlyTo opts m_sem v c1 c2 ->
  writesOnlyTo opts m_sem v c c2.
Proof.
  intros (_ & P1 & M1 & S1) (C2 & P2 & M2 & S2).
  split_and!; auto; [congruence|].
  intros r Hr. rewrite (S2 r Hr). apply S1.
  intros Hv. apply Hr. now apply M2.
Qed.

Lemma mkRegister_writesOnlyTo v c r c1 l :
  mkRegister opts m_sem v c = Done r c1 l ->
  canonical opts m_sem c ->
  writesOnlyTo opts m_sem v c c1 /\ getRegister c1 v = Some r.
Proof.
  intros Hmk Hc.
  pose proof (mkRegister_registerable opts m_sem _ _ _ _ _ Hmk) as Hk.
  destruct (getRegister c v) as [r0|] eqn:Hg.
  - rewrite (mkRegister_found opts m_sem c v r0 Hk Hg) in Hmk.
    injection Hmk as <- <- <-. split; [now apply writesOnlyTo_refl|exact Hg].
  - rewrite (mkRegister_fresh opts m_sem c v Hg) in Hmk.
    destruct (newRegister opts m_sem v) as [reg l'|msg] eqn:Hn; [|discriminate].
    injection Hmk as <- <- <-. split.
    + split_and!.
      * now apply canonical_insert with (l := l').
      * now destruct c.
      * intros w r0 Hw. rewrite getRegister_insert.
        destruct (decide (v = w)) as [<-|]; [congruence|exact Hw].
      * intros r0 _. now destruct c.
    + rewrite getRegister_insert. now destruct (decide (v = v)).
Qed.

(** A write to the store at the register of [v]. *)
Lemma store_writesOnlyTo v reg ws c :
  canonical opts m_sem c ->
  getRegister c v = Some reg ->
  Forall (fun w => fst w = reg) ws ->
  writesOnlyTo opts m_sem v c (set_values (ws ++ m_values c) c).
Proof.
  intros Hc Hg Hws. split_and!.
  - now apply canonical_values.
  - now destruct c.
  - intros w r0. now rewrite getRegister_set_values.
  - intros r. rewrite getRegister_set_values, Hg. intros Hr.
    replace (m_values (set_values (ws ++ m_values c) c)) with (ws ++ m_values c)
      by now destruct c.
    rewrite store_get_app, store_get_not_in; [reflexivity|].
    intros Hin. apply list_elem_of_fmap in Hin as ([k u] & -> & Hin).
    rewrite Forall_forall in Hws. apply Hws in Hin.
    cbn in *. congruence.
Qed.

Lemma write_writesOnlyTo v e c u c2 l :
  write opts m_sem v e c = Done u c2 l ->
  canonical opts m_sem c ->
  writesOnlyTo opts m_sem v c c2.
Proof.
  unfold write. intros H Hc.
  apply bind_inv in H as (sk & c0 & ? & ? & Hsk & H & _).
  apply lift_same in Hsk as ->.
  destruct sk.
  { unfold ret in H. injection H as _ <- _. now apply writesOnlyTo_refl. }
  apply bind_inv in H as (reg & c0 & ? & ? & Hreg & H & _).
  unfold gets in Hreg. injection Hreg as <- <- _.
  destruct (getRegister c v) as [reg|] eqn:Hg.
  - unfold ctx_write, OpSemContext_write, modify in H. injection H as _ <- _.
    apply (store_writesOnlyTo v reg [(reg, written opts e)] c Hc Hg).
    now repeat constructor.
  - apply bind_inv in H as (u0 & c0 & ? & ? & Ha & H & _).
    unfold assert_ in Ha. destruct (negb _); [|discriminate].
    unfold ret in Ha. injection Ha as _ <- _.
    apply bind_inv in H as (reg & c1 & ? & ? & Hmk & H & _).
    destruct (mkRegister_writesOnlyTo _ _ _ _ _ Hmk Hc) as [Hw Hg1].
    eapply writesOnlyTo_trans; [exact Hw|].
    unfold ctx_write, OpSemContext_write, modify in H. injection H as _ <- _.
    apply (store_writesOnlyTo v reg [(reg, written opts e)] c1);
      [apply Hw|exact Hg1|now repeat constructor].
Qed.

Lemma havoc_writesOnlyTo v c h c2 l :
  havoc opts m_sem v c = Done h c2 l ->
  canonical opts m_sem c ->
  writesOnlyTo opts m_sem v c c2.
Proof.
  unfold havoc. intros H Hc.
  apply bind_inv in H as (sk & c0 & ? & ? & Hsk & H & _).
  apply lift_same in Hsk as ->.
  destruct sk.
  { unfold ret in H. injection H as _ <- _. now apply writesOnlyTo_refl. }
  apply bind_inv in H as (hm & c0 & ? & ? & Hhm & H & _).
  unfold gets in Hhm. injection Hhm as <- <- _.
  apply bind_inv in H as (u0 & c0 & ? & ? & Ha & H & _).
  unfold assert_ in Ha. destruct (hasMemManager c); [|discriminate].
  unfold ret in Ha. injection Ha as _ <- _.
  apply bind_inv in H as (reg & c0 & ? & ? & Hreg & H & _).
  unfold gets in Hreg. injection Hreg as <- <- _.
  assert (Hstore : forall reg c1 h c2 l,
    canonical opts m_sem c1 -> getRegister c1 v = Some reg ->
    (f <- ctx_havoc reg;;
     ctx_write opts reg (coerce reg f);; ret (Some (coerce reg f))) c1
      = Done h c2 l ->
    writesOnlyTo opts m_sem v c1 c2).
  { clear. intros reg c1 h c2 l Hc Hg H.
    unfold bind, ctx_havoc, store_havoc, ctx_write, OpSemContext_write,
      modify, ret in H. cbn in H. injection H as _ <- _.
    pose proof (store_writesOnlyTo v reg
      [(reg, written opts (coerce reg (VARIANT (length (m_values c1)) reg)));
       (reg, VARIANT (length (m_values c1)) reg)] c1 Hc Hg) as Hw.
    replace (set_values _ (set_values _ c1)) with
      (set_values
         ([(reg, written opts (coerce reg (VARIANT (length (m_values c1)) reg)));
           (reg, VARIANT (length (m_values c1)) reg)] ++ m_values c1) c1)
      by now destruct c1.
    apply Hw. now repeat constructor. }
  destruct (getRegister c v) as [reg|] eqn:Hg.
  - exact (Hstore reg c h c2 _ Hc Hg H).
  - apply bind_inv in H as (reg & c1 & ? & ? & Hmk & H & _).
    destruct (mkRegister_writesOnlyTo _ _ _ _ _ Hmk Hc) as [Hw Hg1].
    eapply writesOnlyTo_trans; [exact Hw|].
    exact (Hstore reg c1 h c2 _ (proj1 Hw) Hg1 H).
Qed.

Lemma unhandledValue_writesOnlyTo v c u c2 l :
  unhandledValue m_sem v c = Done u c2 l ->
  canonical opts m_sem c ->
  writesOnlyTo opts m_sem v c c2.
Proof.
  intros H Hc.
  enough (c2 = c \/ exists s, c2 = set_ignored s c) as [->| [s ->]].
  - now apply writesOnlyTo_refl.
  - split_and!.
    + now apply canonical_ignored.
    + now destruct c.
    + intros w r0. now destruct c.
    + intros r _. now destruct c.
  - unfold unhandledValue, unhandledInst, isIgnored, ignore, bind, gets,
      modify, emit, ret in H.
    destruct (kind (valueAt m_sem v));
      try (injection H as _ <- _; now left).
    destruct (bool_decide _); injection H as _ <- _; eauto.
Qed.

Lemma setValue_writesOnlyTo v e c c2 l :
  setValue opts m_sem v e c = Done tt c2 l ->
  canonical opts m_sem c ->
  writesOnlyTo opts m_sem v c c2.
Proof.
  unfold setValue. intros H Hc. destruct e as [e|].
  - now apply write_writesOnlyTo in H.
  - apply bind_inv in H as (u & c1 & ? & ? & Hu & H & _).
    apply bind_inv in H as (h & c3 & ? & ? & Hh & H & _).
    unfold ret in H. injection H as <- _.
    pose proof (unhandledValue_writesOnlyTo _ _ _ _ _ Hu Hc) as Hw.
    eapply writesOnlyTo_trans; [exact Hw|].
    apply (havoc_writesOnlyTo _ _ _ _ _ Hh). apply Hw.
Qed.

(** Giving a value to another node leaves the register of [phi] and what
    it holds. *)
Lemma holds_writesOnlyTo phi reg u v c c2 :
  v <> phi ->
  holds opts m_sem phi reg u c ->
  writesOnlyTo opts m_sem v c c2 ->
  holds opts m_sem phi reg u c2.
Proof.
  intros Hne (Hc & Hg & Hs) (Hc2 & _ & Hm & Hst).
  pose proof (Hm _ _ Hg) as Hg2.
  split_and!; [exact Hc2|exact Hg2|].
  rewrite Hst; [exact Hs|].
  intros Hv. now apply (canonical_distinct c2 v phi reg reg Hc2 Hne Hv Hg2).
Qed.

(** The tracked node itself ends with the value it is given. *)
Lemma setValue_holds phi a c c2 l :
  isSkipped opts m_sem phi = Ok false [] ->
  setValue opts m_sem phi (Some a) c = Done tt c2 l ->
  canonical opts m_sem c ->
  exists reg, holds opts m_sem phi reg (written opts a) c2.
Proof.
  unfold setValue, write. intros Hsk H Hc.
  apply bind_inv in H as (sk & c0 & ? & ? & Hsk' & H & _).
  unfold lift in Hsk'. rewrite Hsk in Hsk'. injection Hsk' as <- <- _.
  apply bind_inv in H as (reg & c0 & ? & ? & Hreg & H & _).
  unfold gets in Hreg. injection Hreg as <- <- _.
  assert (Hstore : forall reg c1,
    canonical opts m_sem c1 -> getRegister c1 phi = Some reg ->
    holds opts m_sem phi reg (written opts a)
      (set_values (store_write (m_values c1) reg (written opts a)) c1)).
  { intros reg c1 Hc1 Hg. split_and!.
    - now apply canonical_values.
    - now rewrite getRegister_set_values.
    - destruct c1; cbn. now destruct (decide (reg = reg)). }
  destruct (getRegister c phi) as [reg|] eqn:Hg.
  - unfold ctx_write, OpSemContext_write, modify in H. injection H as <- _.
    exists reg. now apply Hstore.
  - apply bind_inv in H as (u0 & c0 & ? & ? & Ha & H & _).
    unfold assert_ in Ha. destruct (negb _); [|discriminate].
    unfold ret in Ha. injection Ha as _ <- _.
    apply bind_inv in H as (reg & c1 & ? & ? & Hmk & H & _).
    destruct (mkRegister_writesOnlyTo _ _ _ _ _ Hmk Hc) as [Hw Hg1].
    unfold ctx_write, OpSemContext_write, modify in H. injection H as <- _.
    exists reg. apply Hstore; [apply Hw|exact Hg1].
Qed.

(** The second loop, on nodes other than [phi]. *)
Lemma writePhis_frame insts ops c c' l phi reg u :
  writePhis opts m_sem insts ops c = Done tt c' l ->
  phi ∉ insts ->
  holds opts m_sem phi reg u c ->
  holds opts m_sem phi reg u c'.
Proof.
  revert ops c l.
  induction insts as [|p insts IH]; intros ops c l H Hn Hh; cbn [writePhis] in H.
  - unfold ret in H. now injection H as <- _.
  - apply not_elem_of_cons in Hn as [Hne Hn].
    destruct (isPHINode (kind (valueAt m_sem p))) as [inc|].
    2: { unfold ret in H. now injection H as <- _. }
    apply bind_inv in H as (sk & c0 & ? & ? & Hsk & H & _).
    apply lift_same in Hsk as ->.
    destruct sk; [now apply (IH _ _ _ H)|].
    destruct ops as [|e ops]; [discriminate|].
    apply bind_inv in H as ([] & c1 & ? & ? & Hset & H & _).
    apply (IH _ _ _ H Hn).
    apply (holds_writesOnlyTo phi reg u p c c1); [congruence|exact Hh|].
    apply (setValue_writesOnlyTo _ _ _ _ _ Hset). apply Hh.
Qed.

(** The two loops, walked together: the value the first loop collects for
    a tracked node whose operand is resolved at block entry is the value of
    the operand there, and it is what the register of the node holds when
    the second loop is over. *)
Lemma phi_pre_update c0 prev phi parent incoming b v a phis :
  forall rest c ops c1 l1 cw c' l2,
    lookup m_sem v c0 = Done (Some a) c0 [] ->
    kind (valueAt m_sem phi) = InstructionVal parent (PHI incoming) ->
    isSkipped opts m_sem phi = Ok false [] ->
    List.find (fun p => Pos.eqb (fst p) prev) incoming = Some (b, v) ->
    Forall (fun p => isPHINode (kind (valueAt m_sem p)) <> None) phis ->
    NoDup (phis ++ rest) ->
    phi ∈ phis ->
    readsOnly c0 c ->
    m_prev c0 = Some prev ->
    readIncoming opts m_sem (phis ++ rest) c = Done ops c1 l1 ->
    canonical opts m_sem cw ->
    writePhis opts m_sem (phis ++ rest) ops cw = Done tt c' l2 ->
    exists reg, holds opts m_sem phi reg (written opts a) c'.
Proof.
  induction phis as [|p phis IH];
    intros rest c ops c1 l1 cw c' l2 Hlook Hk Hsk Hfind Hphis Hnd Hin Hro Hprev
      Hread Hcw Hwrite.
  { now apply elem_of_nil in Hin. }
  apply Forall_cons in Hphis as [Hp Hphis].
  cbn [app] in Hnd. apply NoDup_cons in Hnd as [Hpn Hnd].
  cbn [app readIncoming] in Hread. cbn [app writePhis] in Hwrite.
  destruct (isPHINode (kind (valueAt m_sem p))) as [inc|] eqn:Hinc;
    [|contradiction].
  apply bind_inv in Hread as (sk & cr & ? & ? & Hskr & Hread & _).
  pose proof (lift_same _ _ _ _ _ Hskr) as ->.
  apply bind_inv in Hwrite as (sk' & cw0 & ? & ? & Hskw & Hwrite & _).
  pose proof (lift_same _ _ _ _ _ Hskw) as ->.
  unfold lift in Hskr, Hskw.
  destruct (isSkipped opts m_sem p) as [skp lp|] eqn:Hskp; [|discriminate].
  injection Hskr as <- _. injection Hskw as <- _.
  destruct skp.
  - apply elem_of_cons in Hin as [->|Hin]; [congruence|].
    eapply (IH rest c ops c1 _ cw c'); eassumption.
  - apply bind_inv in Hread as (pv & cr & ? & ? & Hpv & Hread & _).
    unfold getPrevBb, gets in Hpv. injection Hpv as <- <- _.
    assert (Hprevc : m_prev c = Some prev).
    { destruct Hro as [-> _]. now destruct c0. }
    rewrite Hprevc in Hread.
    apply bind_inv in Hread as (v' & cr & ? & ? & Hv' & Hread & _).
    assert (cr = c /\ exists b',
              List.find (fun q => Pos.eqb (fst q) prev) inc = Some (b', v'))
      as [-> [b' Hfind']].
    { unfold getIncomingValueForBlock in Hv'.
      destruct (List.find (fun q => Pos.eqb (fst q) prev) inc) as [[b' v'']|];
        [|discriminate].
      unfold ret in Hv'. cbn in Hv'. injection Hv' as <- <- _. eauto. }
    apply bind_inv in Hread as (e & c2 & ? & ? & He & Hread & _).
    apply bind_inv in Hread as (ops' & c3 & ? & ? & Hrest & Hread & _).
    unfold ret in Hread. injection Hread as <- _ _.
    apply bind_inv in Hwrite as ([] & cw1 & ? & ? & Hset & Hwrite & _).
    pose proof (getOperandValue_readsOnly _ _ _ _ _ He) as Hro2.
    pose proof (readsOnly_trans _ _ _ Hro Hro2) as Hro02.
    pose proof (setValue_writesOnlyTo _ _ _ _ _ Hset Hcw) as Hw.
    apply elem_of_cons in Hin as [->|Hin].
    + assert (inc = incoming) as ->.
      { rewrite Hk in Hinc. cbn in Hinc. congruence. }
      assert (v' = v) as -> by (rewrite Hfind in Hfind'; congruence).
      pose proof (lookup_resolved_stable c0 c v a e c2 _ Hro Hlook He) as ->.
      destruct (setValue_holds _ _ _ _ _ Hsk Hset Hcw) as [reg Hh].
      exists reg. now apply (writePhis_frame _ _ _ _ _ _ _ _ Hwrite).
    + eapply (IH rest c2 ops' c3 _ cw1 c'); try eassumption. apply Hw.
Qed.
(** A PHI node that is looked up without touching the machine has a
    register, and the register holds the term. *)
Lemma lookup_instruction_resolved c v parent op a :
  kind (valueAt m_sem v) = InstructionVal parent op ->
  lookup m_sem v c = Done (Some a) c [] ->
  exists reg, getRegister c v = Some reg
              /\ store_get (m_values c) reg = Some a.
Proof.
  intros Hk H. unfold lookup, getOperandValue in H. rewrite Hk in H.
  apply bind_inv in H as (x & c0 & ? & ? & Hx & H & _).
  unfold gets in Hx. injection Hx as <- <- _.
  destruct (getRegister c v) as [reg|]; [|discriminate].
  apply bind_inv in H as (e & c1 & ? & ? & He & Hr & _).
  unfold ret in Hr. injection Hr as -> ->.
  exists reg. split; [reflexivity|]. now apply ctx_read_unchanged in He.
Qed.

Lemma phi_pre_update_run c BB prev phis rest phi parent incoming b v a c' l :
  instructions m_sem BB = phis ++ rest ->
  Forall (fun p => isPHINode (kind (valueAt m_sem p)) <> None) phis ->
  NoDup (instructions m_sem BB) ->
  phi ∈ phis ->
  canonical opts m_sem c ->
  m_prev c = Some prev ->
  kind (valueAt m_sem phi) = InstructionVal parent (PHI incoming) ->
  isSkipped opts m_sem phi = Ok false [] ->
  List.find (fun p => Pos.eqb (fst p) prev) incoming = Some (b, v) ->
  lookup m_sem v c = Done (Some a) c [] ->
  visitBasicBlock_Phi opts m_sem BB c = Done tt c' l ->
  exists reg, holds opts m_sem phi reg (written opts a) c'.
Proof.
  intros Hi Hphis Hnd Hin Hc Hprev Hk Hsk Hfind Hlook Hrun.
  unfold visitBasicBlock_Phi in Hrun. rewrite Hi in Hrun, Hnd.
  apply bind_inv in Hrun as (ops & c1 & l1 & l2 & Hread & Hwrite & _).
  pose proof (readIncoming_readsOnly _ _ _ _ _ Hread) as [Hc1 _].
  eapply (phi_pre_update c prev phi parent incoming b v a phis rest c ops c1 l1
            c1 c' l2); try eassumption.
  - apply readsOnly_refl.
  - rewrite Hc1. now apply canonical_values.
Qed.

(** *** The run returns *)

(** Whether a lookup returns, and whether it gives a term, is the same
    after any number of reads. *)
Lemma lookup_returns_stable c ci v e c1 l :
  readsOnly c ci ->
  lookup m_sem v c = Done e c1 l ->
  exists e' ci' l',
    lookup m_sem v ci = Done e' ci' l' /\ (is_Some e -> is_Some e').
Proof.
  intros [Hci _]. unfold lookup, getOperandValue.
  assert (Hg : getRegister ci v = getRegister c v).
  { rewrite Hci. apply getRegister_set_values. }
  assert (Hreg : forall (k : M (option Expr)),
    (k c = Done e c1 l ->
     exists e' ci' l', k ci = Done e' ci' l' /\ (is_Some e -> is_Some e')) ->
    (reg <- gets (fun c => getRegister c v);;
     match reg with
     | Some reg => e <- ctx_read reg;; ret (Some e)
     | None => k
     end) c = Done e c1 l ->
    exists e' ci' l',
      (reg <- gets (fun c => getRegister c v);;
       match reg with
       | Some reg => e <- ctx_read reg;; ret (Some e)
       | None => k
       end) ci = Done e' ci' l' /\ (is_Some e -> is_Some e')).
  { intros k Hk H0.
    apply bind_inv in H0 as (x0 & c0 & l0 & l0' & Hx0 & H0 & E0).
    unfold gets in Hx0. injection Hx0 as <- <- <-. cbn in E0. subst l.
    unfold bind at 1. unfold gets at 1. rewrite Hg.
    destruct (getRegister c v) as [reg|].
    - unfold bind, ctx_read, ret.
      destruct (store_read (m_values ci) reg) as [u s]. cbn. eauto 10.
    - destruct (Hk H0) as (e' & ci' & l' & -> & He). eauto 10. }
  assert (Hconst : ctx_getConstantValue m_sem v c = Done e c1 l ->
    exists e' ci' l',
      ctx_getConstantValue m_sem v ci = Done e' ci' l'
      /\ (is_Some e -> is_Some e')).
  { intros H0. rewrite (ctx_getConstantValue_position v c ci), H0. eauto 10. }
  assert (Hassert :
    (res <- ctx_getConstantValue m_sem v;;
     assert_ (bool_decide (is_Some res)) "res";; ret res) c = Done e c1 l ->
    exists e' ci' l',
      (res <- ctx_getConstantValue m_sem v;;
       assert_ (bool_decide (is_Some res)) "res";; ret res) ci
        = Done e' ci' l'
      /\ (is_Some e -> is_Some e')).
  { intros H0.
    apply bind_inv in H0 as (x0 & c0 & l0 & l0' & Hx0 & H0 & E0).
    unfold bind at 1. rewrite (ctx_getConstantValue_position v c ci), Hx0.
    unfold bind, assert_, ret in H0 |- *.
    destruct (bool_decide (is_Some x0)); [|discriminate].
    cbn in H0 |- *. injection H0 as <- _ _. eauto 10. }
  destruct (kind (valueAt m_sem v)).
  - apply Hreg. intros [= <- _ _]. unfold ret. eauto 10.
  - apply Hreg, Hconst.
  - apply Hreg, Hconst.
  - apply Hassert.
  - apply Hassert.
  - apply Hassert.
  - apply Hassert.
  - apply Hreg. unfold bind, emit, ret. intros [= <- _ _]. cbn. eauto 10.
  - apply Hreg. unfold bind, emit, ret. intros [= <- _ _]. cbn. eauto 10.
Qed.

Lemma unhandledValue_returns v c :
  exists c2 l,
    unhandledValue m_sem v c = Done tt c2 l
    /\ (c2 = c \/ exists s, c2 = set_ignored s c).
Proof.
  unfold unhandledValue, unhandledInst, isIgnored, ignore, bind, gets,
    modify, emit, ret.
  destruct (kind (valueAt m_sem v)); try (now eauto 10).
  destruct (bool_decide _); cbn; eauto 10.
Qed.

(** [setValue] on a tracked PHI node returns when the node has a register
    or can be given one and, for an empty term, when the machine has its
    memory manager. *)
Lemma setValue_returns phi e c parent incoming :
  kind (valueAt m_sem phi) = InstructionVal parent (PHI incoming) ->
  isSkipped opts m_sem phi = Ok false [] ->
  is_Some (getRegister c phi) \/ (exists r l, newRegister opts m_sem phi = Ok r l) ->
  is_Some e \/ hasMemManager c = true ->
  exists c2 l, setValue opts m_sem phi e c = Done tt c2 l.
Proof.
  intros Hk Hsk Hreg He.
  assert (Hnew : getRegister c phi = None ->
                 exists r l, newRegister opts m_sem phi = Ok r l).
  { intros Hg. destruct Hreg as [[r Hr]|Hr]; [congruence|exact Hr]. }
  assert (Hmk : forall c0, getRegister c0 phi = None ->
    (exists r l, newRegister opts m_sem phi = Ok r l) ->
    exists r c3 l, mkRegister opts m_sem phi c0 = Done r c3 l).
  { intros c0 Hg (r & l & E). rewrite (mkRegister_fresh opts m_sem c0 phi Hg), E.
    eauto. }
  clear Hreg.
  unfold setValue. destruct e as [e|].
  - unfold write. unfold bind at 1. unfold lift at 1. rewrite Hsk.
    unfold bind at 1. unfold gets at 1.
    destruct (getRegister c phi) as [reg|] eqn:Hg.
    + unfold ctx_write, OpSemContext_write, modify. eauto.
    + rewrite Hk. cbn [isConstant negb assert_].
      unfold bind at 1. unfold ret at 1.
      destruct (Hmk c Hg (Hnew eq_refl)) as (r & c3 & l & Hr).
      unfold bind at 1. rewrite Hr.
      unfold ctx_write, OpSemContext_write, modify. eauto.
  - destruct He as [[x Hx]|Hmm]; [discriminate|].
    destruct (unhandledValue_returns phi c) as (cx & lx & Hu & Hcx).
    unfold bind at 1. rewrite Hu.
    assert (Hgx : getRegister cx phi = getRegister c phi).
    { destruct Hcx as [->|[s ->]]; [reflexivity|now destruct c]. }
    assert (Hmx : hasMemManager cx = true).
    { destruct Hcx as [->|[s ->]]; [exact Hmm|now destruct c]. }
    unfold havoc. unfold bind at 1 2. unfold lift at 1. rewrite Hsk.
    unfold bind at 1. unfold gets at 1. rewrite Hmx.
    unfold bind at 1. cbn [assert_]. unfold ret at 1.
    unfold bind at 1. unfold gets at 1.
    destruct (getRegister cx phi) as [reg|] eqn:Hg.
    + unfold bind, ctx_havoc, store_havoc, ctx_write, OpSemContext_write,
        modify, ret. cbn. eauto.
    + destruct (Hmk cx Hg (Hnew (eq_sym Hgx))) as (r & c3 & l & Hr).
      unfold bind at 1. rewrite Hr.
      unfold bind, ctx_havoc, store_havoc, ctx_write, OpSemContext_write,
        modify, ret. cbn. eauto.
Qed.

(** The two loops, walked together: the first returns, and the second
    returns on what the first collected, from any state the writes of the
    second loop can reach. *)
Lemma phis_return c prev rest phis :
  startsWithoutPhi m_sem rest ->
  m_prev c = Some prev ->
  Forall (ready_phi opts m_sem c prev) phis ->
  forall ci, readsOnly c ci ->
  exists ops c1 l,
    readIncoming opts m_sem (phis ++ rest) ci = Done ops c1 l
    /\ forall cw,
         canonical opts m_sem cw ->
         m_parent cw = m_parent c ->
         (forall w r, getRegister c w = Some r -> getRegister cw w = Some r) ->
         exists c' l', writePhis opts m_sem (phis ++ rest) ops cw = Done tt c' l'.
Proof.
  intros Hrest Hprev Hall.
  induction Hall as [|p phis Hp Hall IH]; intros ci Hro; cbn [app].
  - exists [], ci, []. destruct rest as [|i rest]; cbn in *.
    + split; [reflexivity|]. intros cw _ _ _. eauto.
    + rewrite Hrest. split; [reflexivity|]. intros cw _ _ _. eauto.
  - destruct Hp as (parent & incoming & Hk & Hp).
    cbn [readIncoming writePhis]. rewrite Hk. cbn [isPHINode].
    destruct Hp as [[lg Hsk]|(Hsk & Hreg & b & v & e & c1 & l & Hfind & Hlook & He)].
    + destruct (IH ci Hro) as (ops & c2 & l2 & Hread & Hwrite).
      exists ops, c2, (lg ++ l2). split.
      * unfold bind at 1. unfold lift at 1. rewrite Hsk. now rewrite Hread.
      * intros cw Hcw Hpar Hmono.
        destruct (Hwrite cw Hcw Hpar Hmono) as (c' & l' & Hw).
        exists c', (lg ++ l').
        unfold bind at 1. unfold lift at 1. rewrite Hsk. now rewrite Hw.
    + destruct (lookup_returns_stable c ci v e c1 l Hro Hlook)
        as (e' & ci' & l' & Hlook' & He').
      pose proof (getOperandValue_readsOnly _ _ _ _ _ Hlook') as Hro'.
      destruct (IH ci' (readsOnly_trans _ _ _ Hro Hro'))
        as (ops & c2 & l2 & Hread & Hwrite).
      assert (Hprevi : m_prev ci = Some prev).
      { destruct Hro as [-> _]. now destruct c. }
      exists (e' :: ops), c2, (l' ++ l2 ++ []). split.
      * unfold bind at 1. unfold lift at 1. rewrite Hsk.
        unfold bind at 1. unfold getPrevBb at 1. unfold gets at 1.
        rewrite Hprevi.
        unfold bind at 1. unfold getIncomingValueForBlock at 1. rewrite Hfind.
        unfold ret at 1. cbn [snd].
        unfold bind at 1. rewrite Hlook'.
        unfold bind at 1. rewrite Hread. reflexivity.
      * intros cw Hcw Hpar Hmono.
        destruct (setValue_returns p e' cw parent incoming Hk Hsk)
          as (cw2 & lw & Hset).
        { destruct Hreg as [[r Hr]|Hr]; [left|now right].
          rewrite (Hmono _ _ Hr). eauto. }
        { destruct He as [He|He]; [left; now apply He'|right].
          unfold hasMemManager in *. now rewrite Hpar. }
        destruct (setValue_writesOnlyTo _ _ _ _ _ Hset Hcw)
          as (Hcw2 & Hpar2 & Hmono2 & _).
        destruct (Hwrite cw2 Hcw2) as (c' & lw' & Hw).
        { congruence. }
        { intros w r Hw. apply Hmono2, Hmono, Hw. }
        exists c', (lw ++ lw').
        unfold bind at 1. unfold lift at 1. rewrite Hsk.
        unfold bind at 1. rewrite Hset. now rewrite Hw.
Qed.

Lemma visitBasicBlock_Phi_returns c BB prev phis rest :
  instructions m_sem BB = phis ++ rest ->
  startsWithoutPhi m_sem rest ->
  canonical opts m_sem c ->
  m_prev c = Some prev ->
  Forall (ready_phi opts m_sem c prev) phis ->
  exists c' l, visitBasicBlock_Phi opts m_sem BB c = Done tt c' l.
Proof.
  intros Hi Hrest Hc Hprev Hall.
  destruct (phis_return c prev rest phis Hrest Hprev Hall c (readsOnly_refl c))
    as (ops & c1 & l1 & Hread & Hwrite).
  pose proof (readIncoming_readsOnly _ _ _ _ _ Hread) as [Hc1 _].
  destruct (Hwrite c1) as (c' & l' & Hw).
  - rewrite Hc1. now apply canonical_values.
  - rewrite Hc1. now destruct c.
  - intros w r. rewrite Hc1. now rewrite getRegister_set_values.
  - exists c', (l1 ++ l').
    unfold visitBasicBlock_Phi. rewrite Hi.
    unfold bind. now rewrite Hread, Hw.
Qed.

Lemma leading_ready c prev items :
  Forall (leading_phi opts m_sem c prev) items ->
  Forall (ready_phi opts m_sem c prev) (map lp_phi items).
Proof.
  induction 1 as [|[phi lg|x] items Hx Hall IH]; cbn [map lp_phi];
    constructor; try exact IH.
  - destruct Hx as [(parent & incoming & Hk) Hsk].
    exists parent, incoming. split; [exact Hk|]. left. eauto.
  - destruct Hx as (parent & incoming & b & Hk & Hsk & Hfind & Hreg & Hlook).
    exists parent, incoming. split; [exact Hk|]. right.
    split; [exact Hsk|]. split.
    + destruct Hreg as [Hr|[_ Hr]]; [left|right]; eauto.
    + exists b, (pa_incoming x), (Some (pa_val x)), c, []. eauto.
Qed.

Lemma ready_is_phi c prev phis :
  Forall (ready_phi opts m_sem c prev) phis ->
  Forall (fun p => isPHINode (kind (valueAt m_sem p)) <> None) phis.
Proof.
  intros H. eapply Forall_impl; [exact H|].
  intros p (parent & incoming & Hk & _). now rewrite Hk.
Qed.

(** C1. PHI resolution at block entry is a parallel assignment. The visit
    is two loops over the PHI nodes that open the block: the first looks
    up the incoming operand of every tracked node, the second gives every
    tracked node the value collected for it; both pass over the nodes the
    semantics skips, which consume no value.

    (1) For a block entered from [prev] whose leading PHI nodes are skipped
    or tracked, in any mixture, each tracked one with a register it has or
    can be given and an operand resolved in the entry state, the visit
    returns; every tracked PHI register ends with the entry-state value of
    its operand, no other register of the store changes, the registers the
    machine knew are kept, and nothing else changes.

    (2) For every block whose leading PHI nodes the two loops get past
    ([ready_phi]: skipped ones, tracked ones with or without a register,
    with or without a term for their operand), two tracked PHI nodes that
    name each other as incoming value, wherever they stand among the
    others and in whichever order, exchange the values their registers
    held at entry: the visit returns, and each register ends with the
    entry-state value of the other.

    (3) In every run that returns, of any block, a tracked PHI node whose
    operand was resolved to [a] in the entry state ends with [a] in its
    register, whatever the other nodes are and whatever happens to them;
    (4) so two tracked PHI nodes that name each other exchange their
    entry-state values in every run that returns. (5) The visit returns
    whenever the leading PHI nodes are ones the two loops get past.
    (6) And in every run the first loop writes no register: whatever
    value a register holds before the reads, it holds after them. *)
Theorem phi_resolution_atomic :
  (forall c BB prev items rest,
     instructions m_sem BB = map lp_phi items ++ rest ->
     startsWithoutPhi m_sem rest ->
     m_prev c = Some prev ->
     Forall (leading_phi opts m_sem c prev) items ->
     NoDup (map pa_reg (assignments items)) ->
     exists c',
       visitBasicBlock_Phi opts m_sem BB c =
         Done tt c' (skipLog items ++ skipLog items)
       /\ (forall x, x ∈ assignments items ->
             getRegister c' (pa_phi x) = Some (pa_reg x)
             /\ store_get (m_values c') (pa_reg x)
                = Some (written opts (pa_val x)))
       /\ (forall r, r ∉ map pa_reg (assignments items) ->
             store_get (m_values c') r = store_get (m_values c) r)
       /\ (forall w r0, getRegister c w = Some r0 -> getRegister c' w = Some r0)
       /\ (forall w, w ∉ map pa_phi (assignments items) ->
             getRegister c' w = getRegister c w)
       /\ sameButRegisters c c')
  /\ (forall c BB prev phis rest p1 p2 par1 par2 inc1 inc2 b1 b2 r1 r2 a1 a2,
        instructions m_sem BB = phis ++ rest ->
        startsWithoutPhi m_sem rest ->
        NoDup (instructions m_sem BB) ->
        canonical opts m_sem c ->
        m_prev c = Some prev ->
        Forall (ready_phi opts m_sem c prev) phis ->
        p1 ∈ phis -> p2 ∈ phis ->
        kind (valueAt m_sem p1) = InstructionVal par1 (PHI inc1) ->
        kind (valueAt m_sem p2) = InstructionVal par2 (PHI inc2) ->
        List.find (fun p => Pos.eqb (fst p) prev) inc1 = Some (b1, p2) ->
        List.find (fun p => Pos.eqb (fst p) prev) inc2 = Some (b2, p1) ->
        isSkipped opts m_sem p1 = Ok false [] ->
        isSkipped opts m_sem p2 = Ok false [] ->
        getRegister c p1 = Some r1 -> getRegister c p2 = Some r2 ->
        store_get (m_values c) r1 = Some a1 ->
        store_get (m_values c) r2 = Some a2 ->
        exists c' l,
          visitBasicBlock_Phi opts m_sem BB c = Done tt c' l
          /\ store_get (m_values c') r1 = Some (written opts a2)
          /\ store_get (m_values c') r2 = Some (written opts a1))
  /\ (forall c BB prev phis rest phi parent incoming b v a c' l,
        instructions m_sem BB = phis ++ rest ->
        Forall (fun p => isPHINode (kind (valueAt m_sem p)) <> None) phis ->
        NoDup (instructions m_sem BB) ->
        phi ∈ phis ->
        canonical opts m_sem c ->
        m_prev c = Some prev ->
        kind (valueAt m_sem phi) = InstructionVal parent (PHI incoming) ->
        isSkipped opts m_sem phi = Ok false [] ->
        List.find (fun p => Pos.eqb (fst p) prev) incoming = Some (b, v) ->
        lookup m_sem v c = Done (Some a) c [] ->
        visitBasicBlock_Phi opts m_sem BB c = Done tt c' l ->
        exists reg,
          getRegister c' phi = Some reg
          /\ store_get (m_values c') reg = Some (written opts a)
          /\ (forall r0, getRegister c phi = Some r0 -> reg = r0))
  /\ (forall c BB prev phis rest p1 p2 par1 par2 inc1 inc2 b1 b2 r1 r2 a1 a2
             c' l,
        instructions m_sem BB = phis ++ rest ->
        Forall (fun p => isPHINode (kind (valueAt m_sem p)) <> None) phis ->
        NoDup (instructions m_sem BB) ->
        p1 ∈ phis -> p2 ∈ phis ->
        canonical opts m_sem c ->
        m_prev c = Some prev ->
        kind (valueAt m_sem p1) = InstructionVal par1 (PHI inc1) ->
        kind (valueAt m_sem p2) = InstructionVal par2 (PHI inc2) ->
        List.find (fun p => Pos.eqb (fst p) prev) inc1 = Some (b1, p2) ->
        List.find (fun p => Pos.eqb (fst p) prev) inc2 = Some (b2, p1) ->
        isSkipped opts m_sem p1 = Ok false [] ->
        isSkipped opts m_sem p2 = Ok false [] ->
        getRegister c p1 = Some r1 -> getRegister c p2 = Some r2 ->
        store_get (m_values c) r1 = Some a1 ->
        store_get (m_values c) r2 = Some a2 ->
        visitBasicBlock_Phi opts m_sem BB c = Done tt c' l ->
        store_get (m_values c') r1 = Some (written opts a2)
        /\ store_get (m_values c') r2 = Some (written opts a1))
  /\ (forall c BB prev phis rest,
        instructions m_sem BB = phis ++ rest ->
        startsWithoutPhi m_sem rest ->
        canonical opts m_sem c ->
        m_prev c = Some prev ->
        Forall (ready_phi opts m_sem c prev) phis ->
        exists c' l, visitBasicBlock_Phi opts m_sem BB c = Done tt c' l)
  /\ (forall insts c ops c1 l,
        readIncoming opts m_sem insts c = Done ops c1 l -> readsOnly c c1).
Proof.
  assert (Hrun : forall c BB prev phis rest phi parent incoming b v a c' l,
    instructions m_sem BB = phis ++ rest ->
    Forall (fun p => isPHINode (kind (valueAt m_sem p)) <> None) phis ->
    NoDup (instructions m_sem BB) ->
    phi ∈ phis ->
    canonical opts m_sem c ->
    m_prev c = Some prev ->
    kind (valueAt m_sem phi) = InstructionVal parent (PHI incoming) ->
    isSkipped opts m_sem phi = Ok false [] ->
    List.find (fun p => Pos.eqb (fst p) prev) incoming = Some (b, v) ->
    lookup m_sem v c = Done (Some a) c [] ->
    visitBasicBlock_Phi opts m_sem BB c = Done tt c' l ->
    exists reg,
      getRegister c' phi = Some reg
      /\ store_get (m_values c') reg = Some (written opts a)
      /\ (forall r0, getRegister c phi = Some r0 -> reg = r0)).
  { intros c BB prev phis rest phi parent incoming b v a c' l
      Hi Hphis Hnd Hin Hc Hprev Hk Hsk Hfind Hlook Hrun.
    destruct (phi_pre_update_run c BB prev phis rest phi parent incoming b v a
                c' l Hi Hphis Hnd Hin Hc Hprev Hk Hsk Hfind Hlook Hrun)
      as (reg & Hc' & Hg & Hs).
    exists reg. split_and!; [exact Hg|exact Hs|].
    intros r0 Hr0. exact (canonical_agree opts m_sem c' c phi reg r0 Hc' Hc Hg Hr0). }
  assert (Hswap : forall c BB prev phis rest p1 p2 par1 par2 inc1 inc2 b1 b2
                         r1 r2 a1 a2 c' l,
    instructions m_sem BB = phis ++ rest ->
    Forall (fun p => isPHINode (kind (valueAt m_sem p)) <> None) phis ->
    NoDup (instructions m_sem BB) ->
    p1 ∈ phis -> p2 ∈ phis ->
    canonical opts m_sem c ->
    m_prev c = Some prev ->
    kind (valueAt m_sem p1) = InstructionVal par1 (PHI inc1) ->
    kind (valueAt m_sem p2) = InstructionVal par2 (PHI inc2) ->
    List.find (fun p => Pos.eqb (fst p) prev) inc1 = Some (b1, p2) ->
    List.find (fun p => Pos.eqb (fst p) prev) inc2 = Some (b2, p1) ->
    isSkipped opts m_sem p1 = Ok false [] ->
    isSkipped opts m_sem p2 = Ok false [] ->
    getRegister c p1 = Some r1 -> getRegister c p2 = Some r2 ->
    store_get (m_values c) r1 = Some a1 ->
    store_get (m_values c) r2 = Some a2 ->
    visitBasicBlock_Phi opts m_sem BB c = Done tt c' l ->
    store_get (m_values c') r1 = Some (written opts a2)
    /\ store_get (m_values c') r2 = Some (written opts a1)).
  { intros c BB prev phis rest p1 p2 par1 par2 inc1 inc2 b1 b2 r1 r2 a1 a2 c' l
      Hi Hphis Hnd Hin1 Hin2 Hc Hprev Hk1 Hk2 Hf1 Hf2 Hs1 Hs2 Hg1 Hg2 Ha1 Ha2 Hvisit.
    pose proof (lookup_instruction_defined c p2 par2 _ r2 a2 Hk2 Hg2 Ha2) as Hl2.
    pose proof (lookup_instruction_defined c p1 par1 _ r1 a1 Hk1 Hg1 Ha1) as Hl1.
    destruct (Hrun c BB prev phis rest p1 par1 inc1 b1 p2 a2 c' l
                Hi Hphis Hnd Hin1 Hc Hprev Hk1 Hs1 Hf1 Hl2 Hvisit)
      as (reg1 & _ & Hv1 & E1).
    destruct (Hrun c BB prev phis rest p2 par2 inc2 b2 p1 a1 c' l
                Hi Hphis Hnd Hin2 Hc Hprev Hk2 Hs2 Hf2 Hl1 Hvisit)
      as (reg2 & _ & Hv2 & E2).
    rewrite (E1 _ Hg1) in Hv1. rewrite (E2 _ Hg2) in Hv2. now split. }
  split_and!.
  - intros. now apply phi_parallel_assignment with (prev := prev) (rest := rest).
  - intros c BB prev phis rest p1 p2 par1 par2 inc1 inc2 b1 b2 r1 r2 a1 a2
      Hi Hrest Hnd Hc Hprev Hall Hin1 Hin2 Hk1 Hk2 Hf1 Hf2 Hs1 Hs2 Hg1 Hg2 Ha1 Ha2.
    destruct (visitBasicBlock_Phi_returns c BB prev phis rest Hi Hrest Hc Hprev Hall)
      as (c' & l & Hvisit).
    exists c', l. split; [exact Hvisit|].
    exact (Hswap c BB prev phis rest p1 p2 par1 par2 inc1 inc2 b1 b2 r1 r2 a1 a2
             c' l Hi (ready_is_phi c prev phis Hall) Hnd Hin1 Hin2 Hc Hprev
             Hk1 Hk2 Hf1 Hf2 Hs1 Hs2 Hg1 Hg2 Ha1 Ha2 Hvisit).
  - exact Hrun.
  - exact Hswap.
  - intros c BB prev phis rest. apply visitBasicBlock_Phi_returns.
  - apply readIncoming_readsOnly.
Qed.
End PhiFacts.

(** ** The Yices solver context *)

(** C8. [pop] does what [push] does: it calls the context-push operation
    of the solver, not its inverse, so that [push] followed by [pop]
    leaves the context two levels deeper than it was, never in the state
    before the push, which the solver's own pop would restore. *)
Theorem Yices_pop_duplicates_push :
  (forall y, Yices.pop y = Yices.push y)
  /\ (forall y, Yices.pop (Yices.push y) <> y)
  /\ (forall y,
        length (Yices.levels (Yices.d_ctx (Yices.pop (Yices.push y)))) =
          S (S (length (Yices.levels (Yices.d_ctx y)))))
  /\ (forall y,
        Yices.yices_pop (Yices.d_ctx (Yices.push y)) = Yices.d_ctx y).
Proof.
  split_and!.
  - reflexivity.
  - intros [[ls]] H. injection H as H.
    apply (f_equal (@length _)) in H. cbn in H. lia.
  - reflexivity.
  - intros [[ls]]. reflexivity.
Qed.

(** ** Values: reports, writes and reads *)

Section ValueFacts.

Context {alu : OpSemAlu} {mem : OpSemMemManager} {ext : Externals}.
Variable opts : Options.
Variable m_sem : Bv2OpSem.

Lemma unhandledInst_run inst c :
  unhandledInst inst c =
    if bool_decide (inst ∈ m_ignored c) then Done tt c []
    else Done tt (set_ignored ({[inst]} ∪ m_ignored c) c)
           [LOG "opsem" "unhandled instruction"].
Proof.
  unfold unhandledInst, bind, isIgnored, ignore, gets, modify, emit, ret.
  destruct (bool_decide (inst ∈ m_ignored c)); reflexivity.
Qed.

Lemma skipInst_run inst c :
  shadowMem (valueAt m_sem inst) = None ->
  skipInst opts m_sem inst c =
    if bool_decide (inst ∈ m_ignored c) then Done tt c []
    else Done tt (set_ignored ({[inst]} ∪ m_ignored c) c)
           [LOG "opsem" "skipping instruction"].
Proof.
  intros Hs.
  unfold skipInst, isShadowMem. rewrite Hs. cbn.
  unfold bind, isIgnored, ignore, gets, modify, emit, ret.
  destruct (bool_decide (inst ∈ m_ignored c)); reflexivity.
Qed.

Lemma ignored_set_ignored s c : m_ignored (set_ignored s c) = s.
Proof. now destruct c. Qed.

(** X1. An instruction that is not a shadow-memory instruction is reported
    at most once: [unhandledInst] and [skipInst] both record it in the set
    of ignored instructions and print one diagnostic only when it was not
    there yet; once recorded, either of them returns without printing and
    without changing the machine. *)
Theorem ignored_instruction_reported_once (inst : ValuePtr)
    (c : Bv2OpSemContext) :
  shadowMem (valueAt m_sem inst) = None ->
  let c1 := set_ignored ({[inst]} ∪ m_ignored c) c in
  let once (d : Diag) := if bool_decide (inst ∈ m_ignored c) then [] else [d] in
  unhandledInst inst c =
    Done tt c1 (once (LOG "opsem" "unhandled instruction"))
  /\ skipInst opts m_sem inst c =
       Done tt c1 (once (LOG "opsem" "skipping instruction"))
  /\ unhandledInst inst c1 = Done tt c1 []
  /\ skipInst opts m_sem inst c1 = Done tt c1 []
  /\ (inst ∈ m_ignored c -> c1 = c).
Proof.
  intros Hs c1 once.
  assert (Hid : inst ∈ m_ignored c -> c1 = c).
  { intros Hin.
    assert (E : {[inst]} ∪ m_ignored c = m_ignored c)
      by (apply subseteq_union_1_L, singleton_subseteq_l, Hin).
    subst c1. rewrite E. now destruct c. }
  assert (Hin1 : inst ∈ m_ignored c1).
  { subst c1. rewrite ignored_set_ignored. set_solver. }
  rewrite !unhandledInst_run, !(skipInst_run _ _ Hs).
  rewrite (bool_decide_true _ Hin1). subst once. cbn.
  destruct (decide (inst ∈ m_ignored c)) as [Hin|Hin].
  - rewrite (bool_decide_true _ Hin), (Hid Hin). auto.
  - rewrite (bool_decide_false _ Hin). auto.
Qed.

Lemma isSkipped_false_log v ls :
  isSkipped opts m_sem v = Ok false ls -> ls = [].
Proof.
  unfold isSkipped. intros H.
  destruct (isShadowMem opts m_sem v) as [[|] scalar]; [congruence|].
  destruct (getType (valueAt m_sem v));
    try destruct (onlyUsedByShadowMem (valueAt m_sem v));
    try discriminate; congruence.
Qed.

Lemma getOperandValue_registerable c v reg :
  registerable m_sem v = true ->
  getRegister c v = Some reg ->
  getOperandValue m_sem v c =
    Done (Some (fst (store_read (m_values c) reg)))
      (set_values (snd (store_read (m_values c) reg)) c) [].
Proof.
  unfold registerable. intros Hk Hg. unfold getOperandValue.
  destruct (kind (valueAt m_sem v)); try discriminate;
    unfold bind, gets, ctx_read, ret; rewrite Hg;
    destruct (store_read (m_values c) reg); reflexivity.
Qed.

Lemma write_found c v ls reg e :
  isSkipped opts m_sem v = Ok false ls ->
  getRegister c v = Some reg ->
  write opts m_sem v e c =
    Done tt (set_values ((reg, written opts e) :: m_values c) c) [].
Proof.
  intros Hsk Hg. pose proof (isSkipped_false_log _ _ Hsk) as ->.
  unfold write, bind, lift, gets. rewrite Hsk, Hg. reflexivity.
Qed.

Lemma write_fresh c v ls e :
  isSkipped opts m_sem v = Ok false ls ->
  getRegister c v = None ->
  write opts m_sem v e c =
    if isConstant (kind (valueAt m_sem v)) then Unreachable "!isa<Constant>(v)"
    else
      match newRegister opts m_sem v with
      | Ok reg l =>
          Done tt
            (set_values ((reg, written opts e) :: m_values c)
               (set_registers (declareRegister reg (m_registers c))
                  (<[v := reg]> (m_valueToRegister c)) c)) l
      | Fatal msg => Unreachable msg
      end.
Proof.
  intros Hsk Hg. pose proof (isSkipped_false_log _ _ Hsk) as ->.
  unfold write, bind, lift, gets. rewrite Hsk, Hg.
  destruct (isConstant (kind (valueAt m_sem v))); [reflexivity|]. cbn.
  rewrite (mkRegister_fresh opts m_sem c v Hg).
  destruct (newRegister opts m_sem v) as [reg l|msg]; [|reflexivity].
  cbn. rewrite app_nil_r. now destruct c.
Qed.

Lemma lookup_written c v reg u s :
  registerable m_sem v = true ->
  getRegister c v = Some reg ->
  m_values c = (reg, u) :: s ->
  lookup m_sem v c = Done (Some u) c [].
Proof.
  intros Hk Hg Hs. unfold lookup.
  rewrite (getOperandValue_registerable c v reg Hk Hg), Hs.
  unfold store_read. cbn. destruct (decide (reg = reg)); [|congruence].
  cbn. rewrite <- Hs. now destruct c.
Qed.

(** X2. Writing to a value that is tracked and can have a register, then
    looking it up: the lookup gives the term written (after the optional
    simplification), prints nothing and leaves the machine as it is. The
    write creates the register when there is none, keeps the registers of
    a canonical lineage canonical, adds no side-condition, and leaves the
    register and the stored value of every other value as they were. *)
Theorem write_then_lookup (c : Bv2OpSemContext) (v : ValuePtr) (ls : list Diag)
    (e : Expr) (c1 : Bv2OpSemContext) (l : list Diag) :
  registerable m_sem v = true ->
  isSkipped opts m_sem v = Ok false ls ->
  canonical opts m_sem c ->
  write opts m_sem v e c = Done tt c1 l ->
  lookup m_sem v c1 = Done (Some (written opts e)) c1 []
  /\ canonical opts m_sem c1
  /\ m_side c1 = m_side c
  /\ (forall w rw, w <> v -> getRegister c w = Some rw ->
        getRegister c1 w = Some rw
        /\ store_get (m_values c1) rw = store_get (m_values c) rw).
Proof.
  intros Hk Hsk Hc Hw.
  destruct (getRegister c v) as [reg|] eqn:Hg.
  - rewrite (write_found c v ls reg e Hsk Hg) in Hw. injection Hw as <- <-.
    split_and!.
    + apply lookup_written with (reg := reg) (s := m_values c); try assumption;
        now destruct c.
    + now destruct c.
    + now destruct c.
    + intros w rw Hne Hgw. split; [now destruct c|].
      pose proof (canonical_distinct opts m_sem c w v rw reg Hc Hne Hgw Hg) as Hr.
      replace (m_values (set_values ((reg, written opts e) :: m_values c) c))
        with ((reg, written opts e) :: m_values c) by now destruct c.
      cbn. destruct (decide (reg = rw)); [congruence|reflexivity].
  - rewrite (write_fresh c v ls e Hsk Hg) in Hw.
    destruct (isConstant (kind (valueAt m_sem v))); [discriminate|].
    destruct (newRegister opts m_sem v) as [reg lr|msg] eqn:Hn; [|discriminate].
    injection Hw as <- <-.
    set (c' := set_registers (declareRegister reg (m_registers c))
                 (<[v := reg]> (m_valueToRegister c)) c).
    assert (Hc' : canonical opts m_sem c')
      by now apply canonical_insert with (l := lr).
    assert (Hv : getRegister c' v = Some reg).
    { subst c'. rewrite getRegister_insert. now destruct (decide (v = v)). }
    assert (Hother : forall w, w <> v -> getRegister c' w = getRegister c w).
    { intros w Hne. subst c'. rewrite getRegister_insert.
      destruct (decide (v = w)); [congruence|reflexivity]. }
    split_and!.
    + apply lookup_written with (reg := reg) (s := m_values c'); try assumption;
        now destruct c.
    + now destruct c.
    + now destruct c.
    + intros w rw Hne Hgw. split.
      * rewrite <- Hgw, <- (Hother w Hne). now destruct c.
      * assert (Hgw' : getRegister c' w = Some rw) by now rewrite Hother.
        pose proof (canonical_distinct opts m_sem c' w v rw reg Hc' Hne Hgw' Hv)
          as Hr.
        replace (m_values (set_values ((reg, written opts e) :: m_values c') c'))
          with ((reg, written opts e) :: m_values c) by now destruct c.
        cbn. destruct (decide (reg = rw)); [congruence|reflexivity].
Qed.

(** X3. A value the semantics skips is never written: [write], [havoc]
    and [setValue] with a term return at once and leave the machine as it
    is ([havoc] with the empty term); [setValue] with the empty term can
    only add the value to the ignored instructions. *)
Theorem skipped_value_never_written (c : Bv2OpSemContext) (v : ValuePtr)
    (ls : list Diag) :
  isSkipped opts m_sem v = Ok true ls ->
  (forall e, write opts m_sem v e c = Done tt c ls)
  /\ havoc opts m_sem v c = Done None c ls
  /\ (forall e, setValue opts m_sem v (Some e) c = Done tt c ls)
  /\ (exists c1 l,
        setValue opts m_sem v None c = Done tt c1 l
        /\ c1 = set_ignored (m_ignored c1) c).
Proof.
  intros Hsk.
  assert (Hw : forall e, write opts m_sem v e c = Done tt c ls).
  { intros e. unfold write, bind, lift, ret. rewrite Hsk. now rewrite app_nil_r. }
  assert (Hh : forall c, havoc opts m_sem v c = Done None c ls).
  { intros c0. unfold havoc, bind, lift, ret. rewrite Hsk. now rewrite app_nil_r. }
  split_and!; [exact Hw|apply Hh|exact Hw|].
  unfold setValue, unhandledValue.
  destruct (kind (valueAt m_sem v)) eqn:Hk;
    try (unfold bind at 1; unfold emit at 1; unfold bind at 1; rewrite Hh;
         eexists _, _; split; [reflexivity|now destruct c]).
  unfold bind at 1. rewrite unhandledInst_run.
  destruct (bool_decide (v ∈ m_ignored c));
    unfold bind; rewrite Hh; (eexists _, _; split; [reflexivity|now destruct c]).
Qed.

(** X4. A context without a memory manager, as the forking constructor
    makes them, cannot havoc a tracked value nor reach memory: [havoc]
    and [setValue] with the empty term fail the assertion on the memory
    manager, and so do the load, store, memset and memcpy of the machine;
    a fork of such a context has none either. *)
Theorem fork_has_no_memory_manager (c : Bv2OpSemContext) (v : ValuePtr)
    (ls : list Diag) :
  hasMemManager c = false ->
  isSkipped opts m_sem v = Ok false ls ->
  havoc opts m_sem v c = Unreachable "m_ctx.getMemManager()"
  /\ setValue opts m_sem v None c = Unreachable "m_ctx.getMemManager()"
  /\ (forall p ty al, ctx_loadValueFromMem p ty al c = Unreachable "m_memManager")
  /\ (forall u p ty al,
        ctx_storeValueToMem u p ty al c = Unreachable "m_memManager")
  /\ (forall p u n al, ctx_MemSet p u n al c = Unreachable "m_memManager")
  /\ (forall d s n al, ctx_MemCpy d s n al c = Unreachable "m_memManager")
  /\ (forall values side, hasMemManager (fork values side c) = false).
Proof.
  intros Hm Hsk.
  assert (Hh : forall c, hasMemManager c = false ->
                 havoc opts m_sem v c = Unreachable "m_ctx.getMemManager()").
  { intros c0 H0. unfold havoc, bind, lift, gets. now rewrite Hsk, H0. }
  split_and!.
  - now apply Hh.
  - unfold setValue, unhandledValue.
    destruct (kind (valueAt m_sem v));
      try (unfold bind at 1; unfold emit at 1; unfold bind at 1;
           now rewrite Hh).
    unfold bind at 1. rewrite unhandledInst_run.
    destruct (bool_decide (v ∈ m_ignored c)); unfold bind; rewrite Hh;
      try reflexivity; now destruct c.
  - intros. unfold ctx_loadValueFromMem, bind, gets. now rewrite Hm.
  - intros. unfold ctx_storeValueToMem, bind, gets. now rewrite Hm.
  - intros. unfold ctx_MemSet, bind, gets. now rewrite Hm.
  - intros. unfold ctx_MemCpy, bind, gets. now rewrite Hm.
  - reflexivity.
Qed.

Lemma store_read_get (s : SymStore) r :
  store_get (snd (store_read s r)) r = Some (fst (store_read s r)).
Proof.
  unfold store_read, store_havoc. destruct (store_get s r) eqn:H; cbn.
  - exact H.
  - now destruct (decide (r = r)).
Qed.

Lemma store_read_again (s : SymStore) r :
  store_read (snd (store_read s r)) r =
    (fst (store_read s r), snd (store_read s r)).
Proof. apply store_read_defined, store_read_get. Qed.

Lemma set_values_set_values s s' c :
  set_values s (set_values s' c) = set_values s c.
Proof. now destruct c. Qed.

Lemma ctx_read_again r c v c1 l :
  ctx_read r c = Done v c1 l -> ctx_read r c1 = Done v c1 [].
Proof.
  unfold ctx_read. destruct (store_read (m_values c) r) as [v' s'] eqn:Hs.
  intros [= <- <- <-].
  replace (m_values (set_values s' c)) with s' by (now destruct c).
  pose proof (store_read_again (m_values c) r) as H. rewrite Hs in H. cbn in H.
  rewrite H. now rewrite set_values_set_values.
Qed.

(** X5. A lookup can be repeated: looking the value up again in the
    machine the first lookup left gives the same term and the same
    diagnostics and does not move the machine; and the first lookup
    wrote nothing, it can only have given a value to a register that had
    none. *)
Theorem lookup_repeatable (c : Bv2OpSemContext) (v : ValuePtr)
    (res : option Expr) (c1 : Bv2OpSemContext) (l : list Diag) :
  lookup m_sem v c = Done res c1 l ->
  lookup m_sem v c1 = Done res c1 l
  /\ readsOnly c c1.
Proof.
  intros H. split; [|now apply getOperandValue_readsOnly in H].
  pose proof (getOperandValue_readsOnly m_sem v c res c1 l H) as [Hc1 _].
  assert (Hg : getRegister c1 v = getRegister c v).
  { rewrite Hc1. apply getRegister_set_values. }
  revert H. unfold lookup, getOperandValue.
  assert (Hreg : forall (k : M (option Expr)),
    (k c = Done res c1 l -> k c1 = Done res c1 l) ->
    (reg <- gets (fun c => getRegister c v);;
     match reg with
     | Some reg => e <- ctx_read reg;; ret (Some e)
     | None => k
     end) c = Done res c1 l ->
    (reg <- gets (fun c => getRegister c v);;
     match reg with
     | Some reg => e <- ctx_read reg;; ret (Some e)
     | None => k
     end) c1 = Done res c1 l).
  { intros k Hk H. unfold bind at 1. unfold gets at 1. rewrite Hg.
    unfold bind at 1 in H. unfold gets at 1 in H.
    destruct (getRegister c v) as [reg|].
    - destruct (bind _ _ c) as [x cx lx|] eqn:Hb in H; [|discriminate].
      cbn in H. injection H as -> -> ->.
      apply bind_inv in Hb as (e & c2 & l1 & l2 & He & Hr & ->).
      unfold ret in Hr. injection Hr as <- <- <-.
      pose proof (ctx_read_again _ _ _ _ _ He) as He'.
      unfold ctx_read in He. destruct (store_read (m_values c) reg).
      injection He as <- <- <-.
      unfold bind. rewrite He'. reflexivity.
    - destruct (k c) as [x cx lx|] eqn:Hb in H; [|discriminate].
      cbn in H. injection H as -> -> ->. rewrite (Hk Hb). reflexivity. }
  assert (Hconst : ctx_getConstantValue m_sem v c = Done res c1 l ->
                   ctx_getConstantValue m_sem v c1 = Done res c1 l).
  { intros H. pose proof (ctx_getConstantValue_same _ _ _ _ _ _ H) as ->.
    exact H. }
  assert (Hassert :
    (res <- ctx_getConstantValue m_sem v;;
     assert_ (bool_decide (is_Some res)) "res";; ret res) c = Done res c1 l ->
    (res <- ctx_getConstantValue m_sem v;;
     assert_ (bool_decide (is_Some res)) "res";; ret res) c1 = Done res c1 l).
  { intros H. enough (c1 = c) as -> by exact H.
    apply bind_inv in H as (x & c2 & l1 & l2 & Hx & H & _).
    pose proof (ctx_getConstantValue_same _ _ _ _ _ _ Hx) as ->.
    apply bind_inv in H as (u & ca & ? & ? & Ha & H & _).
    unfold assert_ in Ha. destruct (bool_decide _); [|discriminate].
    unfold ret in Ha, H. congruence. }
  destruct (kind (valueAt m_sem v)).
  - apply Hreg. now intros [= <- <- <-].
  - apply Hreg, Hconst.
  - apply Hreg, Hconst.
  - apply Hassert.
  - apply Hassert.
  - apply Hassert.
  - apply Hassert.
  - apply Hreg. unfold bind, emit, ret. now intros [= <- <- <-].
  - apply Hreg. unfold bind, emit, ret. now intros [= <- <- <-].
Qed.

End ValueFacts.
(** ** Constants and branches *)

Section ConstantFacts.

Context {alu : OpSemAlu} {mem : OpSemMemManager} {ext : Externals}.
Variable opts : Options.
Variable m_sem : Bv2OpSem.

(** X6. An integer constant is looked up without touching the machine
    and without a diagnostic: an [i1] gives the one-bit numeral 1 or 0,
    the constant 0 of any other width gives the null pointer of the
    memory manager, and any other constant gives the numeral of its
    value at the width of its type. *)
Theorem lookup_constant_int (c : Bv2OpSemContext) (v : ValuePtr) (z : Z) :
  kind (valueAt m_sem v) = ConstantIntVal z ->
  lookup m_sem v c =
    Done (Some (if isIntegerTyN (getType (valueAt m_sem v)) 1
                then (if Z.eqb z 1 then si 1 1 else si 0 1)
                else if Z.eqb z 0 then nullPtr
                else si (toMpz z) (sizeInBits m_sem (getType (valueAt m_sem v)))))
      c [].
Proof.
  intros Hk. unfold lookup, getOperandValue, ctx_getConstantValue.
  rewrite Hk. cbn.
  destruct (Z.eqb_spec z 0) as [->|Hz]; cbn.
  - destruct (isIntegerTyN (getType (valueAt m_sem v)) 1); reflexivity.
  - destruct (isIntegerTyN (getType (valueAt m_sem v)) 1); cbn;
      [destruct (z =? 1)%Z|]; reflexivity.
Qed.

(** X7. The other constants. A null pointer constant is looked up as the
    null pointer of the memory manager; an [undef] of an integer type as
    the numeral zero at the width of its type; a constant expression of
    an integer type that is not null as the numeral its folding gives,
    with the diagnostics of the folding; all without touching the
    machine. An [undef] or a constant expression that is not null, of a
    type other than an integer, has no term, and neither has an integer
    constant expression the folding gives no value for: the machine's
    [getConstantValue] returns nothing for them and the lookup ends the
    run at its assertion. *)
Theorem lookup_undef_and_null (c : Bv2OpSemContext) (v : ValuePtr) :
  (kind (valueAt m_sem v) = ConstantPointerNullVal ->
   isIntegerTyN (getType (valueAt m_sem v)) 1 = false ->
   lookup m_sem v c = Done (Some nullPtr) c [])
  /\ (kind (valueAt m_sem v) = UndefValueVal ->
      isIntegerTy (getType (valueAt m_sem v)) = true ->
      lookup m_sem v c =
        Done (Some (si (toMpz 0) (sizeInBits m_sem (getType (valueAt m_sem v)))))
          c [])
  /\ (forall gv l,
        kind (valueAt m_sem v) = ConstantExprVal false ->
        isIntegerTy (getType (valueAt m_sem v)) = true ->
        foldConstantExpr v = Ok (Some gv) l ->
        lookup m_sem v c =
          Done (Some (si (toMpz (IntVal gv))
                        (sizeInBits m_sem (getType (valueAt m_sem v)))))
            c l)
  /\ (kind (valueAt m_sem v) = UndefValueVal
      \/ kind (valueAt m_sem v) = ConstantExprVal false ->
      isIntegerTy (getType (valueAt m_sem v)) = false ->
      lookup m_sem v c = Unreachable "res")
  /\ (forall l,
        kind (valueAt m_sem v) = ConstantExprVal false ->
        isIntegerTy (getType (valueAt m_sem v)) = true ->
        foldConstantExpr v = Ok None l ->
        lookup m_sem v c = Unreachable "res").
Proof.
  unfold lookup, getOperandValue, ctx_getConstantValue.
  split_and!.
  - intros Hk Hty. rewrite Hk. cbn. now rewrite Hty.
  - intros Hk Hty. rewrite Hk. cbn. rewrite Hty.
    unfold bind, lift, Bv2OpSem_getConstantValue. rewrite Hk. reflexivity.
  - intros gv l Hk Hty Hf. rewrite Hk. cbn. rewrite Hty.
    unfold bind, lift, Bv2OpSem_getConstantValue. rewrite Hk, Hf. cbn.
    now rewrite !app_nil_r.
  - intros [Hk|Hk] Hty; rewrite Hk; cbn; rewrite Hty;
      now destruct (isPointerTy (getType (valueAt m_sem v))).
  - intros l Hk Hty Hf. rewrite Hk. cbn. rewrite Hty.
    unfold bind, lift, Bv2OpSem_getConstantValue. rewrite Hk, Hf. reflexivity.
Qed.

End ConstantFacts.

Section BranchFrame.

Context {alu : OpSemAlu} {mem : OpSemMemManager} {ext : Externals}.
Variable opts : Options.
Variable m_sem : Bv2OpSem.

Lemma onBasicBlockEntry_inv bb c c' l :
  onBasicBlockEntry m_sem bb c = Done tt c' l ->
  c' = set_position (Some (getParent m_sem bb)) (Some bb) (Some (bb, 0%nat))
         (match m_bb c with Some b => Some b | None => m_prev c end) c
  /\ l = []
  /\ (m_func c = None \/ m_func c = Some (getParent m_sem bb)).
Proof.
  unfold onBasicBlockEntry, bind, modify, gets, assert_, ret.
  destruct c as [vs sd f b i pv rr wr sc tr fp ig rs v2r par]. cbn.
  destruct f as [f|]; cbn.
  - destruct (bool_decide_reflect (Some f = Some (getParent m_sem bb)))
      as [E|E]; [|discriminate].
    injection E as ->. intros [= <- <-]. auto.
  - rewrite bool_decide_true by reflexivity. intros [= <- <-]. auto.
Qed.

Lemma onBasicBlockEntry_run bb c :
  m_func c = None \/ m_func c = Some (getParent m_sem bb) ->
  onBasicBlockEntry m_sem bb c =
    Done tt
      (set_position (Some (getParent m_sem bb)) (Some bb) (Some (bb, 0%nat))
         (match m_bb c with Some b => Some b | None => m_prev c end) c) [].
Proof.
  unfold onBasicBlockEntry, bind, modify, gets, assert_, ret.
  destruct c as [vs sd f b i pv rr wr sc tr fp ig rs v2r par]. cbn.
  intros [->| ->]; cbn; rewrite bool_decide_true by reflexivity; reflexivity.
Qed.

Lemma excluded_edge_inv c c' l :
  (resetSide;; e <- readErrorFlag m_sem;; addScopedSide e) c = Done tt c' l ->
  exists bb, m_bb c = Some bb
    /\ c' = set_side [fst (store_read (m_values c) (errorFlag m_sem bb))]
              (set_values (snd (store_read (m_values c) (errorFlag m_sem bb))) c)
    /\ l = [].
Proof.
  intros H. destruct (m_bb c) as [bb|] eqn:Hbb.
  - rewrite (excluded_edge_side m_sem c bb Hbb) in H. injection H as <- <-.
    eauto.
  - exfalso. revert H.
    unfold bind, resetSide, modify, readErrorFlag, getCurrBb, gets.
    destruct c; cbn in *. now rewrite Hbb.
Qed.

Ltac frame :=
  unfold onlyMoves, sameRegisters, sameMetaRegisters;
  match goal with c : Bv2OpSemContext |- _ => destruct c end;
  cbn; split_and!; reflexivity.

(** X8. What a branch step never touches: whichever way [intraBr]
    returns, the registers, the meta-registers, the parameter stack, the
    ignored instructions and the parent are as before; the side-conditions
    are unchanged, or replaced by one, or extended by one; every register
    that held a value holds it still; and the current block is the same
    or [dst]. *)
Theorem intraBr_frame (c : Bv2OpSemContext) (dst : ValuePtr)
    (c' : Bv2OpSemContext) (l : list Diag) :
  intraBr m_sem dst c = Done tt c' l ->
  onlyMoves c c'
  /\ (m_side c' = m_side c
      \/ (exists e, m_side c' = [e])
      \/ (exists e, m_side c' = m_side c ++ [e]))
  /\ (forall r a, store_get (m_values c) r = Some a ->
                  store_get (m_values c') r = Some a)
  /\ (m_bb c' = m_bb c \/ m_bb c' = Some dst).
Proof.
  unfold intraBr. intros H.
  apply bind_inv in H as (cur & c0 & l0 & l1 & Hcur & H & ->).
  unfold gets in Hcur. injection Hcur as <- <- <-.
  assert (Hnop : forall c0 l0, ret (A:=unit) tt c = Done tt c0 l0 ->
            onlyMoves c c0
            /\ (m_side c0 = m_side c
                \/ (exists e, m_side c0 = [e])
                \/ (exists e, m_side c0 = m_side c ++ [e]))
            /\ (forall r a, store_get (m_values c) r = Some a ->
                            store_get (m_values c0) r = Some a)
            /\ (m_bb c0 = m_bb c \/ m_bb c0 = Some dst)).
  { intros c0' l0' [= <- <-]. split_and!; auto. clear. frame. }
  destruct (getCurrentInst m_sem c) as [inst|]; [|discriminate].
  destruct (kind (valueAt m_sem inst)) as [| | | | | | | |parent op];
    try (now apply Hnop in H).
  destruct op as [|succ0|cnd succ0 succ1| | | |]; try (now apply Hnop in H).
  - (* br dst *)
    apply bind_inv in H as ([] & c1 & ? & l2 & Hn & H & ->).
    unfold next_inst, modify in Hn. injection Hn as <- <-.
    destruct (negb (succ0 =? dst)%positive).
    + apply excluded_edge_inv in H as (bb & Hbb & -> & ->).
      split_and!.
      * clear. frame.
      * right. left. eexists. now destruct c.
      * intros r a Ha. destruct c; cbn in *. now apply store_read_preserves.
      * left. now destruct c.
    + apply onBasicBlockEntry_inv in H as (-> & -> & _).
      split_and!.
      * clear. frame.
      * left. now destruct c.
      * intros r a Ha. now destruct c.
      * right. now destruct c.
  - (* br cnd, succ0, succ1 *)
    apply bind_inv in H as ([] & c1 & ? & l2 & Hn & H & ->).
    unfold next_inst, modify in Hn. injection Hn as <- <-.
    destruct (isConstant (kind (valueAt m_sem cnd))).
    + apply bind_inv in H as (gv & c2 & ? & l3 & Hgv & H & ->).
      pose proof (lift_same _ _ _ _ _ Hgv) as ->.
      destruct gv as [gv|]; [|discriminate].
      match type of H with
      | (if ?b then _ else _) _ = _ => destruct b
      end.
      * apply excluded_edge_inv in H as (bb & Hbb & -> & ->).
        split_and!.
        -- clear. frame.
        -- right. left. eexists. now destruct c.
        -- intros r a Ha. destruct c; cbn in *. now apply store_read_preserves.
        -- left. now destruct c.
      * injection H as <- <-. split_and!.
        -- clear. frame.
        -- left. now destruct c.
        -- intros r a Ha. now destruct c.
        -- left. now destruct c.
    + apply bind_inv in H as (target & c2 & ? & l3 & Ht & H & ->).
      apply getOperandValue_readsOnly in Ht as [Hc2 Hst].
      destruct target as [target|].
      * apply bind_inv in H as (e & c3 & ? & l4 & He & H & ->).
        apply bind_inv in H as ([] & c4 & ? & l5 & Ha & H & ->).
        apply onBasicBlockEntry_inv in H as (-> & -> & _).
        unfold addScopedSide, addSide, modify in Ha. injection Ha as <- <-.
        unfold readErrorFlag in He.
        apply bind_inv in He as (bb & c5 & ? & l6 & Hb & He & ->).
        unfold getCurrBb, gets in Hb. injection Hb as <- <- <-.
        destruct (m_bb c2) as [bb|]; [|discriminate].
        pose proof (ctx_read_readsOnly _ _ _ _ _ He) as [Hc3 Hst3].
        rewrite Hc3, Hc2. split_and!.
        -- clear. frame.
        -- right. right. eexists. destruct c; cbn. reflexivity.
        -- intros r a Ha. destruct c; cbn in *. auto.
        -- right. now destruct c.
      * injection H as <- <-. rewrite Hc2. split_and!.
        -- clear. frame.
        -- left. now destruct c.
        -- intros r a Ha. destruct c; cbn in *. auto.
        -- left. now destruct c.
Qed.

(** X9. A conditional branch on a constant that selects [dst] (1 with
    [dst] first successor, 0 with [dst] second) only moves the
    instruction iterator: no side-condition is added and [dst] is not
    entered. When the current instruction is not a branch, [intraBr] does
    nothing at all. *)
Theorem intraBr_not_entered (c : Bv2OpSemContext) (inst dst : ValuePtr) :
  getCurrentInst m_sem c = Some inst ->
  (forall parent cnd succ0 succ1 gv lg,
     kind (valueAt m_sem inst) = InstructionVal parent (CondBr cnd succ0 succ1) ->
     isConstant (kind (valueAt m_sem cnd)) = true ->
     Bv2OpSem_getConstantValue m_sem cnd = Ok (Some gv) lg ->
     (IntVal gv = 1%Z /\ succ0 = dst) \/ (IntVal gv = 0%Z /\ succ1 = dst) ->
     intraBr m_sem dst c =
       Done tt
         (set_position (m_func c) (m_bb c)
            (match m_inst c with Some (b, i) => Some (b, S i) | None => None end)
            (m_prev c) c) lg)
  /\ (forall parent op,
        kind (valueAt m_sem inst) = InstructionVal parent op ->
        match op with Br _ | CondBr _ _ _ => False | _ => True end ->
        intraBr m_sem dst c = Done tt c []).
Proof.
  intros Hcur. split.
  - intros parent cnd succ0 succ1 gv lg Hk Hcst Hgv Hsel.
    unfold intraBr, bind, gets, next_inst, modify, lift, ret.
    rewrite Hcur, Hk, Hcst. cbn. rewrite Hgv.
    assert (Hb : (IntVal gv =? 1)%Z && negb (succ0 =? dst)%positive
                 || (IntVal gv =? 0)%Z && negb (succ1 =? dst)%positive = false).
    { destruct Hsel as [[-> ->]|[-> ->]]; rewrite Pos.eqb_refl; cbn;
        rewrite ?andb_false_r; reflexivity. }
    rewrite Hb. now rewrite app_nil_r.
  - intros parent op Hk Hop.
    unfold intraBr, bind, gets. rewrite Hcur, Hk.
    destruct op; try contradiction; reflexivity.
Qed.

End BranchFrame.
(** ** Memory transfers and calloc, once more *)

Section MemTransferFrame.

Context {alu : OpSemAlu} {mem : OpSemMemManager} {ext : Externals}.
Variable opts : Options.
Variable m_sem : Bv2OpSem.

Lemma executeMemSetInst_clears c dst val length al res c' l :
  executeMemSetInst opts m_sem dst val length al c = Done res c' l ->
  m_readRegister c' = None /\ m_writeRegister c' = None.
Proof.
  unfold executeMemSetInst. intros H.
  apply bind_inv in H as (r & ? & ? & ? & _ & H & _).
  apply bind_inv in H as (w & ? & ? & ? & _ & H & _).
  apply bind_inv in H as (skip & ? & ? & ? & _ & H & _).
  destruct skip.
  - apply bind_inv in H as (? & c4 & ? & ? & _ & H & _).
    apply bind_inv in H as (? & ? & ? & ? & Hs1 & H & _).
    apply bind_inv in H as (? & ? & ? & ? & Hs2 & H & _).
    unfold setMemReadRegister, modify in Hs1. injection Hs1 as _ <- _.
    unfold setMemWriteRegister, modify in Hs2. injection Hs2 as _ <- _.
    unfold ret in H. injection H as _ <- _.
    now destruct c4.
  - apply bind_inv in H as (sc & ? & ? & ? & _ & H & _).
    apply bind_inv in H as (? & ? & ? & ? & _ & H & _).
    apply bind_inv in H as (addr & ? & ? & ? & _ & H & _).
    apply bind_inv in H as (? & ? & ? & ? & _ & H & _).
    apply bind_inv in H as (v & ? & ? & ? & _ & H & _).
    apply bind_inv in H as (len & ? & ? & ? & _ & H & _).
    apply bind_inv in H as (res0 & ? & ? & ? & _ & H & _).
    apply bind_inv in H as (? & c7 & ? & ? & _ & H & _).
    apply bind_inv in H as (? & ? & ? & ? & Hs1 & H & _).
    apply bind_inv in H as (? & ? & ? & ? & Hs2 & H & _).
    unfold setMemReadRegister, modify in Hs1. injection Hs1 as _ <- _.
    unfold setMemWriteRegister, modify in Hs2. injection Hs2 as _ <- _.
    unfold ret in H. injection H as _ <- _.
    now destruct c7.
Qed.

Lemma executeMemCpyInst_clears c dst src length al res c' l :
  executeMemCpyInst opts m_sem dst src length al c = Done res c' l ->
  m_readRegister c' = None /\ m_writeRegister c' = None
  /\ m_trfrReadReg c' = None.
Proof.
  unfold executeMemCpyInst. intros H.
  apply bind_inv in H as (r & ? & ? & ? & _ & H & _).
  apply bind_inv in H as (w & ? & ? & ? & _ & H & _).
  apply bind_inv in H as (t & ? & ? & ? & _ & H & _).
  apply bind_inv in H as (skip & ? & ? & ? & _ & H & _).
  destruct skip.
  - apply bind_inv in H as (? & c4 & ? & ? & _ & H & _).
    apply bind_inv in H as (? & ? & ? & ? & Hs0 & H & _).
    apply bind_inv in H as (? & ? & ? & ? & Hs1 & H & _).
    apply bind_inv in H as (? & ? & ? & ? & Hs2 & H & _).
    unfold setMemTrsfrReadReg, modify in Hs0. injection Hs0 as _ <- _.
    unfold setMemReadRegister, modify in Hs1. injection Hs1 as _ <- _.
    unfold setMemWriteRegister, modify in Hs2. injection Hs2 as _ <- _.
    unfold ret in H. injection H as _ <- _.
    now destruct c4.
  - apply bind_inv in H as (sc & ? & ? & ? & _ & H & _).
    apply bind_inv in H as (? & ? & ? & ? & _ & H & _).
    apply bind_inv in H as (d & ? & ? & ? & _ & H & _).
    apply bind_inv in H as (s & ? & ? & ? & _ & H & _).
    apply bind_inv in H as (len & ? & ? & ? & _ & H & _).
    apply bind_inv in H as (res0 & ? & ? & ? & _ & H & _).
    apply bind_inv in H as (? & c7 & ? & ? & _ & H & _).
    apply bind_inv in H as (? & ? & ? & ? & Hs0 & H & _).
    apply bind_inv in H as (? & ? & ? & ? & Hs1 & H & _).
    apply bind_inv in H as (? & ? & ? & ? & Hs2 & H & _).
    unfold setMemTrsfrReadReg, modify in Hs0. injection Hs0 as _ <- _.
    unfold setMemReadRegister, modify in Hs1. injection Hs1 as _ <- _.
    unfold setMemWriteRegister, modify in Hs2. injection Hs2 as _ <- _.
    unfold ret in H. injection H as _ <- _.
    now destruct c7.
Qed.

(** X10. memset and memcpy consume the meta-registers: every memset that
    returns leaves the read and write meta-registers unset, every memcpy
    that returns leaves these and the transfer register unset; and when
    one of the registers it needs is unset on entry, the operation is
    skipped with one diagnostic, an empty result and the registers
    cleared. *)
Theorem memset_memcpy_consume_meta_registers :
  (forall c dst val length al res c' l,
     executeMemSetInst opts m_sem dst val length al c = Done res c' l ->
     m_readRegister c' = None /\ m_writeRegister c' = None)
  /\ (forall c dst src length al res c' l,
        executeMemCpyInst opts m_sem dst src length al c = Done res c' l ->
        m_readRegister c' = None /\ m_writeRegister c' = None
        /\ m_trfrReadReg c' = None)
  /\ (forall c dst val length al,
        m_readRegister c = None \/ m_writeRegister c = None ->
        executeMemSetInst opts m_sem dst val length al c =
          Done None (set_writeRegister None (set_readRegister None c))
            [LOG "opsem" "Skipping memset"])
  /\ (forall c dst src length al,
        m_readRegister c = None \/ m_writeRegister c = None
        \/ m_trfrReadReg c = None ->
        executeMemCpyInst opts m_sem dst src length al c =
          Done None
            (set_writeRegister None
               (set_readRegister None (set_trfrReadReg None c)))
            [LOG "opsem" "skipping memcpy"]).
Proof.
  split_and!.
  - intros. eapply executeMemSetInst_clears; eassumption.
  - intros. eapply executeMemCpyInst_clears; eassumption.
  - intros c dst val length al H.
    unfold executeMemSetInst, bind, getMemReadRegister, getMemWriteRegister,
      gets.
    destruct H as [H|H]; rewrite H; [reflexivity|].
    destruct (m_readRegister c); reflexivity.
  - intros c dst src length al H.
    unfold executeMemCpyInst, bind, getMemReadRegister, getMemWriteRegister,
      getMemTrsfrReadReg, gets.
    destruct H as [H|[H|H]]; rewrite H; try reflexivity.
    + destruct (m_readRegister c); reflexivity.
    + destruct (m_readRegister c), (m_writeRegister c); reflexivity.
Qed.

(** X11. On a memory that is a unique scalar, a memset whose operands are
    tracked and whose meta-registers are set ends the run ("memset to
    scalars is not supported"), and so does a memcpy with its three
    registers set. *)
Theorem memset_memcpy_scalar_unsupported (c : Bv2OpSemContext)
    (dst other length : ValuePtr) (al : N) (rreg wreg : Expr)
    (l1 l2 : list Diag) :
  m_readRegister c = Some rreg -> m_writeRegister c = Some wreg ->
  m_scalar c = true ->
  isSkipped opts m_sem dst = Ok false l1 ->
  isSkipped opts m_sem other = Ok false l2 ->
  executeMemSetInst opts m_sem dst other length al c =
    Unreachable "memset to scalars is not supported"
  /\ (forall treg, m_trfrReadReg c = Some treg ->
        executeMemCpyInst opts m_sem dst other length al c =
          Unreachable "memcpy to scalars is not supported").
Proof.
  intros Hr Hw Hs Hd Ho. split.
  - unfold executeMemSetInst, bind, getMemReadRegister, getMemWriteRegister,
      isMemScalar, gets, lift, ret.
    now rewrite Hr, Hw, Hd, Ho, Hs.
  - intros treg Ht.
    unfold executeMemCpyInst, bind, getMemReadRegister, getMemWriteRegister,
      getMemTrsfrReadReg, isMemScalar, gets, lift, ret.
    now rewrite Hr, Hw, Ht, Hd, Ho, Hs.
Qed.

Lemma bind_ext {A B} (m : M A) (f g : A -> M B) c :
  (forall a c1, f a c1 = g a c1) -> bind m f c = bind m g c.
Proof.
  intros H. unfold bind. destruct (m c); [|reflexivity]. now rewrite H.
Qed.

Lemma lookup_ConstantInt_again c v z :
  kind (valueAt m_sem v) = ConstantIntVal z ->
  exists e, lookup m_sem v c = Done (Some e) c [].
Proof.
  intros Hk. unfold lookup, getOperandValue, ctx_getConstantValue.
  rewrite Hk. cbn.
  destruct (z =? 0)%Z; cbn;
    destruct (isIntegerTyN (getType (valueAt m_sem v)) 1); cbn;
    eexists; reflexivity.
Qed.

(** X12. The constant length of a memset or memcpy reaches the machine
    as an [unsigned]: two lengths equal modulo 2^32 give the same run. *)
Theorem memset_memcpy_length_truncated (c : Bv2OpSemContext)
    (dst other len1 len2 : ValuePtr) (al : N) (z1 z2 : Z) :
  kind (valueAt m_sem len1) = ConstantIntVal z1 ->
  kind (valueAt m_sem len2) = ConstantIntVal z2 ->
  (Z.to_N z1 mod 2 ^ 32 = Z.to_N z2 mod 2 ^ 32)%N ->
  executeMemSetInst opts m_sem dst other len1 al c =
    executeMemSetInst opts m_sem dst other len2 al c
  /\ executeMemCpyInst opts m_sem dst other len1 al c =
       executeMemCpyInst opts m_sem dst other len2 al c.
Proof.
  intros H1 H2 Hz.
  assert (Hset : forall a v, ctx_MemSet a v (Z.to_N z1) al =
                             ctx_MemSet a v (Z.to_N z2) al).
  { intros. unfold ctx_MemSet, to_unsigned. now rewrite Hz. }
  assert (Hcpy : forall a v, ctx_MemCpy a v (Z.to_N z1) al =
                             ctx_MemCpy a v (Z.to_N z2) al).
  { intros. unfold ctx_MemCpy, to_unsigned. now rewrite Hz. }
  assert (Hlen : forall {B} (k : M B) c0,
            bind (lookup m_sem len1) (fun _ => k) c0 =
            bind (lookup m_sem len2) (fun _ => k) c0).
  { intros B k c0.
    destruct (lookup_ConstantInt_again c0 len1 z1 H1) as [e1 E1].
    destruct (lookup_ConstantInt_again c0 len2 z2 H2) as [e2 E2].
    unfold bind. now rewrite E1, E2. }
  split.
  - unfold executeMemSetInst, asConstantInt. rewrite H1, H2.
    repeat (apply bind_ext; intros).
    destruct a1; [reflexivity|].
    repeat (apply bind_ext; intros).
    rewrite Hlen. repeat (apply bind_ext; intros).
    apply (f_equal (fun m => bind m _ _)).
    destruct a5, a3; try reflexivity. now rewrite Hset.
  - unfold executeMemCpyInst, asConstantInt. rewrite H1, H2.
    repeat (apply bind_ext; intros).
    destruct a2; [reflexivity|].
    repeat (apply bind_ext; intros).
    rewrite Hlen. repeat (apply bind_ext; intros).
    apply (f_equal (fun m => bind m _ _)).
    destruct a4, a5; try reflexivity. now rewrite Hcpy.
Qed.

End MemTransferFrame.
Section CallocFrame.

Context {alu : OpSemAlu} {mem : OpSemMemManager} {ext : Externals}.
Variable opts : Options.
Variable m_sem : Bv2OpSem.

Lemma sameMetaRegisters_refl c : sameMetaRegisters c c.
Proof. unfold sameMetaRegisters. auto. Qed.

Lemma sameMetaRegisters_trans c c1 c2 :
  sameMetaRegisters c c1 -> sameMetaRegisters c1 c2 -> sameMetaRegisters c c2.
Proof. unfold sameMetaRegisters. intuition congruence. Qed.

Lemma lift_inv {A} (o : Outcome A) c a c1 l :
  lift o c = Done a c1 l -> o = Ok a l /\ c1 = c.
Proof. unfold lift. destruct o; [|discriminate]. now intros [= <- <- <-]. Qed.

Lemma assert_inv b msg c u c1 l :
  assert_ b msg c = Done u c1 l -> b = true /\ c1 = c /\ l = [].
Proof. unfold assert_. destruct b; [|discriminate]. now intros [= <- <-]. Qed.

Lemma mkRegister_inv v c r c' l :
  mkRegister opts m_sem v c = Done r c' l ->
  (getRegister c v = Some r /\ c' = c /\ l = [])
  \/ (getRegister c v = None /\ newRegister opts m_sem v = Ok r l
      /\ c' = set_registers (declareRegister r (m_registers c))
                (<[v := r]> (m_valueToRegister c)) c).
Proof.
  intros H. pose proof (mkRegister_registerable _ _ _ _ _ _ _ H) as Hk.
  destruct (getRegister c v) as [r0|] eqn:Hg.
  - rewrite (mkRegister_found opts m_sem c v r0 Hk Hg) in H.
    injection H as <- <- <-. auto.
  - rewrite (mkRegister_fresh opts m_sem c v Hg) in H.
    destruct (newRegister opts m_sem v) as [reg lr|]; [|discriminate].
    injection H as <- <- <-. auto.
Qed.

Lemma mkRegister_meta v c r c' l :
  mkRegister opts m_sem v c = Done r c' l -> sameMetaRegisters c c'.
Proof.
  intros H. apply mkRegister_inv in H as [(_ & -> & _)|(_ & _ & ->)].
  - apply sameMetaRegisters_refl.
  - unfold sameMetaRegisters. now destruct c.
Qed.

Lemma ctx_havoc_run r c :
  ctx_havoc r c =
    Done (VARIANT (length (m_values c)) r)
      (set_values ((r, VARIANT (length (m_values c)) r) :: m_values c) c) [].
Proof. reflexivity. Qed.

Lemma ctx_write_run r u c :
  ctx_write opts r u c =
    Done tt (set_values ((r, written opts u) :: m_values c) c) [].
Proof. reflexivity. Qed.

Lemma havoc_meta v c h c' l :
  havoc opts m_sem v c = Done h c' l -> sameMetaRegisters c c'.
Proof.
  unfold havoc. intros H.
  apply bind_inv in H as (sk & c1 & ? & ? & Hsk & H & _).
  apply lift_inv in Hsk as (_ & ->).
  destruct sk.
  { injection H as _ <- _. apply sameMetaRegisters_refl. }
  apply bind_inv in H as (hm & c1 & ? & ? & Hm & H & _).
  unfold gets in Hm. injection Hm as _ <- _.
  apply bind_inv in H as (u & c1 & ? & ? & Ha & H & _).
  apply assert_inv in Ha as (_ & -> & _).
  apply bind_inv in H as (reg & c1 & ? & ? & Hg & H & _).
  unfold gets in Hg. injection Hg as _ <- _.
  destruct reg as [reg|].
  - revert H. unfold bind. rewrite ctx_havoc_run, ctx_write_run.
    intros [= _ <- _]. unfold sameMetaRegisters. now destruct c.
  - apply bind_inv in H as (reg & c1 & ? & ? & Hmk & H & _).
    apply mkRegister_meta in Hmk.
    apply sameMetaRegisters_trans with (c1 := c1); [exact Hmk|].
    revert H. unfold bind. rewrite ctx_havoc_run, ctx_write_run.
    intros [= _ <- _]. unfold sameMetaRegisters. now destruct c1.
Qed.

Lemma write_meta v e c u c' l :
  write opts m_sem v e c = Done u c' l -> sameMetaRegisters c c'.
Proof.
  unfold write. intros H.
  apply bind_inv in H as (sk & c1 & ? & ? & Hsk & H & _).
  apply lift_inv in Hsk as (_ & ->).
  destruct sk.
  { injection H as _ <- _. apply sameMetaRegisters_refl. }
  apply bind_inv in H as (reg & c1 & ? & ? & Hg & H & _).
  unfold gets in Hg. injection Hg as _ <- _.
  destruct reg as [reg|].
  - rewrite ctx_write_run in H. injection H as _ <- _.
    unfold sameMetaRegisters. now destruct c.
  - apply bind_inv in H as (? & c1 & ? & ? & Ha & H & _).
    apply assert_inv in Ha as (_ & -> & _).
    apply bind_inv in H as (reg & c1 & ? & ? & Hmk & H & _).
    apply mkRegister_meta in Hmk.
    apply sameMetaRegisters_trans with (c1 := c1); [exact Hmk|].
    rewrite ctx_write_run in H. injection H as _ <- _.
    unfold sameMetaRegisters. now destruct c1.
Qed.

Lemma unhandledValue_meta v c u c' l :
  unhandledValue m_sem v c = Done u c' l -> sameMetaRegisters c c'.
Proof.
  unfold unhandledValue.
  assert (He : forall d, emit d c = Done u c' l -> sameMetaRegisters c c').
  { intros d [= _ <- _]. apply sameMetaRegisters_refl. }
  destruct (kind (valueAt m_sem v)); try apply He.
  unfold unhandledInst, bind, isIgnored, ignore, gets, modify, emit, ret.
  destruct (bool_decide (v ∈ m_ignored c)); intros [= _ <- _];
    unfold sameMetaRegisters; now destruct c.
Qed.

Lemma setValue_meta v e c u c' l :
  setValue opts m_sem v e c = Done u c' l -> sameMetaRegisters c c'.
Proof.
  unfold setValue. destruct e as [e|].
  - apply write_meta.
  - intros H.
    apply bind_inv in H as (? & c1 & ? & ? & Hu & H & _).
    apply bind_inv in H as (? & c2 & ? & ? & Hh & H & _).
    injection H as _ <- _.
    apply unhandledValue_meta in Hu. apply havoc_meta in Hh.
    now apply sameMetaRegisters_trans with (c1 := c1).
Qed.

Lemma readMemRegister_meta r what c v c' l :
  readMemRegister r what c = Done v c' l -> sameMetaRegisters c c'.
Proof.
  unfold readMemRegister. destruct r as [r|]; [|discriminate].
  unfold ctx_read. destruct (store_read (m_values c) r).
  intros [= _ <- _]. unfold sameMetaRegisters. now destruct c.
Qed.

(** X13. calloc does not consume the meta-registers: whenever
    [visitCallocCall] returns, the read, write and transfer registers and
    the scalar flag are as before. With the read register unset the call
    is a no-op with one diagnostic; with the read register set and the
    write register unset (the guard tests the read register twice) the
    run ends reading through the null write register. *)
Theorem visitCallocCall_keeps_meta_registers (inst : ValuePtr) :
  (forall c c' l,
     visitCallocCall opts m_sem inst c = Done tt c' l ->
     sameMetaRegisters c c')
  /\ (forall c,
        m_readRegister c = None ->
        visitCallocCall opts m_sem inst c =
          Done tt c [LOG "opsem" "treating calloc() as nop"])
  /\ (forall c rreg,
        m_readRegister c = Some rreg -> m_writeRegister c = None ->
        m_scalar c = false ->
        visitCallocCall opts m_sem inst c =
          Unreachable "getMemWriteRegister()").
Proof.
  split_and!.
  - intros c c' l. unfold visitCallocCall. intros H.
    apply bind_inv in H as (r1 & c1 & ? & ? & H1 & H & _).
    unfold getMemReadRegister, gets in H1. injection H1 as _ <- _.
    apply bind_inv in H as (r2 & c1 & ? & ? & H2 & H & _).
    unfold getMemReadRegister, gets in H2. injection H2 as _ <- _.
    destruct (bool_decide _ || bool_decide _).
    { injection H as <- _. apply sameMetaRegisters_refl. }
    apply bind_inv in H as (sc & c1 & ? & ? & Hs & H & _).
    unfold isMemScalar, gets in Hs. injection Hs as _ <- _.
    apply bind_inv in H as (? & c1 & ? & ? & Ha & H & _).
    apply assert_inv in Ha as (_ & -> & _).
    apply bind_inv in H as (? & c1 & ? & ? & Hdef & H & _).
    apply bind_inv in H as (h & c2 & ? & ? & Hh & H & _).
    apply havoc_meta in Hh. apply setValue_meta in H.
    assert (Hd : sameMetaRegisters c c1).
    { destruct (IgnoreCalloc2 opts).
      - apply bind_inv in Hdef as (? & ca & ? & ? & He & Hdef & _).
        injection He as _ <- _.
        apply bind_inv in Hdef as (w & ca & ? & ? & Hw & Hdef & _).
        injection Hw as _ <- _.
        apply bind_inv in Hdef as (wv & ca & ? & ? & Hwv & Hdef & _).
        apply readMemRegister_meta in Hwv.
        apply bind_inv in Hdef as (r & cb & ? & ? & Hr & Hdef & _).
        injection Hr as _ <- _.
        apply bind_inv in Hdef as (rv & cb & ? & ? & Hrv & Hdef & _).
        apply readMemRegister_meta in Hrv.
        unfold addDef, addSide, modify in Hdef. injection Hdef as _ <- _.
        apply sameMetaRegisters_trans with (c1 := ca); [exact Hwv|].
        apply sameMetaRegisters_trans with (c1 := cb); [exact Hrv|].
        unfold sameMetaRegisters. now destruct cb.
      - apply bind_inv in Hdef as (? & ca & ? & ? & He & Hdef & _).
        injection He as _ <- _.
        apply bind_inv in Hdef as (w & ca & ? & ? & Hw & Hdef & _).
        injection Hw as _ <- _.
        apply bind_inv in Hdef as (wv & ca & ? & ? & Hwv & Hdef & _).
        apply readMemRegister_meta in Hwv.
        unfold addDef, addSide, modify in Hdef. injection Hdef as _ <- _.
        apply sameMetaRegisters_trans with (c1 := ca); [exact Hwv|].
        unfold sameMetaRegisters. now destruct ca. }
    apply sameMetaRegisters_trans with (c1 := c1); [exact Hd|].
    now apply sameMetaRegisters_trans with (c1 := c2).
  - intros c Hr.
    unfold visitCallocCall, bind, getMemReadRegister, gets, emit.
    rewrite Hr. reflexivity.
  - intros c rreg Hr Hw Hs.
    unfold visitCallocCall. unfold bind at 1 2.
    unfold getMemReadRegister at 1 2. unfold gets at 1 2. rewrite Hr.
    rewrite bool_decide_false by discriminate. cbn [orb].
    unfold bind, getMemReadRegister, getMemWriteRegister,
      isMemScalar, gets, emit, assert_, ret, readMemRegister.
    rewrite Hs. cbn.
    destruct (IgnoreCalloc2 opts); cbn; now rewrite Hw.
Qed.

End CallocFrame.

(** ** Edges *)

Section EdgeFacts.

Context {alu : OpSemAlu} {mem : OpSemMemManager} {ext : Externals}.
Variable opts : Options.
Variable m_sem : Bv2OpSem.

Lemma bind_id_log {A} (r : Res A) :
  match r with
  | Done b c2 l2 => Done b c2 ([] ++ l2)
  | Unreachable msg => Unreachable msg
  end = r.
Proof. now destruct r. Qed.

Lemma execPhi_run bb from c :
  m_func c = None \/ m_func c = Some (getParent m_sem bb) ->
  execPhi opts m_sem bb from c =
    visitBasicBlock_Phi opts m_sem bb
      (set_position (Some (getParent m_sem bb)) (Some bb) (Some (bb, 0%nat))
         (Some from) c).
Proof.
  intros Hf. unfold execPhi.
  rewrite (bind_Done _ _ _ _ _ _ (onBasicBlockEntry_run m_sem bb c Hf)).
  rewrite bind_id_log.
  unfold bind at 1. unfold setPrevBb at 1. unfold modify at 1.
  rewrite bind_id_log.
  unfold intraPhi, bind, getPrevBb, getCurrBb, gets, assert_, ret.
  destruct c as [vs sd f b i pv rr wr sc tr fp ig rs v2r par]. cbn.
  now destruct (visitBasicBlock_Phi opts m_sem bb _).
Qed.

(** X14. [execPhi] resolves the PHI nodes of [bb] for the edge from
    [from], wherever the machine stood in the function: it is the PHI
    visit of [bb] on the machine positioned at the start of [bb] with
    [from] as previous block; in a machine that executes another function
    it fails the assertion of [onBasicBlockEntry]. *)
Theorem execPhi_position (c : Bv2OpSemContext) (bb from : ValuePtr) :
  (m_func c = None \/ m_func c = Some (getParent m_sem bb) ->
   execPhi opts m_sem bb from c =
     visitBasicBlock_Phi opts m_sem bb
       (set_position (Some (getParent m_sem bb)) (Some bb) (Some (bb, 0%nat))
          (Some from) c))
  /\ (forall f, m_func c = Some f -> f <> getParent m_sem bb ->
        execPhi opts m_sem bb from c = Unreachable "m_func == bb.getParent()").
Proof.
  split; [apply execPhi_run|].
  intros f Hf Hne.
  unfold execPhi, bind, onBasicBlockEntry, bind, modify, gets, assert_.
  destruct c as [vs sd f0 b i pv rr wr sc tr fp ig rs v2r par]. cbn in *.
  subst f0. cbn. rewrite bool_decide_false by congruence. reflexivity.
Qed.

Lemma indexOf_lookup inst insts i :
  indexOf inst insts = Some i -> insts !! i = Some inst.
Proof.
  revert i. induction insts as [|x insts IH]; intros i; cbn; [discriminate|].
  destruct (Pos.eqb_spec x inst) as [->|Hne].
  - now intros [= <-].
  - destruct (indexOf inst insts) as [n|]; [|discriminate].
    intros [= <-]. cbn. now apply IH.
Qed.

Lemma getRegister_set_position f b i p c v :
  getRegister (set_position f b i p c) v = getRegister c v.
Proof. now destruct c. Qed.

Lemma lookup_set_position f b i p v c res :
  lookup m_sem v c = Done res c [] ->
  lookup m_sem v (set_position f b i p c) =
    Done res (set_position f b i p c) [].
Proof.
  intros H. revert H. unfold lookup, getOperandValue.
  set (c' := set_position f b i p c).
  assert (Hreg : forall (k : M (option Expr)),
    (k c = Done res c [] -> k c' = Done res c' []) ->
    (reg <- gets (fun c => getRegister c v);;
     match reg with
     | Some reg => e <- ctx_read reg;; ret (Some e)
     | None => k
     end) c = Done res c [] ->
    (reg <- gets (fun c => getRegister c v);;
     match reg with
     | Some reg => e <- ctx_read reg;; ret (Some e)
     | None => k
     end) c' = Done res c' []).
  { intros k Hk. unfold bind at 1 3. unfold gets at 1 2.
    subst c'. rewrite getRegister_set_position.
    destruct (getRegister c v) as [reg|].
    - rewrite !bind_id_log. unfold bind, ctx_read, ret.
      replace (m_values (set_position f b i p c)) with (m_values c)
        by now destruct c.
      destruct (store_read (m_values c) reg) as [e s]. cbn.
      intros [= <- Hc]. f_equal.
      transitivity (set_position f b i p (set_values s c));
        [now destruct c|now rewrite Hc].
    - rewrite !bind_id_log. exact Hk. }
  assert (Hconst : ctx_getConstantValue m_sem v c = Done res c [] ->
                   ctx_getConstantValue m_sem v c' = Done res c' []).
  { intros H. rewrite (ctx_getConstantValue_position m_sem v c c'). now rewrite H. }
  assert (Hassert :
    (res <- ctx_getConstantValue m_sem v;;
     assert_ (bool_decide (is_Some res)) "res";; ret res) c = Done res c [] ->
    (res <- ctx_getConstantValue m_sem v;;
     assert_ (bool_decide (is_Some res)) "res";; ret res) c' = Done res c' []).
  { unfold bind at 1 3. rewrite (ctx_getConstantValue_position m_sem v c c').
    destruct (ctx_getConstantValue m_sem v c) as [x cx lx|]; [|discriminate].
    unfold bind, assert_, ret. destruct (bool_decide (is_Some x)); [|discriminate].
    cbn. intros [= <- _ ->]. reflexivity. }
  destruct (kind (valueAt m_sem v)).
  - apply Hreg. now intros [= <-].
  - apply Hreg, Hconst.
  - apply Hreg, Hconst.
  - apply Hassert.
  - apply Hassert.
  - apply Hassert.
  - apply Hassert.
  - apply Hreg. unfold bind, emit, ret. discriminate.
  - apply Hreg. unfold bind, emit, ret. discriminate.
Qed.

Lemma leading_phi_set_position f b i p c prev x :
  leading_phi opts m_sem c prev x ->
  leading_phi opts m_sem (set_position f b i p c) prev x.
Proof.
  destruct x as [phi lg|x]; [exact id|].
  intros (parent & incoming & b0 & Hk & Hsk & Hfind & Hreg & Hlook).
  exists parent, incoming, b0. split_and!; try assumption.
  - unfold phi_register in *. now rewrite getRegister_set_position.
  - now apply lookup_set_position.
Qed.

Lemma canonical_set_position f b i p c :
  canonical opts m_sem (set_position f b i p c) <-> canonical opts m_sem c.
Proof. now destruct c. Qed.

(** X15. An unconditional edge: for a block [src] that ends in [br dst],
    [execBr] followed by [execPhi] is the PHI visit of [dst] on the
    machine placed at the start of [dst] with [src] as previous block.
    (1) When the PHI nodes that open [dst] are skipped or tracked, in any
    mixture, each tracked one with a register it has or can be given and
    an operand for [src] resolved before the edge, the two steps return,
    leave the machine at the start of [dst] with [src] as previous block,
    add no side-condition, and assign every tracked PHI node the value
    its operand had before the edge, all at once; the skipped nodes get
    nothing and only print their diagnostics, once in each loop; no other
    register changes, and the registers the machine knew are kept.
    (2) Whenever the two steps return, whatever the other PHI nodes of
    [dst] are, a tracked PHI node whose operand for [src] was resolved to
    [a] before the edge ends with [a] in its register. *)
Theorem unconditional_edge_assigns_phis (c : Bv2OpSemContext)
    (src dst t : ValuePtr) (i : nat) :
  m_func c = None \/ m_func c = Some (getParent m_sem src) ->
  getParent m_sem dst = getParent m_sem src ->
  getTerminator m_sem src = Some t ->
  kind (valueAt m_sem t) = InstructionVal src (Br dst) ->
  indexOf t (instructions m_sem src) = Some i ->
  (forall items rest,
     instructions m_sem dst = map lp_phi items ++ rest ->
     startsWithoutPhi m_sem rest ->
     Forall (leading_phi opts m_sem c src) items ->
     NoDup (map pa_reg (assignments items)) ->
     exists c',
       (execBr m_sem src dst;; execPhi opts m_sem dst src) c =
         Done tt c' (skipLog items ++ skipLog items)
       /\ m_bb c' = Some dst /\ m_prev c' = Some src
       /\ m_inst c' = Some (dst, 0%nat)
       /\ m_side c' = m_side c
       /\ (forall x, x ∈ assignments items ->
             getRegister c' (pa_phi x) = Some (pa_reg x)
             /\ store_get (m_values c') (pa_reg x)
                = Some (written opts (pa_val x)))
       /\ (forall r, r ∉ map pa_reg (assignments items) ->
             store_get (m_values c') r = store_get (m_values c) r)
       /\ (forall w r0, getRegister c w = Some r0 -> getRegister c' w = Some r0))
  /\ (forall phis rest phi parent incoming b v a c' l,
        instructions m_sem dst = phis ++ rest ->
        Forall (fun p => isPHINode (kind (valueAt m_sem p)) <> None) phis ->
        NoDup (instructions m_sem dst) ->
        phi ∈ phis ->
        canonical opts m_sem c ->
        kind (valueAt m_sem phi) = InstructionVal parent (PHI incoming) ->
        isSkipped opts m_sem phi = Ok false [] ->
        List.find (fun p => Pos.eqb (fst p) src) incoming = Some (b, v) ->
        lookup m_sem v c = Done (Some a) c [] ->
        (execBr m_sem src dst;; execPhi opts m_sem dst src) c = Done tt c' l ->
        exists reg,
          getRegister c' phi = Some reg
          /\ store_get (m_values c') reg = Some (written opts a)).
Proof.
  intros Hf Hpar Ht Hk Hi.
  set (F := getParent m_sem src) in *.
  set (c3 := set_position (Some F) (Some dst) (Some (dst, 0%nat)) (Some src) c).
  assert (HBr : execBr m_sem src dst c = Done tt c3 []).
  { unfold execBr.
    rewrite (bind_Done _ _ _ _ _ _ (onBasicBlockEntry_run m_sem src c Hf)).
    rewrite bind_id_log. rewrite Ht.
    unfold bind at 1. unfold setInstruction at 1.
    assert (Hp : getParent m_sem t = src) by (unfold getParent; now rewrite Hk).
    rewrite Hp, Hi. unfold modify at 1. rewrite bind_id_log.
    unfold intraBr. unfold bind at 1. unfold gets at 1.
    replace (getCurrentInst m_sem _) with (Some t).
    2: { unfold getCurrentInst. destruct c; cbn.
         symmetry. now apply indexOf_lookup. }
    rewrite bind_id_log, Hk.
    unfold bind at 1. unfold next_inst at 1. unfold modify at 1.
    rewrite bind_id_log, Pos.eqb_refl. cbn [negb].
    rewrite onBasicBlockEntry_run.
    - subst c3. fold F. rewrite Hpar. destruct c; reflexivity.
    - right. rewrite Hpar. now destruct c. }
  assert (HPhi : execPhi opts m_sem dst src c3 =
                 visitBasicBlock_Phi opts m_sem dst c3).
  { rewrite execPhi_run.
    - subst c3. rewrite Hpar. fold F. now destruct c.
    - right. subst c3. rewrite Hpar. now destruct c. }
  assert (Hedge : (execBr m_sem src dst;; execPhi opts m_sem dst src) c =
                  visitBasicBlock_Phi opts m_sem dst c3).
  { rewrite (bind_Done _ _ _ _ _ _ HBr), HPhi. apply bind_id_log. }
  split.
  - intros items rest Hinsts Hrest Hall Hnd.
    destruct (phi_parallel_assignment opts m_sem c3 dst src items rest)
      as (c' & Hrun & Hval & Hoth & Hmono & _ & Hc'); try assumption.
    { subst c3. now destruct c. }
    { eapply Forall_impl; [exact Hall|].
      intros x Hx. now apply leading_phi_set_position. }
    unfold sameButRegisters in Hc'.
    exists c'. split_and!.
    + now rewrite Hedge.
    + rewrite Hc'. subst c3. now destruct c.
    + rewrite Hc'. subst c3. now destruct c.
    + rewrite Hc'. subst c3. now destruct c.
    + rewrite Hc'. subst c3. now destruct c.
    + exact Hval.
    + intros r Hr. rewrite (Hoth r Hr). subst c3. now destruct c.
    + intros w r0 Hw. apply Hmono. subst c3.
      now rewrite getRegister_set_position.
  - intros phis rest phi parent incoming b v a c' l
      Hinsts Hphis Hnd Hin Hc Hkphi Hsk Hfind Hlook Hrun.
    rewrite Hedge in Hrun.
    destruct (phi_pre_update_run opts m_sem c3 dst src phis rest phi parent
                incoming b v a c' l)
      as (reg & _ & Hg & Hs); try assumption.
    + subst c3. now apply canonical_set_position.
    + subst c3. now destruct c.
    + subst c3. now apply lookup_set_position.
    + now exists reg.
Qed.

End EdgeFacts.

(** ** Calls *)

Section CallFacts.

Context {alu : OpSemAlu} {mem : OpSemMemManager} {ext : Externals}.
Context {cext : CallExternals} {gext : GepExternals}.
Variable opts : Options.
Variable xopts : ExternalCallOptions.
Variable m_sem : Bv2OpSem.

(** X16. A call to a function that has a body (not a declaration; not
    an assume, calloc or shadow-memory function) never returns from
    [visitCallSite]: after the summary-based treatment, whatever it does,
    the visitor reports an unhandled call and ends the run; an invoke or
    an intrinsic callee ends the run earlier. *)
Theorem visitCallSite_defined_function_aborts
    (visitKnownFunctionCall otherShadowMemCall : CallSite -> M unit)
    (CS : CallSite) (f : CalledFunction) (c : Bv2OpSemContext) :
  cs_calledFunction CS = Some f ->
  fn_isDeclaration f = false ->
  String.prefix "verifier.assume" (fn_name f) = false ->
  String.eqb (fn_name f) "calloc" = false ->
  cs_shadowMemMetadata CS = false ->
  String.prefix "shadow.mem" (fn_name f) = false ->
  exists msg,
    visitCallSite opts xopts m_sem visitKnownFunctionCall otherShadowMemCall
      CS c = Unreachable msg.
Proof.
  intros Hf Hd Ha Hc Hm Hs. unfold visitCallSite.
  destruct (cs_isCall CS); cbn [negb]; [|eexists; reflexivity].
  rewrite Hf. unfold bind at 1.
  destruct (fn_isIntrinsic f); cbn [negb assert_]; [eexists; reflexivity|].
  unfold ret at 1. rewrite Ha, Hc, Hm, Hs, Hd.
  unfold bind at 1.
  destruct ((if hasFunctionInfo f then visitKnownFunctionCall CS else ret tt) c)
    as [u c1 l1|msg]; eexists; reflexivity.
Qed.

Lemma havoc_tracked v ls c :
  registerable m_sem v = true ->
  isSkipped opts m_sem v = Ok false ls ->
  hasMemManager c = true ->
  havoc opts m_sem v c =
    match mkRegister opts m_sem v c with
    | Done reg c1 l1 =>
        let f := VARIANT (length (m_values c)) reg in
        Done (Some (coerce reg f))
          (set_values ((reg, written opts (coerce reg f)) :: (reg, f) :: m_values c)
             c1) l1
    | Unreachable msg => Unreachable msg
    end.
Proof.
  intros Hk Hsk Hm. pose proof (isSkipped_false_log _ _ _ _ Hsk) as ->.
  unfold havoc, bind, lift, gets, assert_, ret. rewrite Hsk, Hm.
  destruct (getRegister c v) as [reg|] eqn:Hg.
  - rewrite (mkRegister_found opts m_sem c v reg Hk Hg).
    rewrite ctx_havoc_run, ctx_write_run. cbn. now destruct c.
  - destruct (mkRegister opts m_sem v c) as [reg c1 l1|] eqn:Hmk; [|reflexivity].
    rewrite ctx_havoc_run, ctx_write_run. cbn.
    apply mkRegister_inv in Hmk as [(? & _)|(_ & _ & ->)]; [congruence|].
    rewrite app_nil_r. now destruct c.
Qed.

(** X17. The integer result of an indirect call, and of a call to an
    external function that is not modelled as an uninterpreted function
    (the option is off, or the function is listed as ignored), is
    havocked in a root context: the call instruction is recorded as
    ignored, its register exists and holds a fresh value of the store,
    and neither the side-conditions nor the meta-registers change. *)
Theorem unmodelled_call_havocs_result (CS : CallSite) (c : Bv2OpSemContext)
    (parent : ValuePtr) (op : Opcode) (bits : N) :
  kind (valueAt m_sem (cs_instruction CS)) = InstructionVal parent op ->
  getType (valueAt m_sem (cs_instruction CS)) = IntegerTy bits ->
  shadowMem (valueAt m_sem (cs_instruction CS)) = None ->
  hasMemManager c = true ->
  exists c' l reg,
    visitIndirectCall opts m_sem CS c = Done tt c' l
    /\ (forall F, cs_calledFunction CS = Some F ->
          fn_returnsVoid F = false ->
          EnableModelExternalCalls2 xopts = false
          \/ fn_name F ∈ IgnoreExternalFunctions2 xopts ->
          visitExternalCall opts xopts m_sem CS c = Done tt c' l)
    /\ cs_instruction CS ∈ m_ignored c'
    /\ getRegister c' (cs_instruction CS) = Some reg
    /\ store_get (m_values c') reg =
         Some (written opts (coerce reg (VARIANT (length (m_values c)) reg)))
    /\ m_side c' = m_side c
    /\ sameMetaRegisters c c'.
Proof.
  intros Hk Hty Hsm Hm.
  set (inst := cs_instruction CS) in *.
  assert (Hsk : isSkipped opts m_sem inst = Ok false []).
  { unfold isSkipped, isShadowMem. now rewrite Hsm, Hty. }
  assert (Hreg : registerable m_sem inst = true).
  { unfold registerable. now rewrite Hk. }
  set (c0 := set_ignored ({[inst]} ∪ m_ignored c) c).
  assert (Hm0 : hasMemManager c0 = true) by (subst c0; now destruct c).
  assert (Hrun : exists c1 l1 reg,
            mkRegister opts m_sem inst c0 = Done reg c1 l1
            /\ getRegister c1 inst = Some reg
            /\ m_side c1 = m_side c /\ m_ignored c1 = {[inst]} ∪ m_ignored c
            /\ m_values c1 = m_values c
            /\ sameMetaRegisters c c1).
  { destruct (getRegister c0 inst) as [reg|] eqn:Hg.
    - exists c0, [], reg. rewrite (mkRegister_found opts m_sem c0 inst reg Hreg Hg).
      subst c0. unfold sameMetaRegisters. split; [reflexivity|].
      split; [exact Hg|]. destruct c. cbn. auto 10.
    - rewrite (mkRegister_fresh opts m_sem c0 inst Hg).
      unfold newRegister, newInstRegister, isShadowMem. rewrite Hk, Hsm, Hty.
      eexists _, _, _. split; [reflexivity|].
      split; [rewrite getRegister_insert; now destruct (decide (inst = inst))|].
      subst c0. unfold sameMetaRegisters. destruct c. cbn. auto 10. }
  destruct Hrun as (c1 & l1 & reg & Hmk & Hg1 & Hs1 & Hi1 & Hv1 & Hmeta).
  assert (Hset : exists l,
            setValue opts m_sem inst None c =
              Done tt
                (set_values
                   ((reg, written opts (coerce reg (VARIANT (length (m_values c)) reg)))
                    :: (reg, VARIANT (length (m_values c)) reg) :: m_values c) c1) l).
  { unfold setValue, unhandledValue. rewrite Hk.
    assert (Hu : exists l0, unhandledInst inst c = Done tt c0 l0).
    { rewrite unhandledInst_run. subst c0.
      destruct (bool_decide_reflect (inst ∈ m_ignored c)) as [Hin|Hin];
        eexists; [|reflexivity].
      assert (E : {[inst]} ∪ m_ignored c = m_ignored c)
        by (apply subseteq_union_1_L, singleton_subseteq_l, Hin).
      rewrite E. now destruct c. }
    destruct Hu as (l0 & Hu).
    unfold bind at 1. rewrite Hu.
    unfold bind at 1.
    rewrite (havoc_tracked inst [] c0 Hreg Hsk Hm0), Hmk.
    replace (m_values c0) with (m_values c) by (subst c0; now destruct c).
    cbn. eexists. reflexivity. }
  destruct Hset as (l & Hset).
  eexists _, l, reg. split_and!.
  - exact Hset.
  - intros F HF Hv Hopt. unfold visitExternalCall. rewrite HF, Hv.
    fold inst.
    replace (negb (EnableModelExternalCalls2 xopts)
             || bool_decide (fn_name F ∈ IgnoreExternalFunctions2 xopts))
      with true; [exact Hset|].
    destruct Hopt as [->|Hin]; [reflexivity|].
    rewrite (bool_decide_true _ Hin). now rewrite orb_true_r.
  - replace (m_ignored (set_values _ c1)) with (m_ignored c1) by now destruct c1.
    rewrite Hi1. apply elem_of_union_l. now apply elem_of_singleton.
  - rewrite getRegister_set_values. exact Hg1.
  - replace (m_values (set_values _ c1)) with
      ((reg, written opts (coerce reg (VARIANT (length (m_values c)) reg)))
       :: (reg, VARIANT (length (m_values c)) reg) :: m_values c)
      by now destruct c1.
    cbn. now destruct (decide (reg = reg)).
  - rewrite <- Hs1. now destruct c1.
  - apply sameMetaRegisters_trans with (c1 := c1); [exact Hmeta|].
    unfold sameMetaRegisters. now destruct c1.
Qed.

(** X18. Nondeterministic calls: a call that returns nothing leaves the
    machine as it is; a call whose type is neither an integer nor a
    pointer (a float, say) and that has no register ends the run, as a
    register is made before the type is looked at; a call that returns
    an integer gets a register holding a fresh value of the store, is not
    recorded as ignored, and neither the side-conditions nor the
    meta-registers change. *)
Theorem visitNondetCall_result (CS : CallSite) (c : Bv2OpSemContext) :
  (getType (valueAt m_sem (cs_instruction CS)) = VoidTy ->
   visitNondetCall opts m_sem CS c = Done tt c [])
  /\ (forall parent op,
        kind (valueAt m_sem (cs_instruction CS)) = InstructionVal parent op ->
        shadowMem (valueAt m_sem (cs_instruction CS)) = None ->
        getRegister c (cs_instruction CS) = None ->
        match getType (valueAt m_sem (cs_instruction CS)) with
        | VoidTy | IntegerTy _ | PointerTy _ => False
        | _ => True
        end ->
        visitNondetCall opts m_sem CS c = Unreachable "Error: unhandled type")
  /\ (forall parent op bits,
        kind (valueAt m_sem (cs_instruction CS)) = InstructionVal parent op ->
        shadowMem (valueAt m_sem (cs_instruction CS)) = None ->
        getType (valueAt m_sem (cs_instruction CS)) = IntegerTy bits ->
        exists c' l reg,
          visitNondetCall opts m_sem CS c = Done tt c' l
          /\ getRegister c' (cs_instruction CS) = Some reg
          /\ store_get (m_values c') reg =
               Some (written opts (VARIANT (length (m_values c)) reg))
          /\ m_ignored c' = m_ignored c
          /\ m_side c' = m_side c
          /\ sameMetaRegisters c c').
Proof.
  set (inst := cs_instruction CS).
  split_and!.
  - intros Hty. unfold visitNondetCall. fold inst. now rewrite Hty.
  - intros parent op Hk Hsm Hg Hty.
    unfold visitNondetCall. fold inst.
    assert (Hmk : mkRegister opts m_sem inst c =
                  Unreachable "Error: unhandled type").
    { rewrite (mkRegister_fresh opts m_sem c inst Hg).
      unfold newRegister, newInstRegister, isShadowMem. rewrite Hk, Hsm.
      destruct (getType (valueAt m_sem inst)); try contradiction; reflexivity. }
    destruct (getType (valueAt m_sem inst)); try contradiction;
      unfold bind; now rewrite Hmk.
  - intros parent op bits Hk Hsm Hty.
    assert (Hsk : isSkipped opts m_sem inst = Ok false []).
    { unfold isSkipped, isShadowMem. now rewrite Hsm, Hty. }
    assert (Hreg : registerable m_sem inst = true).
    { unfold registerable. now rewrite Hk. }
    assert (Hrun : exists c1 l1 reg,
              mkRegister opts m_sem inst c = Done reg c1 l1
              /\ getRegister c1 inst = Some reg
              /\ m_side c1 = m_side c /\ m_ignored c1 = m_ignored c
              /\ m_values c1 = m_values c
              /\ sameMetaRegisters c c1).
    { destruct (getRegister c inst) as [reg|] eqn:Hg.
      - exists c, [], reg.
        rewrite (mkRegister_found opts m_sem c inst reg Hreg Hg).
        unfold sameMetaRegisters. auto 10.
      - rewrite (mkRegister_fresh opts m_sem c inst Hg).
        unfold newRegister, newInstRegister, isShadowMem. rewrite Hk, Hsm, Hty.
        eexists _, _, _. split; [reflexivity|].
        split; [rewrite getRegister_insert; now destruct (decide (inst = inst))|].
        unfold sameMetaRegisters. destruct c. cbn. auto 10. }
    destruct Hrun as (c1 & l1 & reg & Hmk & Hg1 & Hs1 & Hi1 & Hv1 & Hmeta).
    unfold visitNondetCall. fold inst. rewrite Hty.
    rewrite (bind_Done _ _ _ _ _ _ Hmk).
    unfold bind at 1. rewrite ctx_havoc_run.
    unfold setValue.
    rewrite (write_found opts m_sem _ inst [] reg _ Hsk)
      by (now rewrite getRegister_set_values).
    eexists _, _, reg. split; [reflexivity|]. rewrite Hv1. split_and!.
    + now rewrite !getRegister_set_values.
    + destruct c1; cbn. now destruct (decide (reg = reg)).
    + rewrite <- Hi1. now destruct c1.
    + rewrite <- Hs1. now destruct c1.
    + apply sameMetaRegisters_trans with (c1 := c1); [exact Hmeta|].
      unfold sameMetaRegisters. now destruct c1.
Qed.

(** X19. [verifier.assume] and [verifier.assume.not]: when the argument
    cannot be resolved the run ends; when the assumed condition (the
    argument, negated for [assume.not]) is the constant true, nothing is
    added; otherwise exactly one side-condition is appended, the
    disjunction of the current value of the error flag of the block of
    the call with the assumed condition, and nothing else moves but the
    store. *)
Theorem visitVerifierAssumeCall_side (CS : CallSite) (f : CalledFunction)
    (a : ValuePtr) (c : Bv2OpSemContext) :
  cs_calledFunction CS = Some f ->
  cs_arguments CS !! 0%nat = Some a ->
  let flag := errorFlag m_sem (getParent m_sem (cs_instruction CS)) in
  let assumed op :=
    if String.eqb (fn_name f) "verifier.assume.not" then boolop_lneg op
    else op in
  (forall c1 l1,
     lookup m_sem a c = Done None c1 l1 ->
     visitVerifierAssumeCall m_sem CS c = Unreachable "op")
  /\ (forall op c1 l1,
        lookup m_sem a c = Done (Some op) c1 l1 ->
        assumed op = TRUE ->
        visitVerifierAssumeCall m_sem CS c = Done tt c1 l1
        /\ m_side c1 = m_side c)
  /\ (forall op c1 l1,
        lookup m_sem a c = Done (Some op) c1 l1 ->
        assumed op <> TRUE ->
        exists c',
          visitVerifierAssumeCall m_sem CS c = Done tt c' l1
          /\ m_side c' =
               m_side c
               ++ [boolop_lor (fst (store_read (m_values c1) flag)) (assumed op)]
          /\ m_values c' = snd (store_read (m_values c1) flag)
          /\ onlyMoves c c' /\ m_bb c' = m_bb c /\ m_inst c' = m_inst c).
Proof.
  intros Hf Ha flag assumed.
  assert (Hside : forall res c1 l1,
            lookup m_sem a c = Done res c1 l1 -> c1 = set_values (m_values c1) c).
  { intros res c1 l1 H. now apply getOperandValue_readsOnly in H as [H _]. }
  split_and!.
  - intros c1 l1 Hl. unfold visitVerifierAssumeCall, getArgument.
    rewrite Hf, Ha. unfold bind at 1. unfold ret at 1.
    unfold bind. now rewrite Hl.
  - intros op c1 l1 Hl Ht. split.
    + unfold visitVerifierAssumeCall, getArgument.
      rewrite Hf, Ha. unfold bind at 1. unfold ret at 1.
      unfold bind. rewrite Hl. fold (assumed op). rewrite Ht. cbn.
      now rewrite app_nil_r.
    + rewrite (Hside _ _ _ Hl). now destruct c.
  - intros op c1 l1 Hl Ht.
    unfold visitVerifierAssumeCall, getArgument.
    rewrite Hf, Ha. unfold bind at 1. unfold ret at 1.
    unfold bind at 1. rewrite Hl. fold (assumed op). fold flag.
    assert (Hx : isOpX_TRUE (assumed op) = false)
      by (destruct (assumed op); try reflexivity; congruence).
    rewrite Hx.
    unfold bind, ctx_read, addScopedSide, addSide, modify.
    destruct (store_read (m_values c1) flag) as [e s]. cbn.
    eexists. split; [now rewrite app_nil_r|].
    rewrite (Hside _ _ _ Hl).
    unfold onlyMoves, sameRegisters, sameMetaRegisters.
    destruct c; cbn. split_and!; reflexivity.
Qed.

End CallFacts.
(** ** Shadow memory: a unique scalar *)

Section ScalarFacts.

Context {alu : OpSemAlu} {mem : OpSemMemManager} {ext : Externals}.
Variable opts : Options.
Variable m_sem : Bv2OpSem.

Lemma lookup_defined c v reg a :
  registerable m_sem v = true ->
  getRegister c v = Some reg ->
  store_get (m_values c) reg = Some a ->
  lookup m_sem v c = Done (Some a) c [].
Proof.
  intros Hk Hg Hs. unfold lookup.
  rewrite (getOperandValue_registerable m_sem c v reg Hk Hg).
  rewrite (store_read_defined _ _ _ Hs). cbn. now destruct c.
Qed.

Lemma ctx_read_defined c r a :
  store_get (m_values c) r = Some a -> ctx_read r c = Done a c [].
Proof.
  intros H. unfold ctx_read. rewrite (store_read_defined _ _ _ H).
  now destruct c.
Qed.

(** The scalar shortcut of a store, in full. *)
Lemma executeStoreInst_scalar_run c val addr al rreg wreg ls v :
  m_readRegister c = Some rreg -> m_writeRegister c = Some wreg ->
  m_scalar c = true ->
  isSkipped opts m_sem val = Ok false ls ->
  lookup m_sem val c = Done (Some v) c [] ->
  let stored := if isIntegerTyN (getType (valueAt m_sem val)) 1
                then boolToBv1 v else v in
  executeStoreInst opts m_sem val addr al c =
    Done (Some stored)
      (set_writeRegister None
         (set_readRegister None
            (set_values ((wreg, written opts stored) :: m_values c) c))) [].
Proof.
  intros Hr Hw Hs Hsk Hl stored.
  pose proof (isSkipped_false_log _ _ _ _ Hsk) as ->.
  unfold executeStoreInst, bind, getMemReadRegister, getMemWriteRegister,
    isMemScalar, gets, lift, ctx_write, OpSemContext_write,
    setMemReadRegister, setMemWriteRegister, modify, ret, emit.
  rewrite Hr, Hw, Hsk, Hl, Hs, Hw. cbn. reflexivity.
Qed.

(** The scalar shortcut of a load, in full. *)
Lemma executeLoadInst_scalar_run c addr al ty rreg u :
  m_readRegister c = Some rreg -> m_scalar c = true ->
  store_get (m_values c) rreg = Some u ->
  executeLoadInst m_sem addr al ty c =
    Done (Some (if isIntegerTyN ty 1 then bv1ToBool u else u))
      (set_readRegister None c) [].
Proof.
  intros Hr Hs Hu.
  unfold executeLoadInst, bind, getMemReadRegister, isMemScalar, gets,
    setMemReadRegister, modify, ret.
  rewrite Hr, Hs, (ctx_read_defined c rreg u Hu). reflexivity.
Qed.

Lemma shadow_mem_load_run (CS : CallSite) c x r u :
  cs_arguments CS !! 1%nat = Some x ->
  registerable m_sem x = true ->
  getRegister c x = Some r ->
  store_get (m_values c) r = Some u ->
  visitShadowMemCall opts m_sem shadow_mem_load CS c =
    Done tt
      (set_scalar (bool_decide (is_Some (extractUniqueScalar opts CS)))
         (set_readRegister (Some r) c)) [].
Proof.
  intros Ha Hk Hg Hu.
  unfold visitShadowMemCall, getArgument. rewrite Ha.
  unfold bind at 1. unfold ret at 1.
  unfold bind at 1. rewrite (mkRegister_found opts m_sem c x r Hk Hg).
  unfold bind at 1. rewrite (ctx_read_defined c r u Hu).
  reflexivity.
Qed.

Lemma isSkipped_scalar sI s :
  EnableUniqueScalars2 opts = true ->
  shadowMem (valueAt m_sem sI) = Some (Some s) ->
  isSkipped opts m_sem sI = Ok false [].
Proof.
  intros He Hs. unfold isSkipped, isShadowMem. rewrite Hs, He. reflexivity.
Qed.

Lemma shadow_mem_store_run (CS : CallSite) c parent op s aIn rIn :
  EnableUniqueScalars2 opts = true ->
  kind (valueAt m_sem (cs_instruction CS)) = InstructionVal parent op ->
  shadowMem (valueAt m_sem (cs_instruction CS)) = Some (Some s) ->
  cs_arguments CS !! 1%nat = Some aIn ->
  getRegister c aIn = Some rIn ->
  hasMemManager c = true ->
  canonical opts m_sem c ->
  forall rOut c1 l1,
    mkRegister opts m_sem (cs_instruction CS) c = Done rOut c1 l1 ->
    exists c4 l top,
      visitShadowMemCall opts m_sem shadow_mem_store CS c = Done tt c4 l
      /\ c4 = set_scalar (bool_decide (is_Some (extractUniqueScalar opts CS)))
                (set_writeRegister (Some rOut)
                   (set_readRegister (Some rIn)
                      (set_values
                         (top ++ snd (store_read (m_values c) rIn)) c1)))
      /\ Forall (fun kv => fst kv = rOut) top
      /\ getRegister c1 (cs_instruction CS) = Some rOut
      /\ (forall w rw, getRegister c w = Some rw -> getRegister c1 w = Some rw)
      /\ canonical opts m_sem c1.
Proof.
  intros He Hk Hsm Ha Hg Hm Hc rOut c1 l1 Hmk.
  set (inst := cs_instruction CS) in *.
  assert (Hreg : registerable m_sem inst = true).
  { unfold registerable. now rewrite Hk. }
  pose proof (isSkipped_scalar inst s He Hsm) as Hsk.
  assert (H1 : getRegister c1 inst = Some rOut
               /\ (forall w rw, getRegister c w = Some rw ->
                                getRegister c1 w = Some rw)
               /\ canonical opts m_sem c1
               /\ hasMemManager c1 = true /\ m_values c1 = m_values c).
  { apply mkRegister_inv in Hmk as [(Hf & -> & _)|(Hn & Hnew & ->)].
    - auto.
    - split_and!.
      + rewrite getRegister_insert. now destruct (decide (inst = inst)).
      + intros w rw Hw. rewrite getRegister_insert.
        destruct (decide (inst = w)) as [<-|]; [congruence|exact Hw].
      + now apply canonical_insert with (l := l1).
      + now destruct c.
      + now destruct c. }
  destruct H1 as (Hg1 & Hkeep & Hc1 & Hm1 & Hv1).
  unfold visitShadowMemCall, getArgument. fold inst.
  rewrite (bind_Done _ _ _ _ _ _ Hmk). rewrite Ha.
  unfold bind at 1. unfold ret at 1.
  unfold bind at 1. unfold gets at 1. rewrite (Hkeep _ _ Hg).
  unfold bind at 1. unfold readMemRegister, ctx_read. rewrite Hv1.
  destruct (store_read (m_values c) rIn) as [vin s2] eqn:Hrd. cbn [snd].
  unfold bind at 1.
  rewrite (havoc_tracked opts m_sem inst [] _ Hreg Hsk)
    by (now destruct c1).
  rewrite (mkRegister_found opts m_sem _ inst rOut Hreg)
    by (now rewrite !getRegister_set_values).
  cbn zeta.
  unfold bind at 1. unfold setValue.
  rewrite (write_found opts m_sem _ inst [] rOut _ Hsk)
    by (now rewrite !getRegister_set_values).
  unfold bind, setMemReadRegister, setMemWriteRegister, setMemScalar, modify,
    emit.
  eexists _, _,
    [(rOut, _); (rOut, _); (rOut, _)].
  split; [reflexivity|]. split_and!; try assumption.
  - destruct c1; cbn. reflexivity.
  - repeat constructor.
Qed.

(** X20. A value stored to a unique scalar is the value loaded from it:
    after [shadow.mem.store], a store of [val], a [shadow.mem.load] of the
    memory version the store produced and a load, the load returns the
    term [val] held (through the bit/boolean coercions for [i1]), both
    meta-registers are unset again, the register of the memory version
    holds the stored term and the register of [val] still holds its
    value. *)
Theorem scalar_store_load_round_trip (CSs CSl : CallSite)
    (c : Bv2OpSemContext) (parent : ValuePtr) (op : Opcode)
    (s ss sl aIn val addr addr' : ValuePtr) (al al' : N) (ty : Type_)
    (rIn rv v : Expr) (ls : list Diag) :
  EnableUniqueScalars2 opts = true ->
  kind (valueAt m_sem (cs_instruction CSs)) = InstructionVal parent op ->
  shadowMem (valueAt m_sem (cs_instruction CSs)) = Some (Some s) ->
  cs_uniqueScalar CSs = Some ss ->
  cs_arguments CSs !! 1%nat = Some aIn ->
  getRegister c aIn = Some rIn ->
  cs_arguments CSl !! 1%nat = Some (cs_instruction CSs) ->
  cs_uniqueScalar CSl = Some sl ->
  hasMemManager c = true ->
  canonical opts m_sem c ->
  registerable m_sem val = true ->
  isSkipped opts m_sem val = Ok false ls ->
  val <> cs_instruction CSs ->
  getRegister c val = Some rv ->
  store_get (m_values c) rv = Some v ->
  forall rOut c1 l1,
    mkRegister opts m_sem (cs_instruction CSs) c = Done rOut c1 l1 ->
    let stored := if isIntegerTyN (getType (valueAt m_sem val)) 1
                  then boolToBv1 v else v in
    let loaded := if isIntegerTyN ty 1 then bv1ToBool (written opts stored)
                  else written opts stored in
    exists c' l,
      (visitShadowMemCall opts m_sem shadow_mem_store CSs;;
       _ <- executeStoreInst opts m_sem val addr al;;
       visitShadowMemCall opts m_sem shadow_mem_load CSl;;
       executeLoadInst m_sem addr' al' ty) c = Done (Some loaded) c' l
      /\ m_readRegister c' = None /\ m_writeRegister c' = None
      /\ store_get (m_values c') rOut = Some (written opts stored)
      /\ store_get (m_values c') rv = Some v.
Proof.
  intros He Hk Hsm Hus Ha Hg Hal Hul Hm Hc Hkv Hskv Hne Hgv Hv
    rOut c1 l1 Hmk stored loaded.
  set (inst := cs_instruction CSs) in *.
  destruct (shadow_mem_store_run CSs c parent op s aIn rIn He Hk Hsm Ha Hg Hm Hc
              rOut c1 l1 Hmk)
    as (c4 & l4 & top & Hrun & Hc4 & Htop & Hg1 & Hkeep & Hc1).
  fold inst in Hg1.
  assert (Hreg : registerable m_sem inst = true).
  { unfold registerable. now rewrite Hk. }
  assert (Hrv : rv <> rOut).
  { apply (canonical_distinct opts m_sem c1 val inst); auto. }
  assert (Hus' : bool_decide (is_Some (extractUniqueScalar opts CSs)) = true).
  { unfold extractUniqueScalar. rewrite He, Hus. now apply bool_decide_true. }
  assert (Hul' : bool_decide (is_Some (extractUniqueScalar opts CSl)) = true).
  { unfold extractUniqueScalar. rewrite He, Hul. now apply bool_decide_true. }
  rewrite Hus' in Hc4.
  set (s2 := snd (store_read (m_values c) rIn)) in *.
  assert (Hs4 : m_values c4 = top ++ s2) by (rewrite Hc4; now destruct c1).
  assert (Htopv : store_get top rv = None).
  { clear -Htop Hrv. induction Htop as [|[k u] top Hk _ IH]; [reflexivity|].
    cbn in *. subst k. destruct (decide (rOut = rv)); [congruence|exact IH]. }
  assert (Hv4 : store_get (m_values c4) rv = Some v).
  { rewrite Hs4, store_get_app, Htopv. subst s2. now apply store_read_preserves. }
  assert (Hgv4 : getRegister c4 val = Some rv).
  { rewrite Hc4. replace (getRegister _ val) with (getRegister c1 val)
      by (now destruct c1). auto. }
  assert (Hl4 : lookup m_sem val c4 = Done (Some v) c4 [])
    by (now apply lookup_defined with (reg := rv)).
  set (c5 := set_writeRegister None (set_readRegister None
               (set_values ((rOut, written opts stored) :: m_values c4) c4))).
  assert (Hst : executeStoreInst opts m_sem val addr al c4 =
                Done (Some stored) c5 []).
  { apply executeStoreInst_scalar_run with (rreg := rIn) (ls := ls);
      try assumption; rewrite Hc4; now destruct c1. }
  assert (Hg5 : getRegister c5 inst = Some rOut).
  { subst c5. rewrite Hc4. replace (getRegister _ inst) with (getRegister c1 inst);
      [exact Hg1|]. now destruct c1. }
  assert (Hv5 : store_get (m_values c5) rOut = Some (written opts stored)).
  { subst c5. destruct c4; cbn. now destruct (decide (rOut = rOut)). }
  pose proof (shadow_mem_load_run CSl c5 inst rOut _ Hal Hreg Hg5 Hv5) as Hld.
  rewrite Hul' in Hld.
  set (c6 := set_scalar true (set_readRegister (Some rOut) c5)) in *.
  assert (Hlo : executeLoadInst m_sem addr' al' ty c6 =
                Done (Some loaded) (set_readRegister None c6) []).
  { apply executeLoadInst_scalar_run with (rreg := rOut);
      subst c6 c5; now destruct c4. }
  eexists _, _. split.
  - rewrite (bind_Done _ _ _ _ _ _ Hrun).
    unfold bind at 1. rewrite Hst.
    unfold bind at 1. rewrite Hld.
    rewrite Hlo. reflexivity.
  - split_and!.
    + subst c6 c5. now destruct c4.
    + subst c6 c5. now destruct c4.
    + subst c6. replace (m_values (set_readRegister None _)) with (m_values c5);
        [exact Hv5|]. now destruct c5.
    + subst c6 c5. destruct c4; cbn in *.
      destruct (decide (rOut = rv)); [congruence|exact Hv4].
Qed.

End ScalarFacts.

(** ** Registers the semantics recognises *)

Section SymRegFacts.

Context {alu : OpSemAlu} {mem : OpSemMemManager} {ext : Externals}.
Variable opts : Options.
Variable m_sem : Bv2OpSem.

Lemma declareRegister_elem r rs : r ∈ declareRegister r rs.
Proof.
  unfold declareRegister. destruct (bool_decide_reflect (r ∈ rs)); [assumption|].
  apply elem_of_cons. now left.
Qed.

Lemma declareRegister_mono r r0 rs : r0 ∈ rs -> r0 ∈ declareRegister r rs.
Proof.
  unfold declareRegister. destruct (bool_decide (r ∈ rs)); [auto|].
  intros H. apply elem_of_cons. now right.
Qed.

(** X21. In a root context whose registers are all declared, every
    register [mkRegister] hands out is a known register of the resulting
    context, so [isSymReg] recognises it whatever its shape; the
    resulting context has its registers all declared again and knows
    every register known before. *)
Theorem mkRegister_declares (c : Bv2OpSemContext) (v : ValuePtr) (r : Expr)
    (c' : Bv2OpSemContext) (l : list Diag) (base_isSymReg : Expr -> bool) :
  m_parent c = None ->
  declared c ->
  mkRegister opts m_sem v c = Done r c' l ->
  isKnownRegister c' r = true
  /\ isSymReg base_isSymReg r c' = Ok true []
  /\ declared c' /\ m_parent c' = None
  /\ (forall r0, isKnownRegister c r0 = true -> isKnownRegister c' r0 = true).
Proof.
  intros Hp Hd Hmk.
  assert (H : isKnownRegister c' r = true /\ declared c' /\ m_parent c' = None
              /\ (forall r0, isKnownRegister c r0 = true ->
                             isKnownRegister c' r0 = true)).
  { apply mkRegister_inv in Hmk as [(Hg & -> & _)|(Hg & Hn & ->)].
    - split_and!; auto.
      rewrite getRegister_eq, Hp in Hg.
      destruct (m_valueToRegister c !! v) as [r'|] eqn:Hl; [|discriminate].
      injection Hg as ->. unfold isKnownRegister.
      apply bool_decide_true. now apply (Hd v).
    - unfold isKnownRegister, declared.
      replace (m_registers (set_registers _ _ c))
        with (declareRegister r (m_registers c)) by (now destruct c).
      replace (m_valueToRegister (set_registers _ _ c))
        with (<[v := r]> (m_valueToRegister c)) by (now destruct c).
      split_and!.
      + apply bool_decide_true, declareRegister_elem.
      + intros w rw. rewrite lookup_insert.
        destruct (decide (v = w)) as [<-|].
        * intros [= <-]. apply declareRegister_elem.
        * intros Hw. apply declareRegister_mono. now apply (Hd w).
      + now destruct c.
      + intros r0 H0. apply bool_decide_true, declareRegister_mono.
        now apply bool_decide_eq_true in H0. }
  destruct H as (Hk & Hd' & Hp' & Hmono). split_and!; try assumption.
  unfold isSymReg. rewrite Hk. now destruct (base_isSymReg r).
Qed.

(** X22. [conc] never gives a value: it asserts of the same term that it
    is an application and that it is a value term, so for every term one
    of the two assertions fails. *)
Theorem conc_never_returns (v : Expr) : exists msg, conc v = Fatal msg.
Proof. destruct v; cbn; eexists; reflexivity. Qed.

(** X23. [read] of a tracked value that is not a constant never gives
    the empty term: it gives the term held by the register of the value,
    which it creates when there is none; with a register it is what
    [lookup] gives, without one [lookup] gives the empty term and leaves
    the machine as it is. *)
Theorem read_never_empty (c : Bv2OpSemContext) (v : ValuePtr)
    (ls : list Diag) (res : option Expr) (c1 : Bv2OpSemContext)
    (l : list Diag) :
  isSkipped opts m_sem v = Ok false ls ->
  isConstant (kind (valueAt m_sem v)) = false ->
  read opts m_sem v c = Done res c1 l ->
  (exists reg e,
     res = Some e /\ getRegister c1 v = Some reg
     /\ store_get (m_values c1) reg = Some e)
  /\ (is_Some (getRegister c v) -> lookup m_sem v c = Done res c1 l)
  /\ (getRegister c v = None ->
        exists lw, lookup m_sem v c = Done None c lw).
Proof.
  intros Hsk Hk H.
  pose proof (isSkipped_false_log _ _ _ _ Hsk) as ->.
  revert H. unfold read. unfold bind at 1. unfold lift at 1. rewrite Hsk.
  unfold bind at 1. unfold gets at 1.
  destruct (getRegister c v) as [reg|] eqn:Hg.
  - rewrite !bind_id_log. intros H.
    assert (Hl : lookup m_sem v c = Done res c1 l).
    { unfold lookup. rewrite (getOperandValue_register m_sem c v reg Hk Hg).
      revert H. unfold bind, ctx_read, ret.
      destruct (store_read (m_values c) reg). now intros [= <- <- <-]. }
    split_and!; [|auto|discriminate].
    revert H. unfold bind, ctx_read, ret.
    pose proof (store_read_get (m_values c) reg) as Hsg.
    destruct (store_read (m_values c) reg) as [e s]. cbn in Hsg.
    intros [= <- <- <-]. exists reg, e. split_and!; [reflexivity| |].
    + now rewrite getRegister_set_values.
    + now destruct c.
  - rewrite Hk, !bind_id_log. intros H.
    split_and!; [|intros [? ?]; discriminate
                 |intros _; now apply getOperandValue_no_register].
    apply bind_inv in H as (reg & c2 & l1 & l2 & Hmk & H & ->).
    apply mkRegister_inv in Hmk as [(? & _)|(_ & _ & ->)]; [congruence|].
    revert H. unfold bind, ctx_read, ret.
    match goal with
    | |- context [store_read ?s reg] =>
        pose proof (store_read_get s reg) as Hsg;
        destruct (store_read s reg) as [e s']
    end.
    cbn in Hsg. intros [= <- <- <-]. exists reg, e. split_and!; [reflexivity| |].
    + rewrite getRegister_set_values, getRegister_insert.
      now destruct (decide (v = v)).
    + now destruct c.
Qed.

End SymRegFacts.

(** ** Offsets of a GEP *)

Section GepFacts.

Context {alu : OpSemAlu} {mem : OpSemMemManager} {ext : Externals}.
Context {gext : GepExternals}.
Variable m_sem : Bv2OpSem.

Local Open Scope Z_scope.

Lemma to_uint64_range z : 0 <= to_uint64 z < 2 ^ 64.
Proof. unfold to_uint64. apply Z.mod_pos_bound. lia. Qed.

Lemma bind_assoc {A B C} (m : M A) (f : A -> M B) (g : B -> M C) c :
  bind (bind m f) g c = bind m (fun a => bind (f a) g) c.
Proof.
  unfold bind. destruct (m c) as [a c1 l1|]; [|reflexivity].
  destruct (f a c1) as [b c2 l2|]; [|reflexivity].
  destruct (g b c2) as [x c3 l3|]; [|reflexivity].
  now rewrite app_assoc.
Qed.

Lemma to_uint64_add n x :
  to_uint64 (to_uint64 n + x) = to_uint64 (n + x).
Proof. unfold to_uint64. now rewrite Z.add_mod_idemp_l by lia. Qed.

Lemma to_uint64_step n i sz S :
  to_uint64 (to_uint64 n + to_uint64 i * sz + S) = to_uint64 (n + (i * sz + S)).
Proof.
  rewrite <- Z.add_assoc, to_uint64_add. unfold to_uint64.
  replace (n + (i mod 2 ^ 64 * sz + S)) with (i mod 2 ^ 64 * sz + (n + S)) by lia.
  rewrite <- Z.add_mod_idemp_l by lia. rewrite Z.mul_mod_idemp_l by lia.
  rewrite Z.add_mod_idemp_l by lia. f_equal. lia.
Qed.

Lemma gepOffsets_constant steps offs :
  Forall2 (fun step off => constantStepOffset m_sem step = Some off) steps offs ->
  forall n so c,
    gepOffsets m_sem steps (to_uint64 n) so c =
      Done (to_uint64 (n + sumZ offs), so) c [].
Proof.
  induction 1 as [|step off steps offs Hstep _ IH]; intros n so c.
  - cbn. now rewrite Z.add_0_r.
  - cbn [gepOffsets sumZ fold_right]. fold (sumZ offs).
    destruct step as [CurVal STy|CurVal ty]; cbn in Hstep;
      destruct (kind (valueAt m_sem CurVal)); try discriminate;
      injection Hstep as <-; rewrite IH.
    + now rewrite <- Z.add_assoc, to_uint64_add.
    + now rewrite to_uint64_step.
Qed.

(** X24. The offset of a GEP whose indices are all constant integers is
    one numeral of pointer width, the sum of the field offsets and of
    the indices times the element sizes modulo 2^64; the machine does
    not move and nothing is printed. *)
Theorem symbolicIndexedOffset_constant (c : Bv2OpSemContext)
    (steps : list GepStep) (offs : list Z) :
  Forall2 (fun step off => constantStepOffset m_sem step = Some off) steps offs ->
  symbolicIndexedOffset m_sem steps c =
    Done (BVNUM (sumZ offs mod 2 ^ 64) pointerSizeInBits) c [].
Proof.
  intros H. unfold symbolicIndexedOffset.
  pose proof (gepOffsets_constant steps offs H 0 None c) as Hrun.
  change (to_uint64 0) with 0 in Hrun. rewrite Z.add_0_l in Hrun.
  rewrite (bind_Done _ _ _ _ _ _ Hrun). cbn [app].
  pose proof (to_uint64_range (sumZ offs)) as Hr.
  fold (to_uint64 (sumZ offs)).
  destruct (Z.ltb_spec 0 (to_uint64 (sumZ offs))) as [Hpos|Hz]; [reflexivity|].
  assert (E : to_uint64 (sumZ offs) = 0) by lia.
  rewrite E. reflexivity.
Qed.

(** X25. With one symbolic index among constant ones, wherever it
    stands, the offset is the index times its element size, plus one
    numeral for all the constant indices together when their sum modulo
    2^64 is not zero, and the product alone when it is. *)
Theorem symbolicIndexedOffset_symbolic (c : Bv2OpSemContext)
    (pre post : list GepStep) (offs1 offs2 : list Z) (idx : ValuePtr)
    (ty : Type_) (a : Expr) (c1 : Bv2OpSemContext) (l : list Diag) :
  Forall2 (fun step off => constantStepOffset m_sem step = Some off) pre offs1 ->
  Forall2 (fun step off => constantStepOffset m_sem step = Some off) post offs2 ->
  constantStepOffset m_sem (SequentialStep idx ty) = None ->
  getOperandValue m_sem idx c = Done (Some a) c1 l ->
  let n := (sumZ offs1 + sumZ offs2) mod 2 ^ 64 in
  let scaled := BMUL a (BVNUM (Z.of_N (storageSize ty)) pointerSizeInBits) in
  symbolicIndexedOffset m_sem (pre ++ SequentialStep idx ty :: post) c =
    Done (if 0 <? n then BADD scaled (BVNUM n pointerSizeInBits) else scaled)
      c1 l.
Proof.
  intros H1 H2 Hidx Ha n scaled.
  assert (Hsplit : forall steps1 steps2 n0 so c0,
            gepOffsets m_sem (steps1 ++ steps2) n0 so c0 =
              bind (gepOffsets m_sem steps1 n0 so)
                (fun r => gepOffsets m_sem steps2 (fst r) (snd r)) c0).
  { induction steps1 as [|s1 steps1 IH]; intros steps2 n0 so c0.
    - unfold bind. cbn. now destruct (gepOffsets m_sem steps2 n0 so c0).
    - cbn [app gepOffsets].
      destruct s1 as [CurVal STy|CurVal ty0];
        destruct (kind (valueAt m_sem CurVal)); try reflexivity;
        try apply IH;
        (rewrite bind_assoc; apply bind_ext; intros [x|] cx;
         [apply IH|reflexivity]). }
  assert (Hrun : gepOffsets m_sem (pre ++ SequentialStep idx ty :: post) 0 None c =
                 Done (to_uint64 (sumZ offs1 + sumZ offs2), Some scaled) c1 l).
  { rewrite Hsplit.
    pose proof (gepOffsets_constant pre offs1 H1 0 None c) as Hpre.
    change (to_uint64 0) with 0 in Hpre. rewrite Z.add_0_l in Hpre.
    unfold bind at 1. rewrite Hpre. cbn [fst snd app].
    cbn [gepOffsets]. cbn in Hidx.
    destruct (kind (valueAt m_sem idx)); try discriminate;
      (unfold bind; rewrite Ha;
       rewrite (gepOffsets_constant post offs2 H2);
       now rewrite app_nil_r). }
  unfold symbolicIndexedOffset.
  rewrite (bind_Done _ _ _ _ _ _ Hrun).
  subst n. unfold to_uint64.
  destruct (0 <? _); cbn; now rewrite app_nil_r.
Qed.

End GepFacts.

(** ** The Yices solver context, once more *)

(** X26. The Yices library is initialised once: after any number of
    solver objects have been constructed, [yices_init] has run once more
    than before if the library was not initialised and a solver was
    constructed, and not at all otherwise. *)
Theorem Yices_library_initialized_once (l : YicesImpl.library) (n : nat) :
  let l' := Nat.iter n (fun l => fst (YicesImpl.new_yices_impl l)) l in
  YicesImpl.yices_init_calls l' =
    (YicesImpl.yices_init_calls l
     + (if YicesImpl.s_yices_lib_initialized l then 0
        else match n with O => 0 | S _ => 1 end))%nat
  /\ YicesImpl.s_yices_lib_initialized l' =
       (YicesImpl.s_yices_lib_initialized l
        || match n with O => false | S _ => true end).
Proof.
  revert l. induction n as [|n IH]; intros l.
  - cbn. destruct (YicesImpl.s_yices_lib_initialized l);
      cbn; split; try reflexivity; lia.
  - cbn zeta. rewrite Nat.iter_succ_r.
    destruct (IH (fst (YicesImpl.new_yices_impl l))) as [IHc IHi].
    rewrite IHc, IHi.
    unfold YicesImpl.new_yices_impl, YicesImpl.yices_library_initialize.
    cbn [fst].
    destruct (YicesImpl.s_yices_lib_initialized l) eqn:Hl; cbn; rewrite ?Hl;
      destruct n; cbn; split; try reflexivity; lia.
Qed.

(** X27. Whatever calls to [add], [push] and [pop] are made on a Yices
    solver, [add] answers false and leaves the solver as it is, [check]
    answers UNKNOWN, no assertion reaches the context, and the context
    is deeper by one level for every [push] and every [pop]. *)
Theorem Yices_nothing_asserted (y : Yices.yices_impl)
    (ks : list YicesImpl.call) :
  let y' := YicesImpl.do_calls y ks in
  (forall e, YicesImpl.add y' e = (false, y'))
  /\ YicesImpl.check y' = YicesImpl.UNKNOWN
  /\ (Forall (fun lv => lv = []) (Yices.levels (Yices.d_ctx y)) ->
      Forall (fun lv => lv = []) (Yices.levels (Yices.d_ctx y')))
  /\ length (Yices.levels (Yices.d_ctx y')) =
       (length (Yices.levels (Yices.d_ctx y))
        + length (List.filter (fun k => negb (YicesImpl.isAdd k)) ks))%nat.
Proof.
  cbn zeta. split; [reflexivity|]. split; [reflexivity|].
  revert y. induction ks as [|k ks IH]; intros y.
  - cbn. split; [auto|lia].
  - cbn [YicesImpl.do_calls fold_left].
    destruct (IH (YicesImpl.do_call y k)) as [IH1 IH2].
    unfold YicesImpl.do_calls in *. split.
    + intros H. apply IH1.
      destruct k; cbn; [exact H| |]; constructor; auto.
    + rewrite IH2. destruct k; cbn; lia.
Qed.

(** ** Logging *)

Lemma SeaEnableLog_fold (tags : list string) (s : SeaDebug.state) :
  let s' := fold_left (fun s x => SeaDebug.SeaEnableLog x s) tags s in
  (forall x, x ∈ SeaDebug.SeaLog s' <->
             x ∈ SeaDebug.SeaLog s \/ (x ∈ tags /\ x <> ""))
  /\ SeaDebug.SeaLogFlag s' =
       (SeaDebug.SeaLogFlag s
        || existsb (fun x => negb (String.eqb x "")) tags).
Proof.
  revert s. induction tags as [|t tags IH]; intros s; cbn.
  - split; [|now rewrite orb_false_r].
    intros x. split; [auto|]. intros [H|[H _]]; [exact H|].
    now apply elem_of_nil in H.
  - destruct (IH (SeaDebug.SeaEnableLog t s)) as [IH1 IH2]. cbn in IH1, IH2.
    split.
    + intros x. rewrite IH1. unfold SeaDebug.SeaEnableLog.
      destruct (String.eqb_spec t "") as [->|Hne]; cbn.
      * rewrite elem_of_cons. intuition congruence.
      * rewrite elem_of_union, elem_of_singleton, elem_of_cons.
        intuition congruence.
    + rewrite IH2. unfold SeaDebug.SeaEnableLog.
      destruct (String.eqb_spec t "") as [->|Hne]; cbn; [reflexivity|].
      now rewrite orb_true_r.
Qed.

(** X28. After any sequence of calls to [SeaEnableLog], the enabled tags
    are the non-empty tags passed, the log flag is on exactly when some
    tag is enabled, and enabling a tag twice is enabling it once. *)
Theorem SeaEnableLog_invariant (tags : list string) :
  let s := fold_left (fun s x => SeaDebug.SeaEnableLog x s) tags
             SeaDebug.initial in
  (forall x, x ∈ SeaDebug.SeaLog s <-> x ∈ tags /\ x <> "")
  /\ (SeaDebug.SeaLogFlag s = true <-> SeaDebug.SeaLog s <> ∅)
  /\ (forall x, SeaDebug.SeaEnableLog x (SeaDebug.SeaEnableLog x s) =
                SeaDebug.SeaEnableLog x s).
Proof.
  cbn zeta.
  destruct (SeaEnableLog_fold tags SeaDebug.initial) as [H1 H2].
  cbn zeta in H1, H2.
  set (s := fold_left _ tags SeaDebug.initial) in *.
  assert (Hmem : forall x, x ∈ SeaDebug.SeaLog s <-> x ∈ tags /\ x <> "").
  { intros x. rewrite H1. cbn. rewrite elem_of_empty. tauto. }
  split_and!.
  - exact Hmem.
  - rewrite H2. cbn. rewrite existsb_exists. split.
    + intros (x & Hin & Hx) He.
      assert (Hx' : x ∈ SeaDebug.SeaLog s).
      { apply Hmem. split; [now apply list_elem_of_In|].
        intros ->. discriminate. }
      rewrite He in Hx'. now apply elem_of_empty in Hx'.
    + intros Hne. apply set_choose_L in Hne as [x Hx].
      apply Hmem in Hx as [Hin Hx]. exists x. split.
      * now apply list_elem_of_In.
      * destruct (String.eqb_spec x ""); [contradiction|reflexivity].
  - intros x. unfold SeaDebug.SeaEnableLog.
    destruct (String.eqb_spec x "") as [->|Hne]; [reflexivity|].
    cbn. f_equal. apply leibniz_equiv. rewrite (assoc_L (∪)).
    now rewrite union_idemp_L.
Qed.

(** ** Single steps and bit casts *)

Section StepFacts.

Context {alu : OpSemAlu} {mem : OpSemMemManager} {ext : Externals}.
Variable opts : Options.
Variable m_sem : Bv2OpSem.

Lemma isAtBbEnd_run c bb i :
  m_bb c = Some bb -> m_inst c = Some (bb, i) ->
  isAtBbEnd m_sem c =
    Done (Nat.eqb i (length (instructions m_sem bb))) c [].
Proof.
  intros Hb Hi. unfold isAtBbEnd, bind, getCurrBb, gets, ret.
  rewrite Hb, Hi, Pos.eqb_refl. reflexivity.
Qed.

Lemma skipInst_inv inst c :
  exists l,
    skipInst opts m_sem inst c =
      Done tt
        (if fst (isShadowMem opts m_sem inst) then c
         else set_ignored ({[inst]} ∪ m_ignored c) c) l.
Proof.
  unfold skipInst. destruct (fst (isShadowMem opts m_sem inst)).
  - eexists. reflexivity.
  - unfold bind, isIgnored, ignore, gets, modify, emit, ret.
    destruct (bool_decide_reflect (inst ∈ m_ignored c)) as [Hin|Hin];
      eexists; [|reflexivity].
    assert (E : {[inst]} ∪ m_ignored c = m_ignored c)
      by (apply subseteq_union_1_L, singleton_subseteq_l, Hin).
    rewrite E. now destruct c.
Qed.

(** X29. What a single step never does: at the end of the block, and at
    a terminator that is not a branch, [intraStep] answers false and
    leaves the machine as it is; at a skipped instruction that is not a
    terminator it never calls the visitor: whatever the visitor is, the
    step answers true, moves the iterator to the next instruction, can
    only add the instruction to the ignored ones, and leaves the store,
    the side-conditions, the registers and the meta-registers as they
    were. *)
Theorem intraStep_skips_and_stops (visit : ValuePtr -> M unit)
    (c : Bv2OpSemContext) (bb : ValuePtr) (i : nat) :
  m_bb c = Some bb ->
  m_inst c = Some (bb, i) ->
  (i = length (instructions m_sem bb) ->
   intraStep opts m_sem visit c = Done false c [])
  /\ (forall inst,
        instructions m_sem bb !! i = Some inst ->
        isTerminator (kind (valueAt m_sem inst)) = true ->
        isBranchInst (kind (valueAt m_sem inst)) = false ->
        intraStep opts m_sem visit c = Done false c [])
  /\ (forall inst ls,
        instructions m_sem bb !! i = Some inst ->
        isTerminator (kind (valueAt m_sem inst)) = false ->
        isSkipped opts m_sem inst = Ok true ls ->
        exists c' l,
          intraStep opts m_sem visit c = Done true c' l
          /\ (forall visit', intraStep opts m_sem visit' c = Done true c' l)
          /\ m_inst c' = Some (bb, S i)
          /\ m_values c' = m_values c /\ m_side c' = m_side c
          /\ sameRegisters c c' /\ sameMetaRegisters c c').
Proof.
  intros Hb Hi.
  assert (Hcur : forall inst, instructions m_sem bb !! i = Some inst ->
            Nat.eqb i (length (instructions m_sem bb)) = false
            /\ getCurrentInst m_sem c = Some inst).
  { intros inst Hl. split.
    - apply Nat.eqb_neq. apply lookup_lt_Some in Hl. lia.
    - unfold getCurrentInst. now rewrite Hi. }
  split_and!.
  - intros ->. unfold intraStep.
    rewrite (bind_Done _ _ _ _ _ _ (isAtBbEnd_run c bb _ Hb Hi)).
    now rewrite Nat.eqb_refl.
  - intros inst Hl Ht Hbr. destruct (Hcur inst Hl) as [Hne Hc].
    unfold intraStep.
    rewrite (bind_Done _ _ _ _ _ _ (isAtBbEnd_run c bb _ Hb Hi)), Hne.
    unfold bind, gets. rewrite Hc, Ht, Hbr. reflexivity.
  - intros inst ls Hl Ht Hsk. destruct (Hcur inst Hl) as [Hne Hc].
    destruct (skipInst_inv inst c) as [l Hskip].
    assert (Hrun : forall v, exists c',
              intraStep opts m_sem v c = Done true c' (ls ++ l ++ [])
              /\ c' = set_position (m_func c) (m_bb c) (Some (bb, S i))
                        (m_prev c)
                        (if fst (isShadowMem opts m_sem inst) then c
                         else set_ignored ({[inst]} ∪ m_ignored c) c)).
    { intros v. unfold intraStep.
      rewrite (bind_Done _ _ _ _ _ _ (isAtBbEnd_run c bb _ Hb Hi)), Hne.
      unfold bind at 1. unfold gets at 1. rewrite Hc, Ht. cbn [andb negb].
      unfold bind at 1. unfold lift at 1. rewrite Hsk.
      unfold bind at 1. rewrite Hskip.
      unfold bind, next_inst, modify, ret.
      eexists. split; [cbn; rewrite ?app_nil_r; reflexivity|].
      destruct (fst (isShadowMem opts m_sem inst)); destruct c; cbn in *;
        now rewrite Hi. }
    destruct (Hrun visit) as (c' & Hv & Hc').
    exists c', (ls ++ l ++ []). split; [exact Hv|]. split.
    { intros v'. destruct (Hrun v') as (c'' & Hv' & Hc''). congruence. }
    rewrite Hc'. unfold sameRegisters, sameMetaRegisters.
    destruct (fst (isShadowMem opts m_sem inst)); destruct c; cbn;
      split_and!; reflexivity.
Qed.

Lemma write_lookup c v ls e c1 l :
  registerable m_sem v = true ->
  isSkipped opts m_sem v = Ok false ls ->
  write opts m_sem v e c = Done tt c1 l ->
  lookup m_sem v c1 = Done (Some (written opts e)) c1 [].
Proof.
  intros Hk Hsk Hw.
  destruct (getRegister c v) as [reg|] eqn:Hg.
  - rewrite (write_found opts m_sem c v ls reg e Hsk Hg) in Hw.
    injection Hw as <- <-.
    apply lookup_written with (reg := reg) (s := m_values c); try assumption;
      now destruct c.
  - rewrite (write_fresh opts m_sem c v ls e Hsk Hg) in Hw.
    destruct (isConstant (kind (valueAt m_sem v))); [discriminate|].
    destruct (newRegister opts m_sem v) as [reg lr|msg]; [|discriminate].
    injection Hw as <- <-.
    apply lookup_written with (reg := reg) (s := m_values c).
    + exact Hk.
    + rewrite getRegister_set_values, getRegister_insert.
      now destruct (decide (v = v)).
    + now destruct c.
Qed.

Lemma executeBitCastInst_lookup op ty c res c1 l :
  executeBitCastInst m_sem op ty c = Done res c1 l ->
  lookup m_sem op c = Done res c1 l.
Proof.
  unfold executeBitCastInst.
  destruct (isVectorTy _ || isVectorTy ty); [discriminate|].
  intros H. apply bind_inv in H as (r & c2 & l1 & l2 & Hl & H & ->).
  rewrite Hl. destruct r as [r|].
  - repeat match type of H with
           | (if ?b then _ else _) _ = _ => destruct b
           end;
      try discriminate; injection H as <- <- <-; now rewrite app_nil_r.
  - injection H as <- <- <-. now rewrite app_nil_r.
Qed.

(** X30. A bit cast gives its operand: whenever [executeBitCastInst]
    returns, it returned what the lookup of the operand gives and moved
    the machine as the lookup does; a cast to a pointer type is that
    lookup; a cast between an integer and a float or double never gives
    a term; and after [visitBitCastInst] of a tracked instruction whose
    operand is resolved, looking the instruction up gives the operand's
    term. *)
Theorem bitcast_gives_operand (I op : ValuePtr) (c : Bv2OpSemContext) :
  (forall ty res c1 l,
     executeBitCastInst m_sem op ty c = Done res c1 l ->
     lookup m_sem op c = Done res c1 l)
  /\ (forall ty,
        isPointerTy ty = true ->
        isVectorTy (getType (valueAt m_sem op)) = false ->
        executeBitCastInst m_sem op ty c = lookup m_sem op c)
  /\ (forall ty,
        (isIntegerTy ty = true
         /\ (isFloatTy (getType (valueAt m_sem op))
             || isDoubleTy (getType (valueAt m_sem op))) = true)
        \/ ((isFloatTy ty || isDoubleTy ty) = true
            /\ isIntegerTy (getType (valueAt m_sem op)) = true) ->
        forall res c1 l, executeBitCastInst m_sem op ty c <> Done (Some res) c1 l)
  /\ (forall ls e c1 l1 c2 l,
        registerable m_sem I = true ->
        isSkipped opts m_sem I = Ok false ls ->
        lookup m_sem op c = Done (Some e) c1 l1 ->
        visitBitCastInst opts m_sem I op c = Done tt c2 l ->
        lookup m_sem I c2 = Done (Some (written opts e)) c2 []).
Proof.
  split_and!.
  - intros ty res c1 l H. now apply executeBitCastInst_lookup with (ty := ty).
  - intros ty Hp Hv. unfold executeBitCastInst. rewrite Hv.
    destruct ty; try discriminate. cbn.
    unfold bind. destruct (lookup m_sem op c) as [[r|] c1 l|]; try reflexivity;
      cbn; now rewrite app_nil_r.
  - intros ty Hty res c1 l H.
    unfold executeBitCastInst in H.
    destruct (isVectorTy _ || isVectorTy ty); [discriminate|].
    apply bind_inv in H as (r & c2 & l1 & l2 & Hl & H & ->).
    destruct r as [r|]; [|discriminate].
    destruct Hty as [[Hi Hf]|[Hf Hi]].
    + destruct ty; try discriminate. cbn in H.
      destruct (getType (valueAt m_sem op)); try discriminate.
    + destruct (getType (valueAt m_sem op)); try discriminate.
      destruct ty; try discriminate.
  - intros ls e c1 l1 c2 l Hk Hsk Hl H.
    unfold visitBitCastInst in H.
    apply bind_inv in H as (r & c3 & l2 & l3 & He & H & ->).
    apply executeBitCastInst_lookup in He. rewrite Hl in He.
    injection He as <- <- <-.
    unfold setValue in H. now apply write_lookup with (c := c1) (ls := ls) (l := l3).
Qed.

End StepFacts.

(** * The example program, run *)

Import Example.

Lemma canonical_root : canonical opts sem root.
Proof. split; [|exact I]. intros v r. now rewrite lookup_empty. Qed.

Lemma canonical_atLeft : canonical opts sem atLeft.
Proof.
  assert (H40 : canonical opts sem (declare root 40 (reg 40))).
  { apply canonical_insert with (l := []); [apply canonical_root|reflexivity]. }
  pose proof (canonical_insert opts sem
                (declareRegister (reg 41) (m_registers (declare root 40 (reg 40))))
                (declare root 40 (reg 40)) 41 (reg 41) [] H40 eq_refl) as H.
  exact H.
Qed.

Lemma canonical_atPre : canonical opts sem atPre.
Proof.
  assert (H48 : canonical opts sem (declare root 48 (reg 48))).
  { apply canonical_insert with (l := []); [apply canonical_root|reflexivity]. }
  pose proof (canonical_insert opts sem
                (declareRegister (reg 49) (m_registers (declare root 48 (reg 48))))
                (declare root 48 (reg 48)) 49 (reg 49) [] H48 eq_refl) as H.
  exact H.
Qed.

(** The PHI nodes of [mixed] are as [mixedPhis] says, in [atPre] and in
    every state that has its registers and resolves what it resolves. *)
Lemma items_mixed c :
  (forall v, getRegister c v = getRegister atPre v) ->
  (forall v res, lookup sem v atPre = Done res atPre [] ->
                 lookup sem v c = Done res c []) ->
  Forall (leading_phi opts sem c 18) mixedPhis
  /\ NoDup (map pa_reg (assignments mixedPhis)).
Proof.
  intros Hg Hl. split.
  - repeat (apply Forall_cons; split); [| | | | |constructor].
    + split; [now exists 17%positive, [(18, 50)]%positive|reflexivity].
    + exists 17%positive, [(18, 49)]%positive, 18%positive.
      split_and!; try reflexivity; [left; now rewrite Hg|now apply Hl].
    + split; [now exists 17%positive, [(18, 50)]%positive|reflexivity].
    + exists 17%positive, [(18, 48)]%positive, 18%positive.
      split_and!; try reflexivity; [left; now rewrite Hg|now apply Hl].
    + exists 17%positive, [(18, 50)]%positive, 18%positive.
      split_and!; try reflexivity.
      right. split; [now rewrite Hg|reflexivity].
  - cbn. repeat (apply NoDup_cons; split); try apply NoDup_nil; try exact I;
      rewrite ?elem_of_cons, ?elem_of_nil; intros H; intuition discriminate.
Defined.

(** In [mixed] the two PHI nodes exchange the values [a] and [b] their
    registers hold at the end of [pre], the third gets its constant and
    its register, and the struct is reported by each of the two loops; in
    [nswap], which declares [%y] before [%x], every run that returns
    exchanges the two as well. *)
Lemma phi_resolution_atomic_witness :
  (exists c',
     visitBasicBlock_Phi opts sem 17 atPre =
       Done tt c' [LOG "opsem" "Unsupported struct type";
                   LOG "opsem" "Unsupported struct type"]
     /\ store_get (m_values c') (reg 48) = Some b
     /\ store_get (m_values c') (reg 49) = Some a
     /\ getRegister c' 47 = Some (reg 47)
     /\ store_get (m_values c') (reg 47) = Some (BVNUM 1 32))
  /\ (exists c' l,
        visitBasicBlock_Phi opts sem 17 atPre = Done tt c' l
        /\ store_get (m_values c') (reg 48) = Some b
        /\ store_get (m_values c') (reg 49) = Some a)
  /\ (exists c' l,
        visitBasicBlock_Phi opts sem 16 atLeft = Done tt c' l
        /\ store_get (m_values c') (reg 40) = Some b
        /\ store_get (m_values c') (reg 41) = Some a).
Proof.
  destruct (items_mixed atPre (fun _ => eq_refl) (fun _ _ H => H))
    as [Hall Hnd].
  assert (Hnd2 : forall x y z : ValuePtr,
            x <> y -> x <> z -> y <> z -> NoDup [x; y; z]).
  { intros x y z Hxy Hxz Hyz.
    repeat (apply NoDup_cons; split); try apply NoDup_nil; try exact I;
      rewrite ?elem_of_cons, ?elem_of_nil; intuition congruence. }
  split; [|split].
  - destruct (proj1 (phi_resolution_atomic opts sem) atPre 17%positive
                18%positive mixedPhis [42%positive] eq_refl eq_refl eq_refl Hall Hnd)
      as (c' & Hrun & Hval & _).
    exists c'. split_and!; [exact Hrun| | | |].
    + apply (Hval (mkPhiAssign 48 49 (reg 48) b)).
      cbn; rewrite !elem_of_cons; auto 10.
    + apply (Hval (mkPhiAssign 49 48 (reg 49) a)).
      cbn; rewrite !elem_of_cons; auto 10.
    + apply (Hval (mkPhiAssign 47 50 (reg 47) (BVNUM 1 32))).
      cbn; rewrite !elem_of_cons; auto 10.
    + apply (Hval (mkPhiAssign 47 50 (reg 47) (BVNUM 1 32))).
      cbn; rewrite !elem_of_cons; auto 10.
  - apply (proj1 (proj2 (phi_resolution_atomic opts sem)) atPre 17%positive
             18%positive (map lp_phi mixedPhis) [42%positive]
             48%positive 49%positive 17%positive 17%positive
             [(18, 49)]%positive [(18, 48)]%positive 18%positive 18%positive
             (reg 48) (reg 49) a b);
      try reflexivity.
    + vm_compute.
      repeat (apply NoDup_cons; split); try apply NoDup_nil; try exact I;
        rewrite ?elem_of_cons, ?elem_of_nil; intros H; intuition discriminate.
    + apply canonical_atPre.
    + now apply leading_ready.
    + cbn; rewrite !elem_of_cons; auto 10.
    + cbn; rewrite !elem_of_cons; auto 10.
  - eassert (E : visitBasicBlock_Phi opts sem 16 atLeft = Done tt _ _)
      by (vm_compute; reflexivity).
    do 2 eexists. split; [exact E|].
    eapply (proj1 (proj2 (proj2 (proj2 (phi_resolution_atomic opts sem))))
              atLeft 16%positive 11%positive [41; 40]%positive [42%positive]
              40%positive 41%positive 13%positive 13%positive
              [(11, 41); (12, 50)]%positive [(11, 40); (12, 51)]%positive
              11%positive 11%positive (reg 40) (reg 41) a b);
      try reflexivity; try exact E.
    + repeat (apply Forall_cons; split); try discriminate. constructor.
    + vm_compute. apply Hnd2; discriminate.
    + cbn; rewrite !elem_of_cons; auto 10.
    + cbn; rewrite !elem_of_cons; auto 10.
    + apply canonical_atLeft.
Defined.

(** [br i1 true, left, right] towards [right]: the side-condition [TRUE]
    accumulated so far is replaced by the error flag. *)
Lemma intraBr_excluded_edge_witness :
  staticallyExcluded sem 43 12 = true
  /\ exists c' log,
       intraBr sem 12 (atTerminator 14 0 [TRUE]) = Done tt c' log
       /\ m_side c' =
            [fst (store_read (m_values (atTerminator 14 0 [TRUE]))
                    (errorFlag sem 14))]
       /\ m_values c' =
            snd (store_read (m_values (atTerminator 14 0 [TRUE]))
                   (errorFlag sem 14))
       /\ m_bb c' = Some 14%positive.
Proof.
  split; [reflexivity|].
  apply (intraBr_excluded_edge sem (atTerminator 14 0 [TRUE]) 43 14 12);
    reflexivity.
Defined.

(** [br i1 %c, left, right] towards [left], with [%c] in a register. *)
Lemma intraBr_symbolic_condition_witness :
  exists c',
    intraBr sem 11 (atTerminator 10 1 [TRUE]) = Done tt c' []
    /\ m_side c' =
         [TRUE;
          OR (VARIANT 1 (boolConst (STRING "error.flag"))) (VARIANT 0 (reg1 20))]
    /\ m_bb c' = Some 11%positive.
Proof.
  destruct (proj1 (intraBr_symbolic_condition sem (atTerminator 10 1 [TRUE])
                     21 10 20 11 12 10 11 eq_refl eq_refl eq_refl eq_refl
                     (or_intror eq_refl)) (reg1 20) eq_refl)
    as (c' & Hrun & Hside & _ & Hbb & _).
  exists c'. split; [exact Hrun|]. split; [exact Hside|exact Hbb].
Defined.

(** [br i1 %flag, left, right] towards [left], where [%flag] is an argument
    of the function and has no register: although the condition is not a
    constant, no side-condition is appended and [left] is not entered. *)
Lemma intraBr_symbolic_condition_counterexample :
  getCurrentInst sem (atTerminator 15 0 [TRUE]) = Some 44%positive
  /\ kind (valueAt sem 44) = InstructionVal 15 (CondBr 30 11 12)
  /\ isConstant (kind (valueAt sem 30)) = false
  /\ (exists c',
        intraBr sem 11 (atTerminator 15 0 [TRUE]) =
          Done tt c' [WARN "Failed to get register for"]
        /\ m_side c' = [TRUE]
        /\ m_bb c' = Some 15%positive)
  /\ ~ (exists c' log e,
          intraBr sem 11 (atTerminator 15 0 [TRUE]) = Done tt c' log
          /\ m_side c' = m_side (atTerminator 15 0 [TRUE]) ++ [e]).
Proof.
  split_and!; try reflexivity.
  - eexists. split_and!; vm_compute; reflexivity.
  - intros (c' & log & e & Hrun & Hside).
    vm_compute in Hrun. injection Hrun as <- _.
    vm_compute in Hside. discriminate.
Qed.

(** [br join] at the end of [left]. *)
Lemma intraBr_unconditional_taken_witness :
  exists c',
    intraBr sem 13 (atTerminator 11 0 [TRUE]) = Done tt c' []
    /\ m_side c' = [TRUE]
    /\ m_bb c' = Some 13%positive.
Proof.
  destruct (intraBr_unconditional_taken sem (atTerminator 11 0 [TRUE])
              22 11 13 eq_refl eq_refl (or_intror eq_refl))
    as (c' & Hrun & Hside & _ & Hbb & _).
  exists c'. split; [exact Hrun|]. split; [exact Hside|exact Hbb].
Defined.

(** A call to calloc between a shadow-memory store tag and the next
    memory operation, with the option off and with the option on. *)
Lemma visitCallocCall_zero_fill_toggle_witness :
  (exists c' log,
     visitCallocCall opts sem 64 (memState (Some memIn) (Some memOut) None false)
       = Done tt c' log
     /\ m_side c' =
          [EQ (VARIANT 4 memOut) (CONST_ARRAY (BVSORT 32) (BVNUM 0 32))])
  /\ (exists c' log,
        visitCallocCall opts_ignore_calloc sem 64
          (memState (Some memIn) (Some memOut) None false) = Done tt c' log
        /\ m_side c' = [EQ (VARIANT 4 memOut) (VARIANT 3 memIn)]).
Proof.
  split.
  - exact (visitCallocCall_zero_fill_toggle opts sem
             (memState (Some memIn) (Some memOut) None false)
             64 10 OtherInst i8 memIn memOut
             eq_refl eq_refl eq_refl eq_refl eq_refl eq_refl eq_refl).
  - exact (visitCallocCall_zero_fill_toggle opts_ignore_calloc sem
             (memState (Some memIn) (Some memOut) None false)
             64 10 OtherInst i8 memIn memOut
             eq_refl eq_refl eq_refl eq_refl eq_refl eq_refl eq_refl).
Defined.

(** A store without its write register, and a load without its read
    register. *)
Lemma missing_meta_register_skips_witness :
  (exists c',
     executeStoreInst opts sem 61 60 4 (memState (Some memIn) None None false) =
       Done None c' [LOG "opsem" "Skipping store"]
     /\ m_readRegister c' = None /\ m_writeRegister c' = None)
  /\ executeLoadInst sem 60 4 i32 (memState None (Some memOut) None false) =
       Done None (memState None (Some memOut) None false) [].
Proof.
  split.
  - destruct (proj1 (missing_meta_register_skips opts sem
                       (memState (Some memIn) None None false))
                61%positive 60%positive 4%N (or_intror eq_refl))
      as (c' & Hrun & Hr & Hw & _).
    exists c'. split; [exact Hrun|]. split; [exact Hr|exact Hw].
  - exact (proj2 (missing_meta_register_skips opts sem
                    (memState None (Some memOut) None false))
             60%positive 4%N i32 eq_refl).
Defined.

(** A load executed without its read register while a write register is
    set: the load returns the empty result, but nothing is logged and the
    write register stays set; when the load instruction was already
    recorded as ignored, visiting it logs nothing either. *)
Lemma missing_meta_register_load_counterexample :
  m_readRegister (memState None (Some memOut) None false) = None
  /\ (exists c',
        executeLoadInst sem 60 4 i32 (memState None (Some memOut) None false) =
          Done None c' []
        /\ m_writeRegister c' = Some memOut)
  /\ (exists c',
        visitLoadInst opts sem 65
          (set_ignored {[65%positive]} (memState None (Some memOut) None false)) =
          Done tt c' []
        /\ m_writeRegister c' = Some memOut)
  /\ ~ (exists res c' d log,
          executeLoadInst sem 60 4 i32 (memState None (Some memOut) None false) =
            Done res c' (d :: log))
  /\ ~ (exists res c' log,
          executeLoadInst sem 60 4 i32 (memState None (Some memOut) None false) =
            Done res c' log
          /\ m_writeRegister c' = None).
Proof.
  split_and!.
  - reflexivity.
  - eexists. split; vm_compute; reflexivity.
  - eexists. split; vm_compute; reflexivity.
  - intros (res & c' & d & log & Hrun). vm_compute in Hrun. discriminate.
  - intros (res & c' & log & Hrun & Hw). vm_compute in Hrun.
    injection Hrun as _ <- _. discriminate.
Qed.

(** memset and memcpy with the length in a register, and a memset of 16
    bytes. *)
Lemma memset_memcpy_symbolic_length_unsupported_witness :
  asConstantInt sem 63 = None
  /\ executeMemSetInst opts sem 60 62 63 4
       (memState (Some memIn) (Some memOut) None false) =
       Unreachable "Unsupported memset with symbolic length"
  /\ executeMemCpyInst opts sem 60 60 63 4
       (memState (Some memIn) (Some memOut) (Some memTr) false) =
       Unreachable "Unsupported memcpy with symbolic length"
  /\ (exists res c' l,
        executeMemSetInst opts sem 60 62 66 4
          (memState (Some memIn) (Some memOut) None false) = Done (Some res) c' l)
  /\ (exists n, asConstantInt sem 66 = Some n).
Proof.
  eassert (E : executeMemSetInst opts sem 60 62 66 4
                 (memState (Some memIn) (Some memOut) None false)
               = Done (Some _) _ _) by (vm_compute; reflexivity).
  split; [reflexivity|]. split_and!.
  - eapply (proj1 (memset_memcpy_symbolic_length_unsupported opts sem)
              (memState (Some memIn) (Some memOut) None false));
      vm_compute; reflexivity.
  - eapply (proj1 (proj2 (memset_memcpy_symbolic_length_unsupported opts sem))
              (memState (Some memIn) (Some memOut) (Some memTr) false));
      vm_compute; reflexivity.
  - eexists _, _, _. exact E.
  - exact (proj1 (proj2 (proj2 (memset_memcpy_symbolic_length_unsupported
                                  opts sem))) _ _ _ _ _ _ _ _ E).
Defined.

(** A fork of the state at [left] asks for the register of a PHI node that
    its parent declared: it gets the parent's register and is left as it
    was. *)
Lemma mkRegister_one_register_per_value_witness :
  getRegister (fork [] [] atLeft) 40 = Some (reg 40)
  /\ mkRegister opts sem 40 (fork [] [] atLeft) =
       Done (reg 40) (fork [] [] atLeft) [].
Proof.
  split; [reflexivity|].
  exact (proj1 (mkRegister_one_register_per_value opts sem
                  (fork [] [] atLeft) 40) (reg 40) eq_refl eq_refl).
Defined.

(** A load and a store through the memory manager: the tags are gone
    afterwards. *)
Lemma load_store_consume_meta_registers_witness :
  (exists res c' l,
     executeLoadInst sem 60 4 i32 (memState (Some memIn) (Some memOut) None false)
       = Done (Some res) c' l
     /\ m_readRegister c' = None)
  /\ (exists res c' l,
        executeStoreInst opts sem 61 60 4
          (memState (Some memIn) (Some memOut) None false) = Done (Some res) c' l
        /\ m_readRegister c' = None /\ m_writeRegister c' = None).
Proof.
  split.
  - eassert (E : executeLoadInst sem 60 4 i32
                   (memState (Some memIn) (Some memOut) None false)
                 = Done (Some _) _ _) by (vm_compute; reflexivity).
    eexists _, _, _. split; [exact E|].
    exact (proj1 (proj1 (load_store_consume_meta_registers opts sem)
                    _ _ _ _ _ _ _ E)).
  - eassert (E : executeStoreInst opts sem 61 60 4
                   (memState (Some memIn) (Some memOut) None false)
                 = Done (Some _) _ _) by (vm_compute; reflexivity).
    eexists _, _, _. split; [exact E|].
    destruct (proj1 (proj2 (load_store_consume_meta_registers opts sem))
                _ _ _ _ _ _ _ E) as (Hr & Hw & _).
    split; [exact Hr|exact Hw].
Defined.

Import Example.
Import Example2.

(** ** The calls, shadow memory and offsets of the second example, run *)

Lemma canonical_beforeStore : canonical opts sem2 beforeStore.
Proof.
  assert (Hroot : canonical opts sem2 root).
  { split; [|exact I]. intros v r. now rewrite lookup_empty. }
  assert (H83 : canonical opts sem2 (declare root 83 (scalarReg 83))).
  { apply canonical_insert with (l := []); [exact Hroot|reflexivity]. }
  pose proof (canonical_insert opts sem2
                (declareRegister (reg 61)
                   (m_registers (declare root 83 (scalarReg 83))))
                (declare root 83 (scalarReg 83)) 61 (reg 61) [] H83 eq_refl)
    as H.
  exact H.
Qed.

(** [%61] is skipped, then found unhandled: one diagnostic in all. *)
Lemma ignored_instruction_reported_once_witness :
  skipInst opts sem 61 root =
    Done tt (set_ignored ({[61%positive]} ∪ ∅) root)
      [LOG "opsem" "skipping instruction"]
  /\ unhandledInst 61 (set_ignored ({[61%positive]} ∪ ∅) root) =
       Done tt (set_ignored ({[61%positive]} ∪ ∅) root) [].
Proof.
  pose proof (ignored_instruction_reported_once opts sem 61 root eq_refl)
    as (_ & H2 & H3 & _).
  split; [exact H2|exact H3].
Defined.

(** Writing 5 to [%61], which has no register yet, and looking it up. *)
Lemma write_then_lookup_witness :
  exists c1,
    write opts sem 61 five root = Done tt c1 []
    /\ lookup sem 61 c1 = Done (Some five) c1 [].
Proof.
  eassert (E : write opts sem 61 five root = Done tt _ _)
    by (vm_compute; reflexivity).
  pose proof (write_then_lookup opts sem root 61 [] five _ _
                eq_refl eq_refl canonical_root E) as (H & _).
  eexists. split; [exact E|exact H].
Defined.

(** The float [%80] is skipped: writing it and havocking it do nothing. *)
Lemma skipped_value_never_written_witness :
  write opts sem2 80 five root = Done tt root []
  /\ havoc opts sem2 80 root = Done None root [].
Proof.
  destruct (skipped_value_never_written opts sem2 root 80 [] eq_refl)
    as (Hw & Hh & _).
  split; [apply Hw|exact Hh].
Defined.

(** Havocking [%61] in a fork of the root context. *)
Lemma fork_has_no_memory_manager_witness :
  havoc opts sem 61 (fork [] [] root) = Unreachable "m_ctx.getMemManager()".
Proof.
  exact (proj1 (fork_has_no_memory_manager opts sem (fork [] [] root) 61 []
                  eq_refl eq_refl)).
Defined.

(** The first lookup of [%61] gives its register a value; the second
    finds it. *)
Lemma lookup_repeatable_witness :
  exists c1,
    lookup sem 61 (declare root 61 (reg 61)) =
      Done (Some (VARIANT 0 (reg 61))) c1 []
    /\ lookup sem 61 c1 = Done (Some (VARIANT 0 (reg 61))) c1 [].
Proof.
  eassert (E : lookup sem 61 (declare root 61 (reg 61)) = Done _ _ _)
    by (vm_compute; reflexivity).
  destruct (lookup_repeatable sem _ _ _ _ _ E) as [H _].
  eexists. split; [exact E|exact H].
Defined.

(** The [i8] constant 0 is looked up as the null pointer, a 32-bit
    numeral. *)
Lemma lookup_constant_int_witness :
  lookup sem 62 root = Done (Some (BVNUM 0 32)) root [].
Proof. exact (lookup_constant_int sem root 62 0 eq_refl). Defined.

(** An [undef] of type [void] has no term. *)
Lemma lookup_undef_and_null_witness :
  lookup sem 99 root = Unreachable "res".
Proof.
  exact (proj1 (proj2 (proj2 (proj2 (lookup_undef_and_null sem root 99))))
           (or_introl eq_refl) eq_refl).
Defined.

(** [br i1 %c, left, right] towards [left]. *)
Lemma intraBr_frame_witness :
  exists c' l,
    intraBr sem 11 (atTerminator 10 1 [TRUE]) = Done tt c' l
    /\ onlyMoves (atTerminator 10 1 [TRUE]) c'.
Proof.
  eassert (E : intraBr sem 11 (atTerminator 10 1 [TRUE]) = Done tt _ _)
    by (vm_compute; reflexivity).
  eexists _, _. split; [exact E|].
  exact (proj1 (intraBr_frame sem _ _ _ _ E)).
Defined.

(** [br i1 true, left, right] towards [left]: nothing is recorded and
    [left] is not entered. *)
Lemma intraBr_not_entered_witness :
  exists c',
    intraBr sem 11 (atTerminator 14 0 [TRUE]) = Done tt c' []
    /\ m_bb c' = Some 14%positive /\ m_side c' = [TRUE].
Proof.
  pose proof (proj1 (intraBr_not_entered sem (atTerminator 14 0 [TRUE]) 43 11
                       eq_refl)
                14%positive 52%positive 11%positive 12%positive
                (mkGenericValue 1) [] eq_refl eq_refl eq_refl
                (or_introl (conj eq_refl eq_refl))) as H.
  eexists. split; [exact H|split; reflexivity].
Defined.

(** A memset of 16 bytes between a store tag and the next tag. *)
Lemma memset_memcpy_consume_meta_registers_witness :
  exists res c' l,
    executeMemSetInst opts sem 60 62 66 4
      (memState (Some memIn) (Some memOut) None false) = Done res c' l
    /\ m_readRegister c' = None /\ m_writeRegister c' = None.
Proof.
  eassert (E : executeMemSetInst opts sem 60 62 66 4
                 (memState (Some memIn) (Some memOut) None false) = Done _ _ _)
    by (vm_compute; reflexivity).
  eexists _, _, _. split; [exact E|].
  exact (proj1 (memset_memcpy_consume_meta_registers opts sem) _ _ _ _ _ _ _ _ E).
Defined.

Lemma memset_memcpy_scalar_unsupported_witness :
  executeMemSetInst opts sem 60 62 66 4
    (memState (Some memIn) (Some memOut) None true) =
    Unreachable "memset to scalars is not supported".
Proof.
  exact (proj1 (memset_memcpy_scalar_unsupported opts sem
                  (memState (Some memIn) (Some memOut) None true)
                  60 62 66 4 memIn memOut [] []
                  eq_refl eq_refl eq_refl eq_refl eq_refl)).
Defined.

(** A memset of [2^32 + 16] bytes is a memset of 16 bytes. *)
Lemma memset_memcpy_length_truncated_witness :
  executeMemSetInst opts sem2 60 62 86 4
    (memState (Some memIn) (Some memOut) None false) =
  executeMemSetInst opts sem2 60 62 66 4
    (memState (Some memIn) (Some memOut) None false).
Proof.
  exact (proj1 (memset_memcpy_length_truncated opts sem2
                  (memState (Some memIn) (Some memOut) None false)
                  60 62 86 66 4 4294967312 16 eq_refl eq_refl eq_refl)).
Defined.

Lemma visitCallocCall_keeps_meta_registers_witness :
  exists c' l,
    visitCallocCall opts sem 64 (memState (Some memIn) (Some memOut) None false)
      = Done tt c' l
    /\ sameMetaRegisters (memState (Some memIn) (Some memOut) None false) c'.
Proof.
  eassert (E : visitCallocCall opts sem 64
                 (memState (Some memIn) (Some memOut) None false) = Done tt _ _)
    by (vm_compute; reflexivity).
  eexists _, _. split; [exact E|].
  exact (proj1 (visitCallocCall_keeps_meta_registers opts sem 64) _ _ _ E).
Defined.

Lemma execPhi_position_witness :
  execPhi opts sem 13 11 atLeft =
    visitBasicBlock_Phi opts sem 13
      (set_position (Some (getParent sem 13)) (Some 13%positive)
         (Some (13%positive, 0%nat)) (Some 11%positive) atLeft).
Proof.
  exact (proj1 (execPhi_position opts sem atLeft 13 11) (or_intror eq_refl)).
Defined.

(** The edge from [pre] to [mixed], from a machine that stands nowhere:
    the two PHI nodes exchange the values [a] and [b], around the float
    and the struct that are skipped. *)
Lemma unconditional_edge_assigns_phis_witness :
  exists c',
    (execBr sem 18 17;; execPhi opts sem 17 18)
      (set_position None None None None atPre) =
      Done tt c' [LOG "opsem" "Unsupported struct type";
                  LOG "opsem" "Unsupported struct type"]
    /\ m_prev c' = Some 18%positive
    /\ store_get (m_values c') (reg 48) = Some b
    /\ store_get (m_values c') (reg 49) = Some a.
Proof.
  destruct (items_mixed (set_position None None None None atPre)
              (fun _ => eq_refl))
    as [Hall Hnd].
  { intros v res H. now apply (lookup_set_position sem None None None None) in H. }
  destruct (proj1 (unconditional_edge_assigns_phis opts sem
                     (set_position None None None None atPre) 18 17 24 0
                     (or_introl eq_refl) eq_refl eq_refl eq_refl eq_refl)
              mixedPhis [42%positive] eq_refl eq_refl Hall Hnd)
    as (c' & Hrun & _ & Hprev & _ & _ & Hval & _).
  exists c'. split_and!; [exact Hrun|exact Hprev| |].
  - apply (Hval (mkPhiAssign 48 49 (reg 48) b)). cbn; rewrite !elem_of_cons; auto 10.
  - apply (Hval (mkPhiAssign 49 48 (reg 49) a)). cbn; rewrite !elem_of_cons; auto 10.
Defined.

(** A call to a function defined in the module ends the run. *)
Lemma visitCallSite_defined_function_aborts_witness :
  exists msg,
    visitCallSite opts xopts sem2 (fun _ => ret tt) (fun _ => ret tt)
      cs_defined root = Unreachable msg.
Proof.
  exact (visitCallSite_defined_function_aborts opts xopts sem2
           (fun _ => ret tt) (fun _ => ret tt) cs_defined
           (mkCalledFunction "helper" false false false false) root
           eq_refl eq_refl eq_refl eq_refl eq_refl eq_refl).
Defined.

(** The result of a call to the external [@ext] gets a fresh value. *)
Lemma unmodelled_call_havocs_result_witness :
  exists c' l reg,
    visitExternalCall opts xopts sem cs_external root = Done tt c' l
    /\ 61%positive ∈ m_ignored c'
    /\ store_get (m_values c') reg = Some (VARIANT 0 reg).
Proof.
  destruct (unmodelled_call_havocs_result opts xopts sem cs_external root
              10 OtherInst 32 eq_refl eq_refl eq_refl eq_refl)
    as (c' & l & reg & _ & He & Hig & _ & Hs & _).
  exists c', l, reg. split_and!; [|exact Hig|exact Hs].
  exact (He _ eq_refl eq_refl (or_introl eq_refl)).
Defined.

(** A nondeterministic call that returns a float ends the run; one that
    returns nothing does nothing. *)
Lemma visitNondetCall_result_witness :
  visitNondetCall opts sem2 (cs_nondet 81) root = Done tt root []
  /\ visitNondetCall opts sem2 (cs_nondet 80) root =
       Unreachable "Error: unhandled type".
Proof.
  split.
  - exact (proj1 (visitNondetCall_result opts sem2 (cs_nondet 81) root) eq_refl).
  - exact (proj1 (proj2 (visitNondetCall_result opts sem2 (cs_nondet 80) root))
             10%positive OtherInst eq_refl eq_refl eq_refl I).
Defined.

(** [verifier.assume.not (%c)] in [entry]. *)
Lemma visitVerifierAssumeCall_side_witness :
  exists c',
    visitVerifierAssumeCall sem2 (cs_assume "verifier.assume.not")
      (atTerminator 10 0 [TRUE]) = Done tt c' []
    /\ m_side c' =
         [TRUE;
          OR (VARIANT 1 (boolConst (STRING "error.flag")))
            (NEG (VARIANT 0 (reg1 20)))].
Proof.
  eassert (E : lookup sem2 20 (atTerminator 10 0 [TRUE]) = Done (Some _) _ _)
    by (vm_compute; reflexivity).
  pose proof (proj2 (proj2 (visitVerifierAssumeCall_side sem2
                              (cs_assume "verifier.assume.not")
                              (externalFunction "verifier.assume.not" false true)
                              20 (atTerminator 10 0 [TRUE]) eq_refl eq_refl))
                _ _ _ E) as H.
  destruct H as (c' & Hrun & Hside & _); [vm_compute; discriminate|].
  exists c'. split; [exact Hrun|exact Hside].
Defined.

(** 5 is stored to the scalar [@g] and loaded back. *)
Lemma scalar_store_load_round_trip_witness :
  exists c' l,
    (visitShadowMemCall opts sem2 shadow_mem_store cs_mem_store;;
     _ <- executeStoreInst opts sem2 61 84 4;;
     visitShadowMemCall opts sem2 shadow_mem_load cs_mem_load;;
     executeLoadInst sem2 84 4 i32) beforeStore = Done (Some five) c' l
    /\ m_readRegister c' = None /\ m_writeRegister c' = None.
Proof.
  eassert (E : mkRegister opts sem2 82 beforeStore = Done _ _ _)
    by (vm_compute; reflexivity).
  destruct (scalar_store_load_round_trip opts sem2 cs_mem_store cs_mem_load
              beforeStore 10 OtherInst 84 84 84 83 61 84 84 4 4 i32
              (scalarReg 83) (reg 61) five []
              eq_refl eq_refl eq_refl eq_refl eq_refl eq_refl eq_refl eq_refl
              eq_refl canonical_beforeStore eq_refl eq_refl
              ltac:(discriminate) eq_refl eq_refl _ _ _ E)
    as (c' & l & Hrun & Hr & Hw & _).
  exists c', l. split_and!; [exact Hrun|exact Hr|exact Hw].
Defined.

(** The register of the memory version [%82], named [%82[@g]], is known. *)
Lemma mkRegister_declares_witness :
  exists c',
    mkRegister opts sem2 82 root = Done (scalarReg 82) c' []
    /\ isSymReg (fun _ => false) (scalarReg 82) c' = Ok true [].
Proof.
  eassert (E : mkRegister opts sem2 82 root = Done _ _ _)
    by (vm_compute; reflexivity).
  assert (Hd : declared root).
  { intros v r. unfold root. cbn [m_valueToRegister].
    rewrite lookup_empty. discriminate. }
  destruct (mkRegister_declares opts sem2 root 82 _ _ _ (fun _ => false)
              eq_refl Hd E) as (_ & Hs & _).
  eexists. split; [exact E|exact Hs].
Defined.

(** [read] gives [%61] a register and a value where [lookup] gives
    nothing. *)
Lemma read_never_empty_witness :
  exists res c1 l,
    read opts sem 61 root = Done res c1 l
    /\ (exists reg e,
          res = Some e /\ getRegister c1 61 = Some reg
          /\ store_get (m_values c1) reg = Some e)
    /\ exists lw, lookup sem 61 root = Done None root lw.
Proof.
  eassert (E : read opts sem 61 root = Done _ _ _) by (vm_compute; reflexivity).
  destruct (read_never_empty opts sem root 61 [] _ _ _ eq_refl eq_refl E)
    as (H1 & _ & H3).
  eexists _, _, _. split; [exact E|]. split; [exact H1|exact (H3 eq_refl)].
Defined.

(** The offset of [gep i32* %p, i32 -1]: [-4], as a [uint64_t]. *)
Lemma symbolicIndexedOffset_constant_witness :
  symbolicIndexedOffset sem2 [SequentialStep 85 i32] root =
    Done (BVNUM 18446744073709551612 32) root [].
Proof.
  exact (symbolicIndexedOffset_constant sem2 root [SequentialStep 85 i32]
           [(-4)%Z] ltac:(repeat constructor)).
Defined.

(** Field 2 of a struct, then index [%61] and index 1 in [i32]s. *)
Lemma symbolicIndexedOffset_symbolic_witness :
  symbolicIndexedOffset sem2
    [StructStep 51 StructTy; SequentialStep 61 i32; SequentialStep 50 i32]
    (memState None None None false) =
    Done (BADD (BMUL (VARIANT 1 (reg 61)) (BVNUM 4 32)) (BVNUM 12 32))
      (memState None None None false) [].
Proof.
  exact (symbolicIndexedOffset_symbolic sem2 (memState None None None false)
           [StructStep 51 StructTy] [SequentialStep 50 i32] [8%Z] [4%Z]
           61 i32 (VARIANT 1 (reg 61)) (memState None None None false) []
           ltac:(repeat constructor)
           ltac:(repeat constructor)
           eq_refl eq_refl).
Defined.

(** The float [%91] is stepped over without a visit; the terminator
    after it stops the steps. *)
Lemma intraStep_skips_and_stops_witness :
  exists c' l,
    intraStep opts sem2 (fun _ => llvm_unreachable "visit")
      (atTerminator 90 0 []) = Done true c' l
    /\ m_inst c' = Some (90%positive, 1%nat)
    /\ intraStep opts sem2 (fun _ => llvm_unreachable "visit")
         (atTerminator 90 1 []) = Done false (atTerminator 90 1 []) [].
Proof.
  destruct (proj2 (proj2 (intraStep_skips_and_stops opts sem2
                            (fun _ => llvm_unreachable "visit")
                            (atTerminator 90 0 []) 90 0 eq_refl eq_refl))
              91%positive [] eq_refl eq_refl eq_refl)
    as (c' & l & Hrun & _ & Hi & _).
  exists c', l. split_and!; [exact Hrun|exact Hi|].
  exact (proj1 (proj2 (intraStep_skips_and_stops opts sem2
                         (fun _ => llvm_unreachable "visit")
                         (atTerminator 90 1 []) 90 1 eq_refl eq_refl))
           92%positive eq_refl eq_refl eq_refl).
Defined.

(** [%89 = bitcast i32* %60 to i8*]: [%89] is [%60]. *)
Lemma bitcast_gives_operand_witness :
  exists c2,
    visitBitCastInst opts sem2 89 60 (memState None None None false) =
      Done tt c2 []
    /\ lookup sem2 89 c2 = Done (Some (VARIANT 0 (reg 60))) c2 [].
Proof.
  eassert (E1 : lookup sem2 60 (memState None None None false) =
                Done (Some _) _ _) by (vm_compute; reflexivity).
  eassert (E2 : visitBitCastInst opts sem2 89 60
                  (memState None None None false) = Done tt _ _)
    by (vm_compute; reflexivity).
  eexists. split; [exact E2|].
  exact (proj2 (proj2 (proj2 (bitcast_gives_operand opts sem2 89 60
                                (memState None None None false))))
           [] _ _ _ _ _ eq_refl eq_refl E1 E2).
Defined.
